(** * The MCP chat client: tool-call mediation and provider adapters

    A shallow embedding of the Python sources
    - [client.py]                      ([MCPClient], [main]),
    - [services/anthropic.py], [services/openai.py], [services/gemini.py]
      (the three provider adapters and the Gemini catalog projector),
    - [interfaces/terminal.py]         ([chat_loop]),
    - [03/client_sse_chat_enhanced.py] ([DatabaseChatAgent], [main]),
    - [gemini-built-1/server_sse.py]   ([execute_sql_query]),
    together with the parts of the Python runtime they rest on: [repr] of
    built-in values, [str.replace], [str.lower]/[str.upper], [re.findall]
    for the one pattern the client compiles, and [json.loads].

    Conventions.
    - A Python [str] is the list of its code points ([pystr]).
    - What the interpreter knows beyond ASCII (the Unicode character
      database, the shortest [repr] of a float) and everything outside the
      process (the vendors' services, the tool server) is a field of the
      classes [Interpreter] and [Outside]; the ASCII part of every table
      is written out.
    - Python lists that the code shares and mutates live in a heap;
      a variable holding a list holds its location.
    - A call either returns or raises: computations with effects run in the
      monad [M], which threads the [world] and an [outcome].  So does
      [print], which fails when the terminal does not take the text, and
      [repr], which refuses an [int] of too many digits.
    - A [try] block that rebinds a variable hands its handler the binding
      in force where the exception was raised. *)

From Stdlib Require Import String Ascii NArith ZArith Lia.
From stdpp Require Import base list option numbers.

Set Warnings "-register-all".
Local Open Scope N_scope.

(** ** Text *)

Definition pystr := list N.

(** The code points of a literal. *)
Fixpoint codes (s : string) : pystr :=
  match s with
  | EmptyString => []
  | String a r => N_of_ascii a :: codes r
  end.
Arguments codes s%_string : simpl never.

Definition chr (a : ascii) : N := N_of_ascii a.
Arguments chr a%_char : simpl never.

(** The double quote and the apostrophe, by code. *)
Definition DQUOTE : N := 34.
Definition SQUOTE : N := 39.
Definition BACKSLASH : N := 92.

Definition is_ascii (c : N) : bool := c <? 128.
Definition is_digit (c : N) : bool := (chr "0" <=? c) && (c <=? chr "9").
Definition is_upper (c : N) : bool := (chr "A" <=? c) && (c <=? chr "Z").
Definition is_lower (c : N) : bool := (chr "a" <=? c) && (c <=? chr "z").
Definition ascii_alnum (c : N) : bool := is_digit c || is_upper c || is_lower c.

(** [s.startswith(p)], returning what follows the prefix. *)
Fixpoint strip_prefix (p s : pystr) : option pystr :=
  match p, s with
  | [], _ => Some s
  | a :: p', b :: s' => if a =? b then strip_prefix p' s' else None
  | _ :: _, [] => None
  end.

Definition startswith (s p : pystr) : bool :=
  match strip_prefix p s with Some _ => true | None => false end.

Definition endswith (s p : pystr) : bool := startswith (rev s) (rev p).

(** The longest prefix of [s] whose characters satisfy [p], and the rest. *)
Fixpoint span (p : N -> bool) (s : pystr) : pystr * pystr :=
  match s with
  | [] => ([], [])
  | c :: r => if p c then let '(a, b) := span p r in (c :: a, b) else ([], s)
  end.

(** [sep.join(parts)]. *)
Fixpoint str_join (sep : pystr) (parts : list pystr) : pystr :=
  match parts with
  | [] => []
  | [x] => x
  | x :: rest => x ++ sep ++ str_join sep rest
  end.

(** [s.replace(old, new)] for one-character [old] and [new]. *)
Definition replace_char (old new : N) (s : pystr) : pystr :=
  map (fun c => if c =? old then new else c) s.

Definition ascii_lower (c : N) : N := if is_upper c then c + 32 else c.
Definition ascii_upper (c : N) : N := if is_lower c then c - 32 else c.

(** ** Exceptions and outcomes *)

(** The exception classes the sources raise or meet.  [External] stands for
    whatever a vendor SDK or the tool session raises; [BaseOnly] for the
    exceptions that do not derive from [Exception] (KeyboardInterrupt,
    SystemExit, CancelledError). *)
Inductive exn :=
| ValueError | RuntimeError | TypeError | AttributeError | KeyError
| IndexError | JSONDecodeError | RecursionError | EOFError
| External (tag : N)
| BaseOnly (tag : N).

(** [isinstance(e, Exception)]: what [except Exception] catches. *)
Definition is_Exception (e : exn) : bool :=
  match e with BaseOnly _ => false | _ => true end.

Inductive outcome (A : Type) :=
| Return (a : A)
| Raise (e : exn).
Arguments Return {A} a.
Arguments Raise {A} e.

(** ** Values *)

(** The built-in values that travel as tool arguments, schemas and message
    contents.  A float is kept as the literal it was read from; dictionaries
    keep insertion order and have string keys, as every dictionary decoded
    from JSON has. *)
Inductive pyval :=
| PNone
| PBool (b : bool)
| PInt (z : Z)
| PFloat (lit : pystr)
| PStr (s : pystr)
| PList (l : list pyval)
| PDict (d : list (pystr * pyval)).

Definition pydict := list (pystr * pyval).

(** [d[k] = v]: an existing key keeps its position and takes the new value,
    a new key goes last. *)
Fixpoint dict_set {V : Type} (k : pystr) (v : V) (d : list (pystr * V)) : list (pystr * V) :=
  match d with
  | [] => [(k, v)]
  | (k', v') :: r => if bool_decide (k = k') then (k, v) :: r else (k', v') :: dict_set k v r
  end.

(** [d.get(k)]; [k in d] is [dict_get k d] being [Some _]. *)
Fixpoint dict_get {V : Type} (k : pystr) (d : list (pystr * V)) : option V :=
  match d with
  | [] => None
  | (k', v') :: r => if bool_decide (k = k') then Some v' else dict_get k r
  end.

(** [dict(pairs)]. *)
Definition dict_of_pairs (pairs : list (pystr * pyval)) : pydict :=
  fold_left (fun d kv => dict_set (fst kv) (snd kv) d) pairs [].

(** Truth value of an object, as [if x:] tests it. *)
Definition truthy (v : pyval) : bool :=
  match v with
  | PNone => false
  | PBool b => b
  | PInt z => negb (Z.eqb z 0)
  | PFloat _ => true
  | PStr s => negb (bool_decide (s = []))
  | PList l => negb (bool_decide (length l = 0%nat))
  | PDict d => negb (bool_decide (length d = 0%nat))
  end.

(** Decimal digits of a natural number, most significant first. *)
Fixpoint dec_digits (fuel : nat) (n : N) (acc : pystr) : pystr :=
  match fuel with
  | O => acc
  | S f =>
      let acc' := (chr "0" + n mod 10) :: acc in
      if n <? 10 then acc' else dec_digits f (n / 10) acc'
  end.

Definition repr_nat (n : N) : pystr := dec_digits (S (N.to_nat (N.log2 n))) n [].

(** [repr] of an [int]. *)
Definition repr_int (z : Z) : pystr :=
  if (z <? 0)%Z then chr "-" :: repr_nat (Z.abs_N z) else repr_nat (Z.abs_N z).

Definition hex_digit (n : N) : N := if n <? 10 then chr "0" + n else chr "a" + (n - 10).

(** The last [k] hexadecimal digits of [c], lower case. *)
Fixpoint hex_digits (k : nat) (c : N) (acc : pystr) : pystr :=
  match k with
  | O => acc
  | S k' => hex_digits k' (c / 16) (hex_digit (c mod 16) :: acc)
  end.

(** ** [json.loads]

    The decoder of the standard library, as its C scanner runs it on a [str]
    with the default hooks and [strict=True]: RFC 8259 plus the literals
    [NaN], [Infinity] and [-Infinity]. *)

(** What a scanning function gives back: the value and the text after it,
    or the exception. *)
Inductive scanned (A : Type) :=
| Scanned (a : A) (rest : pystr)
| Failed (e : exn).
Arguments Scanned {A} a rest.
Arguments Failed {A} e.

Definition scanned_map {A B} (f : A -> B) (r : scanned A) : scanned B :=
  match r with
  | Scanned a rest => Scanned (f a) rest
  | Failed e => Failed e
  end.

Definition is_json_ws (c : N) : bool :=
  (c =? chr " ") || (c =? 9) || (c =? 10) || (c =? 13).

Fixpoint skip_ws (s : pystr) : pystr :=
  match s with
  | c :: r => if is_json_ws c then skip_ws r else s
  | [] => []
  end.

Definition hex_value (c : N) : option N :=
  if is_digit c then Some (c - chr "0")
  else if (chr "a" <=? c) && (c <=? chr "f") then Some (c - chr "a" + 10)
  else if (chr "A" <=? c) && (c <=? chr "F") then Some (c - chr "A" + 10)
  else None.

(** Four hexadecimal digits: their value and the text after them. *)
Definition hex4 (s : pystr) : option (N * pystr) :=
  match s with
  | a :: b :: c :: d :: r =>
      match hex_value a, hex_value b, hex_value c, hex_value d with
      | Some x, Some y, Some z, Some w => Some (((x * 16 + y) * 16 + z) * 16 + w, r)
      | _, _, _, _ => None
      end
  | _ => None
  end.

Definition is_high_surrogate (c : N) : bool := (55296 <=? c) && (c <=? 56319).
Definition is_low_surrogate (c : N) : bool := (56320 <=? c) && (c <=? 57343).
Definition join_surrogates (hi lo : N) : N := 65536 + ((hi - 55296) * 1024 + (lo - 56320)).

(** The character a one-letter escape stands for. *)
Definition simple_escape (e : N) : option N :=
  if e =? DQUOTE then Some DQUOTE
  else if e =? BACKSLASH then Some BACKSLASH
  else if e =? chr "/" then Some (chr "/")
  else if e =? chr "b" then Some 8
  else if e =? chr "f" then Some 12
  else if e =? chr "n" then Some 10
  else if e =? chr "r" then Some 13
  else if e =? chr "t" then Some 9
  else None.

(** [scanstring]: the content of a string literal whose opening quote has
    been read, up to the closing quote.  Every step consumes a character,
    so [length s] is fuel enough. *)
Fixpoint scanstring (fuel : nat) (s : pystr) : scanned pystr :=
  match fuel with
  | O => Failed JSONDecodeError
  | S f =>
      match s with
      | [] => Failed JSONDecodeError
      | c :: r =>
          if c =? DQUOTE then Scanned [] r
          else if c =? BACKSLASH then
            match r with
            | [] => Failed JSONDecodeError
            | e :: r' =>
                if e =? chr "u" then
                  match hex4 r' with
                  | None => Failed JSONDecodeError
                  | Some (u1, r1) =>
                      match (if is_high_surrogate u1 then strip_prefix (codes "\u") r1 else None) with
                      | Some r2 =>
                          match hex4 r2 with
                          | None => Failed JSONDecodeError
                          | Some (u2, r3) =>
                              if is_low_surrogate u2
                              then scanned_map (cons (join_surrogates u1 u2)) (scanstring f r3)
                              else scanned_map (cons u1) (scanstring f r1)
                          end
                      | None => scanned_map (cons u1) (scanstring f r1)
                      end
                  end
                else
                  match simple_escape e with
                  | Some ch => scanned_map (cons ch) (scanstring f r')
                  | None => Failed JSONDecodeError
                  end
            end
          else if c <? 32 then Failed JSONDecodeError
          else scanned_map (cons c) (scanstring f r)
      end
  end.

(** The value of a run of decimal digits. *)
Definition digits_value (ds : pystr) : N :=
  fold_left (fun acc d => acc * 10 + (d - chr "0")) ds 0.

(** The interpreter refuses to convert a decimal literal of more digits
    than this to an [int] ([sys.int_info.default_max_str_digits]). *)
Definition int_max_str_digits : nat := 4300.

(** The fraction of a number: a dot and at least one digit, else nothing. *)
Definition match_frac (s : pystr) : pystr * pystr :=
  match s with
  | dot :: d :: r =>
      if (dot =? chr ".") && is_digit d
      then let '(ds, r') := span is_digit r in (dot :: d :: ds, r')
      else ([], s)
  | _ => ([], s)
  end.

(** The exponent: [e] or [E], an optional sign and at least one digit, else
    nothing. *)
Definition match_exp (s : pystr) : pystr * pystr :=
  match s with
  | e :: r =>
      if (e =? chr "e") || (e =? chr "E") then
        let '(sign, r1) :=
          match r with
          | sg :: r' => if (sg =? chr "-") || (sg =? chr "+") then ([sg], r') else ([], r)
          | [] => ([], r)
          end in
        match r1 with
        | d :: r2 =>
            if is_digit d
            then let '(ds, r3) := span is_digit r2 in (e :: sign ++ d :: ds, r3)
            else ([], s)
        | [] => ([], s)
        end
      else ([], s)
  | [] => ([], s)
  end.

(** The digits of a number, after its sign if it has one: either a single
    zero or a non-zero digit followed by digits, then an optional fraction
    and an optional exponent.  The number is an [int] when there is
    neither fraction nor exponent, a [float] otherwise. *)
Definition match_digits (neg : bool) (s : pystr) : scanned pyval :=
  match s with
  | [] => Failed JSONDecodeError
  | c :: r =>
      let int_part :=
        if c =? chr "0" then Some ([c], r)
        else if is_digit c then let '(ds, r') := span is_digit r in Some (c :: ds, r')
        else None in
      match int_part with
      | None => Failed JSONDecodeError
      | Some (ds, r1) =>
          let '(frac, r2) := match_frac r1 in
          let '(ex, r3) := match_exp r2 in
          match frac ++ ex with
          | [] =>
              if bool_decide (length ds <= int_max_str_digits)%nat
              then Scanned (PInt (if neg then Z.opp (Z.of_N (digits_value ds))
                                  else Z.of_N (digits_value ds))) r3
              else Failed ValueError
          | _ :: _ => Scanned (PFloat ((if neg then [chr "-"] else []) ++ ds ++ frac ++ ex)) r3
          end
      end
  end.

(** A number: an optional minus sign, then the digits. *)
Definition match_number (s : pystr) : scanned pyval :=
  match s with
  | c :: r => if c =? chr "-" then match_digits true r else match_digits false s
  | [] => Failed JSONDecodeError
  end.

(** The members of an object after its opening brace: [value] scans one
    value.  Every member consumes a character. *)
Fixpoint parse_members (value : pystr -> scanned pyval) (fuel : nat) (s : pystr)
  : scanned (list (pystr * pyval)) :=
  match fuel with
  | O => Failed JSONDecodeError
  | S f =>
      match s with
      | q :: r =>
          if q =? DQUOTE then
            match scanstring (length r) r with
            | Failed e => Failed e
            | Scanned key r1 =>
                match skip_ws r1 with
                | colon :: r2 =>
                    if colon =? chr ":" then
                      match value (skip_ws r2) with
                      | Failed e => Failed e
                      | Scanned v r3 =>
                          match skip_ws r3 with
                          | c :: r4 =>
                              if c =? chr "}" then Scanned [(key, v)] r4
                              else if c =? chr "," then
                                scanned_map (cons (key, v)) (parse_members value f (skip_ws r4))
                              else Failed JSONDecodeError
                          | [] => Failed JSONDecodeError
                          end
                      end
                    else Failed JSONDecodeError
                | [] => Failed JSONDecodeError
                end
            end
          else Failed JSONDecodeError
      | [] => Failed JSONDecodeError
      end
  end.

Definition parse_object (value : pystr -> scanned pyval) (s : pystr) : scanned pyval :=
  match skip_ws s with
  | c :: r =>
      if c =? chr "}" then Scanned (PDict []) r
      else scanned_map (fun pairs => PDict (dict_of_pairs pairs))
             (parse_members value (length s) (c :: r))
  | [] => Failed JSONDecodeError
  end.

(** The elements of an array after its opening bracket. *)
Fixpoint parse_elements (value : pystr -> scanned pyval) (fuel : nat) (s : pystr)
  : scanned (list pyval) :=
  match fuel with
  | O => Failed JSONDecodeError
  | S f =>
      match value s with
      | Failed e => Failed e
      | Scanned v r1 =>
          match skip_ws r1 with
          | c :: r2 =>
              if c =? chr "]" then Scanned [v] r2
              else if c =? chr "," then
                scanned_map (cons v) (parse_elements value f (skip_ws r2))
              else Failed JSONDecodeError
          | [] => Failed JSONDecodeError
          end
      end
  end.

Definition parse_array (value : pystr -> scanned pyval) (s : pystr) : scanned pyval :=
  match skip_ws s with
  | c :: r =>
      if c =? chr "]" then Scanned (PList []) r
      else scanned_map PList (parse_elements value (length s) (c :: r))
  | [] => Failed JSONDecodeError
  end.

(** A literal word at the head of the text. *)
Definition match_literal (s : pystr) : option (pyval * pystr) :=
  match strip_prefix (codes "null") s with
  | Some r => Some (PNone, r)
  | None =>
  match strip_prefix (codes "true") s with
  | Some r => Some (PBool true, r)
  | None =>
  match strip_prefix (codes "false") s with
  | Some r => Some (PBool false, r)
  | None =>
  match strip_prefix (codes "NaN") s with
  | Some r => Some (PFloat (codes "NaN"), r)
  | None =>
  match strip_prefix (codes "Infinity") s with
  | Some r => Some (PFloat (codes "Infinity"), r)
  | None =>
  match strip_prefix (codes "-Infinity") s with
  | Some r => Some (PFloat (codes "-Infinity"), r)
  | None => None
  end end end end end end.

(** [scan_once]: one value at the head of the text.  [depth] is the number
    of nested containers the interpreter's recursion limit still allows;
    entering an object or an array uses one. *)
Fixpoint scan_once (depth : nat) (s : pystr) {struct depth} : scanned pyval :=
  match s with
  | [] => Failed JSONDecodeError
  | c :: r =>
      if c =? DQUOTE then scanned_map PStr (scanstring (length r) r)
      else if c =? chr "{" then
        match depth with
        | O => Failed RecursionError
        | S d => parse_object (scan_once d) r
        end
      else if c =? chr "[" then
        match depth with
        | O => Failed RecursionError
        | S d => parse_array (scan_once d) r
        end
      else
        match match_literal s with
        | Some (v, rest) => Scanned v rest
        | None => match_number s
        end
  end.

(** [json.loads(s)]: one value between optional whitespace, and nothing
    else. *)
Definition json_loads (depth : nat) (s : pystr) : outcome pyval :=
  match scan_once depth (skip_ws s) with
  | Failed e => Raise e
  | Scanned v rest =>
      match skip_ws rest with
      | [] => Return v
      | _ :: _ => Raise JSONDecodeError
      end
  end.

(** ** The data of the program *)

(** An OpenAI tool call: [tool_call.function.name] and
    [tool_call.function.arguments]. *)
Record tool_call := { tc_name : pystr; tc_arguments : pystr }.

(** A message dictionary: ["role"], ["content"], and for the assistant
    message the OpenAI adapter appends, ["tool_calls"]. *)
Record message := {
  role : pystr;
  content : pyval;
  tool_calls : option (list tool_call)
}.

Definition user_message (query : pystr) : message :=
  {| role := codes "user"; content := PStr query; tool_calls := None |}.

(** What [session.list_tools()] lists for a tool. *)
Record server_tool := {
  st_name : pystr;
  st_description : option pystr;
  st_inputSchema : pydict
}.

(** An entry of [available_tools]:
    [{"name": .., "description": .., "input_schema": ..}]. *)
Record tool := {
  tool_name : pystr;
  tool_description : option pystr;
  input_schema : pydict
}.

Definition loc := nat.

Inductive transport :=
| SSE (url : pystr)
| Stdio (command : pystr) (args : list pystr).

(** What the process does to the outside, in the order it does it. *)
Inductive event :=
| EvOpenSession (t : transport)
| EvListTools
| EvCallTool (name : pystr) (arguments : pyval)
| EvNewClient (provider : pystr)
| EvVendor (provider : pystr)
| EvInput
| EvPrint (text : pystr)
| EvPrintError (e : exn)
| EvCleanup.

Inductive content_block :=
| TextBlock (text : pystr)
| ToolUseBlock (name : pystr) (input : pydict)
| OtherBlock.

(** An entry of [openai_tools]:
    [{"type": "function", "function": {"name", "description", "parameters"}}]. *)
Record openai_tool := {
  fn_name : pystr;
  fn_description : option pystr;
  fn_parameters : pydict
}.

(** [response.choices[i].message]. *)
Record openai_message := {
  om_content : option pystr;
  om_tool_calls : option (list tool_call)
}.

(** A property of a projected schema: [{"type": ..}] and, when the source
    has one, ["description"]. *)
Record property_schema := {
  ps_type : pystr;
  ps_description : option pyval
}.

(** A function declaration: [{"name", "description", "parameters":
    {"type": "OBJECT", "properties", "required"}}]. *)
Record function_declaration := {
  fd_name : pystr;
  fd_description : option pystr;
  fd_properties : list (pystr * property_schema);
  fd_required : pyval
}.

Definition type_mapping : list (pystr * pystr) :=
  [ (codes "number", codes "NUMBER");
    (codes "integer", codes "INTEGER");
    (codes "boolean", codes "BOOLEAN");
    (codes "array", codes "ARRAY");
    (codes "object", codes "OBJECT") ].

(** An entry of the vendor's history: [{"role": .., "parts": [{"text": ..}]}]. *)
Record gemini_turn := { gt_role : pystr; gt_text : pystr }.

(** [part.function_call]: its [name] and its [args], a mapping or [None]. *)
Record gemini_function_call := { fc_name : option pystr; fc_args : option pydict }.

Record gemini_part := {
  part_text : option pystr;
  part_function_call : option gemini_function_call
}.

(** [candidate.content.parts]: [None] when the candidate has no content,
    [Some None] when the content has no parts. *)
Record gemini_candidate := { cand_parts : option (option (list gemini_part)) }.

Record gemini_response := { candidates : option (list gemini_candidate) }.

Inductive service := AnthropicService | OpenAIService | GeminiService.

Record MCPClient := {
  llm_provider : pystr;
  llm_service : service;
  session : bool
}.

Inductive loop_control :=
| Break
| Continue (previous_messages : loc).

(** Where the [try] block of the chat loop stands before its last
    statement: it leaves the loop, or it has assigned [previous_messages]
    and goes on to print [text]. *)
Inductive turn_step :=
| Quit
| Rebound (previous_messages : loc) (text : pystr).

Definition SystemExit : exn := BaseOnly 1.

(** The state of a [DatabaseChatAgent] that [chat] reads and writes. *)
Record DatabaseChatAgent := { conversation_history : list message }.

Definition assistant_message (response : pystr) : message :=
  {| role := codes "assistant"; content := PStr response; tool_calls := None |}.

(** [{"role": "assistant", "content": response}] for a [response] that
    may be [None]. *)
Definition assistant_reply (response : option pystr) : message :=
  {| role := codes "assistant";
     content := match response with Some text => PStr text | None => PNone end;
     tool_calls := None |}.

(** ** What the program rests on *)

(** What the interpreter knows beyond ASCII, and how much room its
    recursion limit leaves. *)
Class Interpreter : Type := {
  (** [str.isalnum], [str.isprintable] and [str.isspace] on a code point
      from 128 upward. *)
  uni_alnum : N -> bool;
  uni_printable : N -> bool;
  uni_space : N -> bool;
  (** [str.lower] and [str.upper] on a string that is not pure ASCII. *)
  uni_lower : pystr -> pystr;
  uni_upper : pystr -> pystr;
  (** [repr] of the float a JSON number literal denotes. *)
  float_repr : pystr -> pystr;
  (** How many nested containers [json.loads] may still enter before the
      recursion limit, where an adapter calls it and where the client
      does. *)
  adapter_recursion_room : nat;
  client_recursion_room : nat
}.

(** Everything outside the process.  [Ext] is its state: the vendors'
    services, the tool server, the terminal.  A call takes the state and
    gives an outcome and the state after it. *)
Class Outside : Type := {
  Ext : Type;
  (** The result of a tool call, and [f"{result}"]. *)
  Result : Type;
  format_result : Result -> pystr;
  (** The tool session: [list_tools()], [call_tool(name, arguments)];
      opening the transport and the session over it with [initialize()];
      closing them. *)
  session_list_tools : Ext -> outcome (list server_tool) * Ext;
  session_call_tool : pystr -> pyval -> Ext -> outcome Result * Ext;
  session_open : transport -> Ext -> outcome unit * Ext;
  session_close : Ext -> outcome unit * Ext;
  (** Building the vendor's client object ([Anthropic()], [AsyncOpenAI()],
      [genai.Client()]). *)
  new_vendor_client : service -> Ext -> outcome unit * Ext;
  (** [self.anthropic.messages.create(model, messages, tools, max_tokens)],
      giving [response.content]. *)
  anthropic_messages_create :
    list message -> list tool -> Ext -> outcome (list content_block) * Ext;
  (** [self.openai.chat.completions.create(model, messages, tools,
      tool_choice)], giving the messages of [response.choices]. *)
  openai_chat_completions_create :
    list message -> list openai_tool -> Ext -> outcome (list openai_message) * Ext;
  (** [self.gemini.chats.create(model, config, history)] and
      [chat.send_message(query)]. *)
  Chat : Type;
  gemini_chats_create :
    list gemini_turn -> list function_declaration -> Ext -> outcome Chat * Ext;
  gemini_send_message : Chat -> pystr -> Ext -> outcome gemini_response * Ext;
  (** [input(prompt)], and [print(text)], which raises when the terminal
      cannot take the text ([UnicodeEncodeError], [BrokenPipeError]). *)
  terminal_input : Ext -> outcome pystr * Ext;
  terminal_print : pystr -> Ext -> outcome unit * Ext;
  (** [str(e)]. *)
  exn_str : exn -> pystr;
  (** [DatabaseChatAgent]: [self.client.chat.completions.create(model,
      messages)], giving [completion.choices[0].message.content]. *)
  agent_chat_completions_create : list message -> Ext -> outcome pystr * Ext
}.

Section Program.

Context {py : Interpreter} {out : Outside}.

(** *** Case conversion *)

Definition str_lower (s : pystr) : pystr :=
  if forallb is_ascii s then map ascii_lower s else uni_lower s.

Definition str_upper (s : pystr) : pystr :=
  if forallb is_ascii s then map ascii_upper s else uni_upper s.

(** *** [repr] *)

(** One character of [repr(s)] inside the quotes [quote]. *)
Definition repr_char (quote c : N) : pystr :=
  if (c =? quote) || (c =? BACKSLASH) then [BACKSLASH; c]
  else if c =? 9 then [BACKSLASH; chr "t"]
  else if c =? 10 then [BACKSLASH; chr "n"]
  else if c =? 13 then [BACKSLASH; chr "r"]
  else if (c <? 32) || (c =? 127) then BACKSLASH :: chr "x" :: hex_digits 2 c []
  else if c <? 127 then [c]
  else if uni_printable c then [c]
  else if c <=? 255 then BACKSLASH :: chr "x" :: hex_digits 2 c []
  else if c <=? 65535 then BACKSLASH :: chr "u" :: hex_digits 4 c []
  else BACKSLASH :: chr "U" :: hex_digits 8 c [].

(** The quote [repr] picks: a double quote only when the string has an
    apostrophe and no double quote. *)
Definition repr_quote (s : pystr) : N :=
  if existsb (N.eqb SQUOTE) s && negb (existsb (N.eqb DQUOTE) s) then DQUOTE else SQUOTE.

Definition repr_str (s : pystr) : pystr :=
  let q := repr_quote s in
  q :: flat_map (repr_char q) s ++ [q].

(** [repr(v)], which is also [str(v)] and [f"{v}"] for every value but a
    string. *)
Fixpoint py_repr (v : pyval) : pystr :=
  match v with
  | PNone => codes "None"
  | PBool true => codes "True"
  | PBool false => codes "False"
  | PInt z => repr_int z
  | PFloat lit => float_repr lit
  | PStr s => repr_str s
  | PList l => codes "[" ++ str_join (codes ", ") (map py_repr l) ++ codes "]"
  | PDict d =>
      codes "{"
      ++ str_join (codes ", ")
           (map (fun kv => repr_str (fst kv) ++ codes ": " ++ py_repr (snd kv)) d)
      ++ codes "}"
  end.

(** [repr] refuses an [int] of more digits than the interpreter
    converts, and with it every value that holds one: [repr_returns v]
    tells that [repr(v)] returns, and then [py_repr v] is what it
    returns; otherwise it raises [ValueError]. *)
Fixpoint repr_returns (v : pyval) : bool :=
  match v with
  | PInt z => bool_decide (length (repr_nat (Z.abs_N z)) <= int_max_str_digits)%nat
  | PList l => forallb repr_returns l
  | PDict d => forallb (fun kv => repr_returns (snd kv)) d
  | _ => true
  end.

(** *** The tool-call pattern

    [re.compile(r"\[Tool call: ([\w\-]+) with args (.+?)\]")], matched the
    way the backtracking engine matches it. *)

(** [\w] on a [str] pattern: alphanumeric or underscore. *)
Definition is_word (c : N) : bool :=
  if is_ascii c then ascii_alnum c || (c =? chr "_") else uni_alnum c.

(** The class [[\w\-]]. *)
Definition name_char (c : N) : bool := is_word c || (c =? chr "-").

(** The tail [.*?\]] of the lazy group once its first character is taken:
    the shortest run of characters other than a newline that a closing
    bracket follows.  Returns the run and the text after the bracket. *)
Fixpoint lazy_to_bracket (s : pystr) : option (pystr * pystr) :=
  match s with
  | [] => None
  | c :: r =>
      if c =? chr "]" then Some ([], r)
      else if c =? 10 then None
      else match lazy_to_bracket r with
           | Some (a, rest) => Some (c :: a, rest)
           | None => None
           end
  end.

(** A match of the whole pattern at the head of [s]: the two groups and the
    text after the match.  The greedy name group takes the longest run of
    name characters; a shorter one could only be followed by a name
    character, never by the space that must come next, so backtracking
    into it finds nothing.  The lazy group takes one character that is not
    a newline, whatever it is, and stops at the first closing bracket
    after it. *)
Definition match_here (s : pystr) : option ((pystr * pystr) * pystr) :=
  match strip_prefix (codes "[Tool call: ") s with
  | None => None
  | Some r1 =>
      let '(name, r2) := span name_char r1 in
      match name with
      | [] => None
      | _ :: _ =>
          match strip_prefix (codes " with args ") r2 with
          | None => None
          | Some [] => None
          | Some (c :: r3) =>
              if c =? 10 then None
              else match lazy_to_bracket r3 with
                   | Some (a, rest) => Some ((name, c :: a), rest)
                   | None => None
                   end
          end
      end
  end.

(** [pattern.findall(s)]: scan from the left; after a match go on where it
    ended, otherwise one character further.  A match is never empty, so
    [length s] steps reach the end. *)
Fixpoint findall_from (fuel : nat) (s : pystr) : list (pystr * pystr) :=
  match fuel with
  | O => []
  | S f =>
      match s with
      | [] => []
      | _ :: r =>
          match match_here s with
          | Some (groups, rest) => groups :: findall_from f rest
          | None => findall_from f r
          end
      end
  end.

Definition findall (s : pystr) : list (pystr * pystr) := findall_from (length s) s.

(** [str(v)], what an f-string puts for [{v}]: a string as it is, any
    other value by its [repr]. *)
Definition py_str (v : pyval) : pystr :=
  match v with
  | PStr s => s
  | _ => py_repr v
  end.

(** The marker every adapter writes:
    [f"[Tool call: {tool_name} with args {tool_args}]"]. *)
Definition tool_call_marker (tool_name : pystr) (tool_args : pyval) : pystr :=
  codes "[Tool call: " ++ tool_name ++ codes " with args " ++ py_str tool_args ++ codes "]".

(** Evaluating that f-string: it raises what [str(tool_args)] raises. *)
Definition write_marker (tool_name : pystr) (tool_args : pyval) : outcome pystr :=
  if repr_returns tool_args then Return (tool_call_marker tool_name tool_args)
  else Raise ValueError.

(** *** The world *)

Record world := {
  heap : list (list message);
  ext : Ext;
  trace : list event
}.

Definition M (A : Type) : Type := world -> outcome A * world.

Definition ret {A} (a : A) : M A := fun w => (Return a, w).
Definition raise {A} (e : exn) : M A := fun w => (Raise e, w).
Definition bind {A B} (c : M A) (k : A -> M B) : M B :=
  fun w =>
    match c w with
    | (Return a, w') => k a w'
    | (Raise e, w') => (Raise e, w')
    end.

Notation "x <- c ;; k" := (bind c (fun x => k))
  (at level 100, c at next level, right associativity).
Notation "c ;;; k" := (bind c (fun _ => k))
  (at level 100, right associativity).

(** [try: body / except Exception as e: handler(e)]. *)
Definition try_except {A} (body : M A) (handler : exn -> M A) : M A :=
  fun w =>
    match body w with
    | (Raise e, w') => if is_Exception e then handler e w' else (Raise e, w')
    | (Return a, w') => (Return a, w')
    end.

(** [try: body / finally: final]. *)
Definition try_finally {A} (body : M A) (final : M unit) : M A :=
  fun w =>
    match body w with
    | (r, w') =>
        match final w' with
        | (Return _, w'') => (r, w'')
        | (Raise e, w'') => (Raise e, w'')
        end
    end.

(** A call to the outside: it changes [ext] and leaves an event. *)
Definition external {A} (ev : event) (f : Ext -> outcome A * Ext) : M A :=
  fun w =>
    match f (ext w) with
    | (r, x) => (r, {| heap := heap w; ext := x; trace := trace w ++ [ev] |})
    end.

Definition lift {A} (r : outcome A) : M A := fun w => (r, w).

(** [print(text)]: the terminal takes the text, or the call raises. *)
Definition print (text : pystr) : M unit := external (EvPrint text) (terminal_print text).

(** **** Lists on the heap *)

(** [[]] or [list(xs)]: a new list object. *)
Definition new_list (xs : list message) : M loc :=
  fun w => (Return (length (heap w)),
            {| heap := heap w ++ [xs]; ext := ext w; trace := trace w |}).

Definition list_at (h : list (list message)) (p : loc) : list message :=
  default [] (h !! p).

Definition read_list (p : loc) : M (list message) :=
  fun w => (Return (list_at (heap w) p), w).

(** [p.extend(xs)]; [p.append(x)] is [list_extend p [x]]. *)
Definition list_extend (p : loc) (xs : list message) : M unit :=
  fun w => (Return tt,
            {| heap := <[p := list_at (heap w) p ++ xs]> (heap w);
               ext := ext w; trace := trace w |}).

Definition list_append (p : loc) (x : message) : M unit := list_extend p [x].

(** The elements of [previous_messages] when it is a list, nothing when it
    is [None]. *)
Definition read_optional (previous_messages : option loc) : M (list message) :=
  match previous_messages with
  | Some p => read_list p
  | None => ret []
  end.

(** *** The tool session *)

Definition list_tools : M (list server_tool) := external EvListTools session_list_tools.
Definition call_tool (name : pystr) (arguments : pyval) : M Result :=
  external (EvCallTool name arguments) (session_call_tool name arguments).

(** *** services/anthropic.py *)

(** What a block adds to [final_text]. *)
Definition anthropic_block_text (content : content_block) : outcome (list pystr) :=
  match content with
  | TextBlock text => Return [text]
  | ToolUseBlock name input =>
      match write_marker name (PDict input) with
      | Raise e => Raise e
      | Return marker => Return [marker]
      end
  | OtherBlock => Return []
  end.

(** The loop over [response.content], building [final_text]. *)
Fixpoint anthropic_final_text (response_content : list content_block) : outcome (list pystr) :=
  match response_content with
  | [] => Return []
  | content :: rest =>
      match anthropic_block_text content with
      | Raise e => Raise e
      | Return pieces =>
          match anthropic_final_text rest with
          | Raise e => Raise e
          | Return more => Return (pieces ++ more)
          end
      end
  end.

Definition AnthropicService_process_query
    (query : pystr) (available_tools : list tool) (previous_messages : option loc)
  : M (pystr * loc) :=
  messages <- new_list [] ;;
  previous <- read_optional previous_messages ;;
  (match previous with
   | [] => ret tt
   | _ :: _ => list_extend messages previous
   end) ;;;
  list_append messages (user_message query) ;;;
  sent <- read_list messages ;;
  response_content <-
    external (EvVendor (codes "anthropic")) (anthropic_messages_create sent available_tools) ;;
  final_text <- lift (anthropic_final_text response_content) ;;
  ret (str_join [10] final_text, messages).

(** *** services/openai.py *)

(** The loop over [response_message.tool_calls]: the first
    [json.loads] or f-string that raises ends it. *)
Fixpoint openai_markers (calls : list tool_call) : outcome (list pystr) :=
  match calls with
  | [] => Return []
  | tc :: rest =>
      match json_loads adapter_recursion_room (tc_arguments tc) with
      | Raise e => Raise e
      | Return function_args =>
          match write_marker (tc_name tc) function_args with
          | Raise e => Raise e
          | Return marker =>
              match openai_markers rest with
              | Raise e => Raise e
              | Return ms => Return (marker :: ms)
              end
          end
      end
  end.

(** The comprehension that builds [openai_tools]. *)
Definition openai_tools_of (available_tools : list tool) : list openai_tool :=
  map (fun t => {| fn_name := tool_name t;
                   fn_description := tool_description t;
                   fn_parameters := input_schema t |}) available_tools.

Definition OpenAIService_process_query
    (query : pystr) (available_tools : list tool) (previous_messages : option loc)
  : M (pystr * loc) :=
  let openai_tools := openai_tools_of available_tools in
  messages <- new_list [] ;;
  previous <- read_optional previous_messages ;;
  (match previous with
   | [] => ret tt
   | _ :: _ => list_extend messages previous
   end) ;;;
  list_append messages (user_message query) ;;;
  sent <- read_list messages ;;
  choices <-
    external (EvVendor (codes "openai")) (openai_chat_completions_create sent openai_tools) ;;
  match choices with
  | [] => raise IndexError
  | response_message :: _ =>
      match om_tool_calls response_message with
      | Some (tc :: tcs) =>
          list_append messages
            {| role := codes "assistant";
               content := match om_content response_message with
                          | Some text => PStr text
                          | None => PNone
                          end;
               tool_calls := Some (tc :: tcs) |} ;;;
          markers <- lift (openai_markers (tc :: tcs)) ;;
          ret (str_join [10] (default [] (om_content response_message) :: markers), messages)
      | _ =>
          match om_content response_message with
          | Some text => ret (str_join [10] [text], messages)
          | None => raise TypeError
          end
      end
  end.

(** *** services/gemini.py *)

(** The two assignments to [prop_type]. *)
Definition gemini_prop_type (type_name : pystr) : pystr :=
  let prop_type := str_upper type_name in
  default (codes "STRING") (dict_get (str_lower prop_type) type_mapping).

(** The body of the loop over [schema["properties"].items()].  A
    [prop_details] without [get], or a ["type"] without [upper], raises. *)
Definition convert_property (prop_details : pyval) : outcome property_schema :=
  match prop_details with
  | PDict details =>
      match default (PStr (codes "STRING")) (dict_get (codes "type") details) with
      | PStr type_name =>
          Return {| ps_type := gemini_prop_type type_name;
                    ps_description := dict_get (codes "description") details |}
      | _ => Raise AttributeError
      end
  | _ => Raise AttributeError
  end.

Fixpoint convert_properties (items : pydict) (properties : list (pystr * property_schema))
  : outcome (list (pystr * property_schema)) :=
  match items with
  | [] => Return properties
  | (prop_name, prop_details) :: rest =>
      match convert_property prop_details with
      | Raise e => Raise e
      | Return property => convert_properties rest (dict_set prop_name property properties)
      end
  end.

(** The body of the loop over [available_tools]. *)
Definition convert_tool (t : tool) : outcome function_declaration :=
  match input_schema t with
  | [] =>
      Return {| fd_name := tool_name t; fd_description := tool_description t;
                fd_properties := []; fd_required := PList [] |}
  | schema =>
      match (match dict_get (codes "properties") schema with
             | None => Return []
             | Some (PDict items) => convert_properties items []
             | Some _ => Raise AttributeError
             end) with
      | Raise e => Raise e
      | Return properties =>
          Return {| fd_name := tool_name t; fd_description := tool_description t;
                    fd_properties := properties;
                    fd_required := default (PList []) (dict_get (codes "required") schema) |}
      end
  end.

Fixpoint _convert_tools_to_gemini_format (available_tools : list tool)
  : outcome (list function_declaration) :=
  match available_tools with
  | [] => Return []
  | t :: rest =>
      match convert_tool t with
      | Raise e => Raise e
      | Return fd =>
          match _convert_tools_to_gemini_format rest with
          | Raise e => Raise e
          | Return fds => Return (fd :: fds)
          end
      end
  end.

Definition _prepare_gemini_chat_history (previous_messages : list message) : list gemini_turn :=
  flat_map (fun m =>
              match content m with
              | PStr text =>
                  if bool_decide (role m = codes "user")
                  then [ {| gt_role := codes "user"; gt_text := text |} ]
                  else if bool_decide (role m = codes "assistant")
                  then [ {| gt_role := codes "model"; gt_text := text |} ]
                  else []
              | _ => []
              end) previous_messages.

(** A mapping is copied item by item; anything else goes through [str] and
    [json.loads], and whatever that raises leaves the empty mapping.  The
    one other value [args] takes is [None], whose [str] is [None]. *)
Definition _parse_gemini_function_args (function_call : gemini_function_call) : pyval :=
  match fc_args function_call with
  | Some items => PDict (dict_of_pairs items)
  | None =>
      match json_loads adapter_recursion_room (codes "None") with
      | Return tool_args => tool_args
      | Raise _ => PDict []
      end
  end.

(** The two tests of the loop over the parts. *)
Definition gemini_part_text (part : gemini_part) : outcome (list pystr) :=
  let text :=
    match part_text part with
    | Some (c :: text) => [c :: text]
    | _ => []
    end in
  match part_function_call part with
  | Some function_call =>
      match write_marker (default (codes "None") (fc_name function_call))
              (_parse_gemini_function_args function_call) with
      | Raise e => Raise e
      | Return marker => Return (text ++ [marker])
      end
  | None => Return text
  end.

(** The loop over [candidate.content.parts]. *)
Fixpoint gemini_parts_text (parts : list gemini_part) : outcome (list pystr) :=
  match parts with
  | [] => Return []
  | part :: rest =>
      match gemini_part_text part with
      | Raise e => Raise e
      | Return pieces =>
          match gemini_parts_text rest with
          | Raise e => Raise e
          | Return more => Return (pieces ++ more)
          end
      end
  end.

Definition gemini_final_text (response : gemini_response) : outcome (list pystr) :=
  match candidates response with
  | Some (candidate :: _) =>
      match cand_parts candidate with
      | None => Return []
      | Some None => Raise TypeError
      | Some (Some parts) => gemini_parts_text parts
      end
  | _ => Return []
  end.

Definition GeminiService_process_query
    (query : pystr) (available_tools : list tool) (previous_messages : option loc)
  : M (pystr * loc) :=
  gemini_tools <- lift (_convert_tools_to_gemini_format available_tools) ;;
  previous <- read_optional previous_messages ;;
  chat <- external (EvVendor (codes "gemini"))
            (gemini_chats_create (_prepare_gemini_chat_history previous) gemini_tools) ;;
  previous <- read_optional previous_messages ;;
  messages <- new_list previous ;;
  list_append messages (user_message query) ;;;
  response <- external (EvVendor (codes "gemini")) (gemini_send_message chat query) ;;
  final_text <- lift (gemini_final_text response) ;;
  ret (str_join [10] final_text, messages).

(** *** client.py *)

Definition MCPClient_init (llm_provider : pystr) : M MCPClient :=
  if bool_decide (llm_provider = codes "anthropic") then
    external (EvNewClient llm_provider) (new_vendor_client AnthropicService) ;;;
    ret {| llm_provider := llm_provider; llm_service := AnthropicService; session := false |}
  else if bool_decide (llm_provider = codes "openai") then
    external (EvNewClient llm_provider) (new_vendor_client OpenAIService) ;;;
    ret {| llm_provider := llm_provider; llm_service := OpenAIService; session := false |}
  else if bool_decide (llm_provider = codes "gemini") then
    external (EvNewClient llm_provider) (new_vendor_client GeminiService) ;;;
    ret {| llm_provider := llm_provider; llm_service := GeminiService; session := false |}
  else raise ValueError.

Definition with_session (self : MCPClient) : MCPClient :=
  {| llm_provider := llm_provider self; llm_service := llm_service self; session := true |}.

Definition connect_to_sse_server (self : MCPClient) (server_url : pystr) : M MCPClient :=
  external (EvOpenSession (SSE server_url)) (session_open (SSE server_url)) ;;;
  list_tools ;;;
  ret (with_session self).

(** [needle in hay]. *)
Fixpoint contains (needle hay : pystr) : bool :=
  startswith hay needle
  || match hay with
     | [] => false
     | _ :: rest => contains needle rest
     end.

Definition connect_to_stdio_server (self : MCPClient) (server_script_path : pystr)
  : M MCPClient :=
  command <-
    (if startswith server_script_path (codes "@") || negb (contains (codes "/") server_script_path)
     then ret (codes "npx")
     else
       let is_python := endswith server_script_path (codes ".py") in
       let is_javascript := endswith server_script_path (codes ".js") in
       if negb (is_python || is_javascript) then raise ValueError
       else ret (if is_python then codes "python" else codes "node")) ;;
  external (EvOpenSession (Stdio command [server_script_path]))
    (session_open (Stdio command [server_script_path])) ;;;
  list_tools ;;;
  ret (with_session self).

(** [re.compile(r'^https?://').match(..)] decides the transport. *)
Definition connect_to_server (self : MCPClient) (server_path_or_url : pystr) : M MCPClient :=
  if startswith server_path_or_url (codes "http://")
     || startswith server_path_or_url (codes "https://")
  then connect_to_sse_server self server_path_or_url
  else connect_to_stdio_server self server_path_or_url.

Definition llm_process_query (s : service)
  : pystr -> list tool -> option loc -> M (pystr * loc) :=
  match s with
  | AnthropicService => AnthropicService_process_query
  | OpenAIService => OpenAIService_process_query
  | GeminiService => GeminiService_process_query
  end.

(** [json.loads] of [tool_args_str] with every apostrophe replaced by a
    double quote, under [try: .. except Exception: tool_args = {}]. *)
Definition parse_tool_args (tool_args_str : pystr) : M pyval :=
  match json_loads client_recursion_room (replace_char SQUOTE DQUOTE tool_args_str) with
  | Return tool_args => ret tool_args
  | Raise e => if is_Exception e then ret (PDict []) else raise e
  end.

(** The loop over [matches]: the mediator. *)
Fixpoint mediate (matches : list (pystr * pystr)) (response_text : pystr) : M pystr :=
  match matches with
  | [] => ret response_text
  | (tool_name, tool_args_str) :: rest =>
      tool_args <- parse_tool_args tool_args_str ;;
      result <- call_tool tool_name tool_args ;;
      mediate rest (response_text ++ 10 :: codes "[tool results: " ++ format_result result ++ codes "]")
  end.

(** The comprehension that builds [available_tools]: an empty schema counts
    as none and gives [{}], any other is copied. *)
Definition available_tools_of (response : list server_tool) : list tool :=
  map (fun t => {| tool_name := st_name t;
                   tool_description := st_description t;
                   input_schema := match st_inputSchema t with
                                   | [] => []
                                   | schema => schema
                                   end |}) response.

Definition MCPClient_process_query
    (self : MCPClient) (query : pystr) (previous_messages : option loc)
  : M (pystr * loc) :=
  if negb (session self) then raise RuntimeError
  else
    response <- list_tools ;;
    let available_tools := available_tools_of response in
    r <- llm_process_query (llm_service self) query available_tools previous_messages ;;
    let '(response_text, messages) := r in
    response_text <- mediate (findall response_text) response_text ;;
    ret (response_text, messages).

Definition cleanup : M unit := external EvCleanup session_close.

(** *** interfaces/terminal.py *)

Definition is_space (c : N) : bool :=
  if is_ascii c then (c =? chr " ") || ((9 <=? c) && (c <=? 13)) || ((28 <=? c) && (c <=? 31))
  else uni_space c.

Fixpoint lstrip (s : pystr) : pystr :=
  match s with
  | c :: r => if is_space c then lstrip r else s
  | [] => []
  end.

Definition str_strip (s : pystr) : pystr := rev (lstrip (rev (lstrip s))).

(** The [try] block of the loop, up to the [print] that ends two of its
    branches: either branch assigns [previous_messages] first. *)
Definition chat_turn_body
    (process_query_fn : pystr -> option loc -> M (pystr * loc)) (previous_messages : loc)
  : M turn_step :=
  line <- external EvInput terminal_input ;;
  let query := str_strip line in
  if bool_decide (str_lower query = codes "quit") then ret Quit
  else if bool_decide (str_lower query = codes "refresh") then
    fresh <- new_list [] ;;
    ret (Rebound fresh (codes "Conversation history cleared."))
  else
    r <- process_query_fn query (Some previous_messages) ;;
    let '(response, messages) := r in
    ret (Rebound messages (10 :: codes "Response: " ++ response)).

(** [logger.exception(..)] and [print("Error:", str(e))]. *)
Definition report_error (e : exn) : M unit :=
  external (EvPrintError e) (terminal_print (codes "Error: " ++ exn_str e)).

(** The handler, reached while [previous_messages] names the list
    [previous_messages]: the loop goes on with that list. *)
Definition chat_turn_handler (previous_messages : loc) (e : exn) : M loop_control :=
  report_error e ;;; ret (Continue previous_messages).

(** One pass through the body of [while True].  An [Exception] raised
    before the assignment reaches the handler with [previous_messages] as
    it was; one raised by the [print] after the assignment reaches it with
    [previous_messages] naming the new list already. *)
Definition chat_turn
    (process_query_fn : pystr -> option loc -> M (pystr * loc)) (previous_messages : loc)
  : M loop_control :=
  fun w =>
    match chat_turn_body process_query_fn previous_messages w with
    | (Return Quit, w1) => (Return Break, w1)
    | (Return (Rebound messages text), w1) =>
        try_except (print text ;;; ret (Continue messages)) (chat_turn_handler messages) w1
    | (Raise e, w1) =>
        if is_Exception e then chat_turn_handler previous_messages e w1 else (Raise e, w1)
    end.

(** The loop, for at most [turns] passes. *)
Fixpoint chat_turns (turns : nat)
    (process_query_fn : pystr -> option loc -> M (pystr * loc)) (previous_messages : loc)
  : M unit :=
  match turns with
  | O => ret tt
  | S n =>
      control <- chat_turn process_query_fn previous_messages ;;
      match control with
      | Break => ret tt
      | Continue messages => chat_turns n process_query_fn messages
      end
  end.

Definition chat_loop (turns : nat) (client : MCPClient)
    (process_query_fn : pystr -> option loc -> M (pystr * loc)) : M unit :=
  previous_messages <- new_list [] ;;
  print (codes "Type your queries or 'quit' to exit.") ;;;
  print (codes "Type 'refresh' to clear conversation history.") ;;;
  print (codes "Using " ++ str_upper (llm_provider client) ++ codes " as the LLM provider.") ;;;
  chat_turns turns process_query_fn previous_messages.

(** *** client.py, [main] *)

Definition main (turns : nat) (argv : list pystr) : M unit :=
  match argv with
  | _ :: target :: rest =>
      let llm_provider :=
        match rest with
        | given :: _ =>
            if bool_decide (str_lower given ∈ [codes "anthropic"; codes "openai"; codes "gemini"])
            then str_lower given
            else codes "anthropic"
        | [] => codes "anthropic"
        end in
      client <- MCPClient_init llm_provider ;;
      try_finally
        (client <- connect_to_server client target ;;
         chat_loop turns client (MCPClient_process_query client))
        (cleanup ;;;
         print (10 :: codes "MCP Client Closed!"))
  | _ =>
      print (codes "Usage: python client.py <server_script_path_or_url> [llm_provider]") ;;;
      print (codes "Examples:") ;;;
      print (codes "  - stdio server (npm): python client.py @playwright/mcp@latest") ;;;
      print (codes "  - stdio server (python): python client.py ./weather.py") ;;;
      print (codes "  - SSE server: python client.py http://localhost:3000/mcp") ;;;
      print (codes "  - Specify LLM provider: python client.py ./weather.py openai") ;;;
      print (codes "  - Use Gemini: python client.py ./weather.py gemini") ;;;
      raise SystemExit
  end.

(** *** 03/client_sse_chat_enhanced.py *)

Definition database_keywords : list pystr :=
  [ codes "select"; codes "find"; codes "search"; codes "get"; codes "show"; codes "list";
    codes "display"; codes "view"; codes "retrieve";
    codes "table"; codes "tables"; codes "create table"; codes "drop table";
    codes "alter table"; codes "describe table";
    codes "insert"; codes "add"; codes "update"; codes "modify"; codes "delete";
    codes "remove"; codes "change";
    codes "database"; codes "db"; codes "sql"; codes "query"; codes "column";
    codes "columns"; codes "row"; codes "rows"; codes "record"; codes "records";
    codes "schema"; codes "structure"; codes "add column"; codes "drop column";
    codes "rename column" ].

Definition detect_database_intent (message : pystr) : bool :=
  let message_lower := str_lower message in
  existsb (fun keyword => contains keyword message_lower) database_keywords.

(** [l[-n:]] for a positive [n]. *)
Definition last_n {A : Type} (n : nat) (l : list A) : list A := drop (length l - n) l.

(** The default of [system_prompt]. *)
Definition default_system_prompt : pystr :=
  codes "You are a helpful database assistant with read-only access. You can help with both general conversation and database operations. Be friendly and conversational while being informative. IMPORTANT: You have READ-ONLY database access. When the user asks about information or wants to explore data, you must directly run SELECT queries on the database as follows: First, list existing tables to understand what data is available. Then, examine table structures to understand the schema. Finally, execute appropriate SELECT queries to retrieve and analyze the requested information. You CANNOT store new information, create tables, or modify existing data - only retrieve and analyze existing data. If users ask you to store or remember information, explain that you currently have read-only access and can only help them explore existing data.".

Definition llm_chat (self : DatabaseChatAgent) (message : pystr) (system_prompt : option pystr)
  : M pystr :=
  let system_prompt := default default_system_prompt system_prompt in
  let messages :=
    {| role := codes "system"; content := PStr system_prompt; tool_calls := None |}
    :: last_n 6 (conversation_history self) ++ [user_message message] in
  external (EvVendor (codes "openai")) (agent_chat_completions_create messages).

(** *** The vocabulary of the properties *)

(** What [previous_messages] holds when the call starts, and that it is a
    list of this heap. *)
Definition prior_messages (w : world) (previous_messages : option loc) : list message :=
  match previous_messages with
  | Some p => list_at (heap w) p
  | None => []
  end.

Definition valid_ref (w : world) (previous_messages : option loc) : Prop :=
  match previous_messages with
  | Some p => (p < length (heap w))%nat
  | None => True
  end.

(** What an Anthropic block adds to the text when its marker can be
    written, and whether it can. *)
Definition anthropic_pieces (response_content : list content_block) : list pystr :=
  flat_map (fun content =>
              match content with
              | TextBlock text => [text]
              | ToolUseBlock name input => [tool_call_marker name (PDict input)]
              | OtherBlock => []
              end) response_content.

Definition writable_block (content : content_block) : bool :=
  match content with
  | ToolUseBlock _ input => repr_returns (PDict input)
  | _ => true
  end.

(** The same for the parts of a Gemini reply. *)
Definition gemini_pieces (parts : list gemini_part) : list pystr :=
  flat_map (fun part =>
              (match part_text part with
               | Some (c :: text) => [c :: text]
               | _ => []
               end)
              ++
              (match part_function_call part with
               | Some function_call =>
                   [tool_call_marker (default (codes "None") (fc_name function_call))
                      (_parse_gemini_function_args function_call)]
               | None => []
               end)) parts.

Definition writable_part (part : gemini_part) : bool :=
  match part_function_call part with
  | Some function_call => repr_returns (_parse_gemini_function_args function_call)
  | None => true
  end.

(** A tool call of an OpenAI reply whose arguments the adapter can decode
    and write again. *)
Definition decodable (tc : tool_call) : Prop :=
  exists function_args,
    json_loads adapter_recursion_room (tc_arguments tc) = Return function_args
    /\ repr_returns function_args = true.

(** Whether the first choice of an OpenAI reply carries tool calls. *)
Definition carries_tool_calls (choices : list openai_message) : bool :=
  match choices with
  | response_message :: _ =>
      match om_tool_calls response_message with
      | Some (_ :: _) => true
      | _ => false
      end
  | [] => false
  end.

(** The tool calls among the events of a trace. *)
Definition tool_calls_in (t : list event) : list (pystr * pyval) :=
  flat_map (fun ev => match ev with
                      | EvCallTool name arguments => [(name, arguments)]
                      | _ => []
                      end) t.

(** Whatever the decoder raises is an [Exception]. *)
Definition catchable {A : Type} (r : scanned A) : Prop :=
  match r with
  | Failed e => is_Exception e = true
  | Scanned _ _ => True
  end.

(** The arguments the mediator reads off a marker: the decoded value, or
    the empty mapping when decoding raises. *)
Definition tool_args_of (tool_args_str : pystr) : pyval :=
  match json_loads client_recursion_room (replace_char SQUOTE DQUOTE tool_args_str) with
  | Return tool_args => tool_args
  | Raise _ => PDict []
  end.

(** The call a marker leads to, and the text a result adds. *)
Definition invocation_of (m : pystr * pystr) : pystr * pyval :=
  (fst m, tool_args_of (snd m)).

Definition call_of (m : pystr * pystr) : event :=
  EvCallTool (fst m) (tool_args_of (snd m)).

Definition result_segment (result : Result) : pystr :=
  10 :: codes "[tool results: " ++ format_result result ++ codes "]".

Definition segments (results : list Result) : pystr :=
  concat (map result_segment results).

(** What the tool server returns to the calls of the matches, made one
    after the other from the state [x], up to the first that raises. *)
Fixpoint results_of (matches : list (pystr * pystr)) (x : Ext) : list Result :=
  match matches with
  | [] => []
  | m :: rest =>
      match session_call_tool (fst m) (tool_args_of (snd m)) x with
      | (Return result, x') => result :: results_of rest x'
      | (Raise _, _) => []
      end
  end.

(** The text of a marker with the groups [name] and [args]. *)
Definition marker_text (name args : pystr) : pystr :=
  codes "[Tool call: " ++ name ++ codes " with args " ++ args ++ codes "]".


(** The groups of a match: a name of one or more name characters, and
    arguments of one character that is not a newline followed by
    characters that are neither a newline nor a closing bracket. *)
Definition well_shaped (groups : pystr * pystr) : Prop :=
  fst groups <> []
  /\ forallb name_char (fst groups) = true
  /\ exists c rest,
       snd groups = c :: rest /\ c <> 10
       /\ forallb (fun c => negb (c =? chr "]") && negb (c =? 10)) rest = true.

(** A marker begins the text: the literal parts of the pattern around two
    groups of that shape. *)
Definition marker_at_head (s : pystr) : Prop :=
  exists name args rest, well_shaped (name, args) /\ s = marker_text name args ++ rest.

(** A marker lies somewhere in the text. *)
Definition has_marker (s : pystr) : Prop :=
  exists before after, s = before ++ after /\ marker_at_head after.

(** The matches of the pattern in a text, as [findall] is documented to
    give them: scanning from the left, a marker that begins at the
    position is the next match and the scan goes on behind it; where none
    begins, the scan goes on one character further. *)
Inductive matches_of : pystr -> list (pystr * pystr) -> Prop :=
| matches_end : matches_of [] []
| matches_skip (c : N) (s : pystr) (ms : list (pystr * pystr)) :
    ~ marker_at_head (c :: s) -> matches_of s ms -> matches_of (c :: s) ms
| matches_here (name args rest : pystr) (ms : list (pystr * pystr)) :
    well_shaped (name, args) -> matches_of rest ms ->
    matches_of (marker_text name args ++ rest) ((name, args) :: ms).

Definition digits_ok (ds : pystr) (n : N) : Prop :=
  forallb is_digit ds = true
  /\ digits_value ds = n
  /\ match ds with
     | [] => False
     | d :: rest => if n =? 0 then rest = [] else d <> chr "0"
     end.

(** Text that ends a value inside an object: a comma or a closing brace. *)
Definition delimited (rest : pystr) : Prop :=
  match rest with
  | c :: _ => c = chr "," \/ c = chr "}"
  | [] => False
  end.

(** The characters of a string that come back from a marker.  They are
    neither of the two quotes, which the quote normalization confuses,
    nor the closing bracket, which ends the lazy group of the pattern; and
    [repr] writes them in a way JSON reads: as they are (printable
    characters), or as one of [\\], [\t], [\n], [\r] and [\uXXXX].  What is
    left out besides the three characters is what [repr] writes as [\xXX]
    or [\UXXXXXXXX], which is no JSON: the other control characters and
    the unprintable characters from 128 to 255 and above 65535. *)
Definition safe_char (c : N) : bool :=
  negb (c =? SQUOTE) && negb (c =? DQUOTE) && negb (c =? chr "]")
  && ((c =? 9) || (c =? 10) || (c =? 13)
      || ((32 <=? c) && (c <? 127))
      || ((127 <? c) && uni_printable c)
      || ((255 <? c) && (c <=? 65535))).

(** [repr] writes the character as [\uXXXX]. *)
Definition u_escaped (c : N) : bool :=
  (255 <? c) && (c <=? 65535) && negb (uni_printable c).

(** A string of such characters in which no escaped high surrogate stands
    right before an escaped low surrogate: JSON reads the two escapes as
    one character. *)
Fixpoint safe_text (s : pystr) : bool :=
  match s with
  | [] => true
  | c :: r =>
      safe_char c
      && negb (u_escaped c && is_high_surrogate c
               && match r with
                  | c' :: _ => u_escaped c' && is_low_surrogate c'
                  | [] => false
                  end)
      && safe_text r
  end.

(** A string of safe characters, or an integer the interpreter converts. *)
Definition safe_value (v : pyval) : bool :=
  match v with
  | PStr s => safe_text s
  | PInt z => bool_decide (length (repr_nat (Z.abs_N z)) <= int_max_str_digits)%nat
  | _ => false
  end.

Definition safe_item (kv : pystr * pyval) : bool := safe_text (fst kv) && safe_value (snd kv).

(** A flat mapping with safe keys and values; its keys are distinct, as
    the keys of a dictionary are. *)
Definition plain_mapping (d : pydict) : Prop :=
  NoDup (map fst d) /\ forallb safe_item d = true.

(** The characters of a number with a fraction or an exponent. *)
Definition float_char (c : N) : bool :=
  is_digit c || (c =? chr "-") || (c =? chr "+") || (c =? chr ".")
  || (c =? chr "e") || (c =? chr "E").

(** The text is a JSON number with a fraction or an exponent, as the
    [repr] of a finite float is and [inf] and [nan] are not: the scanner
    of numbers reads all of it, as a float. *)
Definition json_float (text : pystr) : bool :=
  forallb float_char text
  && match match_number text with
     | Scanned (PFloat lit) [] => bool_decide (lit = text)
     | _ => false
     end.

(** The values of a flat mapping that come back from a marker: strings
    and integers as above, and finite floats. *)
Definition flat_value (v : pyval) : bool :=
  match v with
  | PFloat lit => json_float (float_repr lit)
  | _ => safe_value v
  end.

Definition flat_item (kv : pystr * pyval) : bool := safe_text (fst kv) && flat_value (snd kv).

Definition flat_mapping (d : pydict) : Prop :=
  NoDup (map fst d) /\ forallb flat_item d = true.

(** A float comes back as the literal [repr] writes for it, which denotes
    the same float; every other value comes back as it is. *)
Definition read_back (v : pyval) : pyval :=
  match v with
  | PFloat lit => PFloat (float_repr lit)
  | _ => v
  end.

Definition read_back_mapping (d : pydict) : pydict :=
  map (fun kv => (fst kv, read_back (snd kv))) d.

(** What [repr] writes between the apostrophes of a string. *)
Definition escaped (s : pystr) : pystr := flat_map (repr_char SQUOTE) s.

(** The JSON text of such a mapping, spaced as [repr] spaces it. *)
Definition json_string (s : pystr) : pystr := DQUOTE :: escaped s ++ [DQUOTE].

Definition json_value (v : pyval) : pystr :=
  match v with
  | PStr s => json_string s
  | PInt z => repr_int z
  | PFloat lit => float_repr lit
  | _ => []
  end.

Definition json_member (kv : pystr * pyval) : pystr :=
  json_string (fst kv) ++ codes ": " ++ json_value (snd kv).

Definition json_object (d : pydict) : pystr :=
  codes "{" ++ str_join (codes ", ") (map json_member d) ++ codes "}".

(** The characters that the pattern's lazy group runs over and the quote
    normalization keeps. *)
Definition plain_char (c : N) : bool :=
  negb (c =? chr "]") && negb (c =? 10) && negb (c =? SQUOTE).

(** What [repr] writes for an item, and what the normalization makes of
    it. *)
Definition repr_item (kv : pystr * pyval) : pystr :=
  repr_str (fst kv) ++ codes ": " ++ py_repr (snd kv).

(** *** More vocabulary: the session, the loop and the adapters' pieces *)

(** A target that is neither a URL nor a script path the client knows how
    to start: no [http://] or [https://] in front, a slash in it, no [@] in
    front, and neither [.py] nor [.js] at the end. *)
Definition unsupported_target (target : pystr) : bool :=
  negb (startswith target (codes "http://") || startswith target (codes "https://"))
  && negb (startswith target (codes "@") || negb (contains (codes "/") target))
  && negb (endswith target (codes ".py") || endswith target (codes ".js")).

(** A computation that adds events to the trace and removes none. *)
Definition grows {A : Type} (c : M A) : Prop :=
  forall w r w', c w = (r, w') -> exists events, trace w' = trace w ++ events.

(** A computation that adds to the trace only events of one kind. *)
Definition adds {A : Type} (kind : event -> Prop) (c : M A) : Prop :=
  forall w r w', c w = (r, w') ->
    exists events, trace w' = trace w ++ events /\ Forall kind events.

(** The kinds of events: all but the tool calls; the prints. *)
Definition no_tool_call (ev : event) : Prop :=
  match ev with
  | EvCallTool _ _ => False
  | _ => True
  end.

Definition printed (ev : event) : Prop :=
  match ev with
  | EvPrint _ => True
  | _ => False
  end.

(** The line is [word] in some letter case, with white space around
    it. *)
Definition typed (word line : pystr) : Prop :=
  exists before q after,
    line = before ++ q ++ after
    /\ forallb is_space before = true /\ forallb is_space after = true
    /\ forallb is_ascii q = true /\ map ascii_lower q = word.

(** Text without an opening bracket: no marker begins in it. *)
Definition quiet (text : pystr) : bool := forallb (fun c => negb (c =? chr "[")) text.

(** The pieces an adapter joins with newlines, and the calls the client
    makes for them: a piece without an opening bracket asks for nothing,
    the marker of a plain mapping under a proper name asks for the tool of
    that name with that mapping. *)
Inductive renders : list pystr -> list (pystr * pyval) -> Prop :=
| renders_nil : renders [] []
| renders_text (text : pystr) (pieces : list pystr) (calls : list (pystr * pyval)) :
    quiet text = true -> renders pieces calls -> renders (text :: pieces) calls
| renders_marker (name : pystr) (arguments : pydict)
      (pieces : list pystr) (calls : list (pystr * pyval)) :
    name <> [] -> forallb name_char name = true -> plain_mapping arguments ->
    renders pieces calls ->
    renders (tool_call_marker name (PDict arguments) :: pieces)
      ((name, PDict arguments) :: calls).

(** An Anthropic block the client reads as the model meant it: text
    without an opening bracket, or the use of a properly named tool with a
    plain mapping. *)
Definition plain_block (block : content_block) : Prop :=
  match block with
  | TextBlock text => quiet text = true
  | ToolUseBlock name input =>
      name <> [] /\ forallb name_char name = true /\ plain_mapping input
  | OtherBlock => True
  end.

(** The tool uses of a reply, in the order of the blocks. *)
Definition tool_uses (response_content : list content_block) : list (pystr * pyval) :=
  flat_map (fun block => match block with
                         | ToolUseBlock name input => [(name, PDict input)]
                         | _ => []
                         end) response_content.

(** What a tool call of an OpenAI reply asks for: the function's name and
    its arguments, decoded. *)
Definition requested (tc : tool_call) : pystr * pyval :=
  (tc_name tc,
   match json_loads adapter_recursion_room (tc_arguments tc) with
   | Return function_args => function_args
   | Raise _ => PNone
   end).

(** A tool call the client reads as the model meant it: a proper name,
    and arguments that decode to a plain mapping. *)
Definition plain_call (tc : tool_call) : Prop :=
  tc_name tc <> [] /\ forallb name_char (tc_name tc) = true
  /\ exists d, json_loads adapter_recursion_room (tc_arguments tc) = Return (PDict d)
               /\ plain_mapping d.

(** The parts of the first candidate of a Gemini reply. *)
Definition reply_parts (response : gemini_response) : list gemini_part :=
  match candidates response with
  | Some (candidate :: _) =>
      match cand_parts candidate with
      | Some (Some parts) => parts
      | _ => []
      end
  | _ => []
  end.

(** The function calls of the parts, in their order, under the name and
    with the arguments the adapter writes for them. *)
Definition function_calls (parts : list gemini_part) : list (pystr * pyval) :=
  flat_map (fun part =>
              match part_function_call part with
              | Some function_call =>
                  [(default (codes "None") (fc_name function_call),
                    _parse_gemini_function_args function_call)]
              | None => []
              end) parts.

(** A part the client reads as the model meant it. *)
Definition plain_part (part : gemini_part) : Prop :=
  quiet (default [] (part_text part)) = true
  /\ match part_function_call part with
     | Some function_call =>
         default (codes "None") (fc_name function_call) <> []
         /\ forallb name_char (default (codes "None") (fc_name function_call)) = true
         /\ plain_mapping (default [] (fc_args function_call))
     | None => True
     end.

(** A property the Gemini projector can read: a mapping whose ["type"],
    when it has one, is a string. *)
Definition readable_property (prop_details : pyval) : Prop :=
  match prop_details with
  | PDict details =>
      match dict_get (codes "type") details with
      | Some (PStr _) | None => True
      | Some _ => False
      end
  | _ => False
  end.

(** A schema the projector can read: its ["properties"], when it has
    them, are a mapping of readable properties. *)
Definition readable_schema (schema : pydict) : Prop :=
  match dict_get (codes "properties") schema with
  | None => True
  | Some (PDict items) => Forall (fun item => readable_property (snd item)) items
  | Some _ => False
  end.

End Program.

Notation "x <- c ;; k" := (bind c (fun x => k))
  (at level 100, c at next level, right associativity).
Notation "c ;;; k" := (bind c (fun _ => k))
  (at level 100, right associativity).

(** ** The rest of the database chat agent

    [03/client_sse_chat_enhanced.py]: the tool round of
    [handle_database_operation] and the loop of [main]. *)

(** What the agent's own session rests on, beyond [Outside]. *)
Class AgentOutside {out : Outside} : Type := {
  (** Entering [async with sse_client(url)] and [async with
      ClientSession(..)], one inside the other. *)
  agent_session_enter : pystr -> Ext -> outcome unit * Ext;
  (** Leaving both, with the exception that is on its way out, if there
      is one; the answer tells whether they swallow it. *)
  agent_session_exit : option exn -> Ext -> outcome bool * Ext;
  (** [session.initialize()], and the name of the server for the log. *)
  session_initialize : Ext -> outcome unit * Ext;
  (** [session.call_tool(tool, arguments=arguments)], whatever values the
      model chose for the two. *)
  agent_call_tool : pyval -> pyval -> Ext -> outcome Result * Ext;
  (** [result.content[0].text]. *)
  first_text : Result -> outcome pystr;
  (** How many nested containers [json.loads] may enter where the agent
      calls it. *)
  agent_recursion_room : nat;
  (** [OpenAI()], in the constructor of the agent. *)
  new_openai_client : Ext -> outcome unit * Ext
}.

Section Agent.

Context {py : Interpreter} {out : Outside} {agent : AgentOutside}.

Definition KeyboardInterrupt : exn := BaseOnly 0.

(** [isinstance(e, KeyboardInterrupt)]. *)
Definition is_KeyboardInterrupt (e : exn) : bool :=
  match e with
  | BaseOnly 0 => true
  | _ => false
  end.

(** A call to the outside that leaves no event. *)
Definition consult {A : Type} (f : Ext -> outcome A * Ext) : M A :=
  fun w =>
    match f (ext w) with
    | (r, x) => (r, {| heap := heap w; ext := x; trace := trace w |})
    end.

(** [async with .. : body].  [body] gives [Some v] when it ends in
    [return v] and [None] when it runs to its end.  An exception that the
    exit swallows lets the function go on after the block. *)
Definition async_with {A : Type} (enter : M unit) (leave : option exn -> M bool)
    (body : M (option A)) : M (option A) :=
  enter ;;;
  fun w =>
    match body w with
    | (Return v, w1) =>
        match leave None w1 with
        | (Return _, w2) => (Return v, w2)
        | (Raise e, w2) => (Raise e, w2)
        end
    | (Raise e, w1) =>
        match leave (Some e) w1 with
        | (Return true, w2) => (Return None, w2)
        | (Return false, w2) => (Raise e, w2)
        | (Raise e', w2) => (Raise e', w2)
        end
    end.

(** [f"- {tool.name}: {tool.description}"]. *)
Definition tool_line (t : server_tool) : pystr :=
  codes "- " ++ st_name t ++ codes ": " ++ default (codes "None") (st_description t).

Definition get_tool_selection_prompt (query : pystr) (tools : list server_tool) : pystr :=
  let tools_description := str_join [10] (map tool_line tools) in
  codes "You are a database assistant with access to these tools:" ++ [10; 10]
  ++ tools_description ++ [10; 10]
  ++ codes "User's request: " ++ query ++ [10; 10]
  ++ codes "Analyze the user's request and choose the most appropriate tool. "
  ++ codes "If multiple operations are needed, start with the first logical step." ++ [10; 10]
  ++ codes "IMPORTANT: Respond ONLY with a JSON object in this exact format:" ++ [10]
  ++ codes "{" ++ [10]
  ++ codes "    " ++ [DQUOTE] ++ codes "tool" ++ [DQUOTE] ++ codes ": " ++ [DQUOTE]
  ++ codes "tool_name" ++ [DQUOTE] ++ codes "," ++ [10]
  ++ codes "    " ++ [DQUOTE] ++ codes "arguments" ++ [DQUOTE] ++ codes ": {" ++ [10]
  ++ codes "        " ++ [DQUOTE] ++ codes "parameter_name" ++ [DQUOTE] ++ codes ": "
  ++ [DQUOTE] ++ codes "value" ++ [DQUOTE] ++ [10]
  ++ codes "    }" ++ [10]
  ++ codes "}" ++ [10; 10]
  ++ codes "Do not include any other text or explanation.".

Definition tool_response_system_prompt : pystr :=
  codes "You are a helpful database assistant. Take the technical tool response and convert it into a clear, user-friendly answer that directly addresses the user's question. Be conversational and explain what was done or found. If there are errors, explain them clearly.".

Definition process_tool_response (self : DatabaseChatAgent)
    (original_query tool_response : pystr) : M pystr :=
  let prompt :=
    codes "User asked: " ++ original_query ++ [10; 10]
    ++ codes "Tool response: " ++ tool_response ++ [10; 10]
    ++ codes "Please provide a clear, friendly response to the user based on this information." in
  llm_chat self prompt (Some tool_response_system_prompt).

(** [value[key]] for a string [key]: only a mapping that has the key
    answers. *)
Definition subscript (value : pyval) (key : pystr) : outcome pyval :=
  match value with
  | PDict d =>
      match dict_get key d with
      | Some v => Return v
      | None => Raise KeyError
      end
  | _ => Raise TypeError
  end.

Definition rephrase_message : pystr :=
  codes "I had trouble understanding how to process your database request. Could you please rephrase it?".

Definition error_message (e : exn) : pystr :=
  codes "I encountered an error while processing your database request: " ++ exn_str e.

Definition unreachable_message : pystr :=
  codes "I'm having trouble connecting to the database. Please check if the database server is running.".

(** The inner [try] of [handle_database_operation] and its two handlers:
    the first answers a [JSONDecodeError], the second any other
    [Exception]. *)
Definition run_selected_tool (self : DatabaseChatAgent) (query tool_selection : pystr)
  : M (option pystr) :=
  try_except
    (tool_call <- lift (json_loads agent_recursion_room tool_selection) ;;
     tool <- lift (subscript tool_call (codes "tool")) ;;
     arguments <- lift (subscript tool_call (codes "arguments")) ;;
     result <- external (EvCallTool (py_str tool) arguments)
                 (agent_call_tool tool arguments) ;;
     tool_response <- lift (first_text result) ;;
     answer <- process_tool_response self query tool_response ;;
     ret (Some answer))
    (fun e =>
       match e with
       | JSONDecodeError => ret (Some rephrase_message)
       | _ => ret (Some (error_message e))
       end).

Definition sse_url : pystr := codes "http://localhost:8100/sse".

Definition DatabaseChatAgent_handle_database_operation
    (self : DatabaseChatAgent) (query : pystr) : M (option pystr) :=
  try_except
    (async_with
       (external (EvOpenSession (SSE sse_url)) (agent_session_enter sse_url))
       (fun leaving => external EvCleanup (agent_session_exit leaving))
       (consult session_initialize ;;;
        tools <- list_tools ;;
        let tool_prompt := get_tool_selection_prompt query tools in
        tool_selection <- llm_chat self tool_prompt None ;;
        run_selected_tool self query tool_selection))
    (fun e => ret (Some unreachable_message)).

(** [chat]: the request goes to the tool round or to the model, and the
    history takes the message and the answer and keeps its last 20
    entries. *)
Definition DatabaseChatAgent_chat (self : DatabaseChatAgent) (message : pystr)
  : M (option pystr * DatabaseChatAgent) :=
  response <-
    (if detect_database_intent message
     then DatabaseChatAgent_handle_database_operation self message
     else text <- llm_chat self message None ;; ret (Some text)) ;;
  let history := conversation_history self ++ [user_message message] in
  let history := history ++ [assistant_reply response] in
  let history := if bool_decide (20 < length history)%nat then last_n 20 history else history in
  ret (response, {| conversation_history := history |}).

(** *** [main] *)

Definition DatabaseChatAgent_init : M DatabaseChatAgent :=
  external (EvNewClient (codes "openai")) new_openai_client ;;;
  ret {| conversation_history := [] |}.

(** The signs of the banner, as the source file spells them. *)
Definition robot : pystr := [287; 376; 164; 8211].
Definition wave : pystr := [287; 376; 8216; 8249].
Definition cross : pystr := [226; 338].

Definition goodbye : pystr :=
  robot ++ codes " Assistant: Goodbye! Have a great day! " ++ wave.

Definition rule : pystr := repeat (chr "=") 50.

Definition exit_words : list pystr := [codes "done"; codes "exit"; codes "quit"; codes "bye"].

(** How a pass through the loop ends: [break], or the next pass with the
    agent as it then is. *)
Inductive agent_control :=
| Stop
| Again (self : DatabaseChatAgent).

(** Where the [try] block stands before its last statement: it has
    reached [continue] or [break], or [chat] has returned, the agent has
    its new history, and the block goes on to print the response. *)
Inductive agent_step :=
| Ended (control : agent_control)
| Answered (self : DatabaseChatAgent) (response : option pystr).

(** The [try] block of the loop, up to [print(response)]. *)
Definition agent_turn_body (self : DatabaseChatAgent) : M agent_step :=
  line <- external EvInput terminal_input ;;
  let user_input := str_strip line in
  match user_input with
  | [] => ret (Ended (Again self))
  | _ :: _ =>
      if bool_decide (str_lower user_input ∈ exit_words) then
        print (10 :: goodbye) ;;;
        ret (Ended Stop)
      else
        print (10 :: robot ++ codes " Assistant: ") ;;;
        r <- DatabaseChatAgent_chat self user_input ;;
        let '(response, self') := r in
        ret (Answered self' response)
  end.

(** The two handlers, reached with the agent as it is at that point. *)
Definition agent_turn_handlers (self : DatabaseChatAgent) (e : exn) : M agent_control :=
  if is_KeyboardInterrupt e then
    print (10 :: 10 :: goodbye) ;;; ret Stop
  else if is_Exception e then
    print (10 :: cross ++ codes " Error: " ++ exn_str e) ;;;
    print (codes "Let's try again...") ;;;
    ret (Again self)
  else raise e.

(** One pass: the [try] block and its handlers.  What [print(response)]
    raises reaches them after [chat] has changed the agent. *)
Definition agent_turn (self : DatabaseChatAgent) : M agent_control :=
  fun w =>
    match agent_turn_body self w with
    | (Return (Ended control), w1) => (Return control, w1)
    | (Return (Answered self' response), w1) =>
        match print (default (codes "None") response) w1 with
        | (Return _, w2) => (Return (Again self'), w2)
        | (Raise e, w2) => agent_turn_handlers self' e w2
        end
    | (Raise e, w1) => agent_turn_handlers self e w1
    end.

(** The loop, for at most [turns] passes; it gives the agent as the last
    pass left it. *)
Fixpoint agent_turns (turns : nat) (self : DatabaseChatAgent) : M DatabaseChatAgent :=
  match turns with
  | O => ret self
  | S n =>
      control <- agent_turn self ;;
      match control with
      | Stop => ret self
      | Again self' => agent_turns n self'
      end
  end.

Definition agent_main (turns : nat) : M DatabaseChatAgent :=
  agent <- DatabaseChatAgent_init ;;
  print (robot ++ codes " Database Chat Assistant") ;;;
  print rule ;;;
  print (codes "I can help you with database operations and general questions!") ;;;
  print (codes "Try asking me to:") ;;;
  print (codes "- List tables in the database") ;;;
  print (codes "- Create or modify tables") ;;;
  print (codes "- Insert, update, or query data") ;;;
  print (codes "- Get database information") ;;;
  print (codes "- Or just have a normal conversation!") ;;;
  print (10 :: codes "Type 'done' when you want to exit.") ;;;
  print rule ;;;
  agent_turns turns agent.

(** *** The vocabulary of the agent's properties *)

(** One of the two apologies of the tool round. *)
Definition apology (answer : option pystr) : Prop :=
  answer = Some rephrase_message \/ exists e, answer = Some (error_message e).

(** A selection the tool round can act on: a JSON object with the keys
    ["tool"] and ["arguments"]. *)
Definition selects (tool_selection : pystr) (tool arguments : pyval) : Prop :=
  exists tool_call,
    json_loads agent_recursion_room tool_selection = Return (PDict tool_call)
    /\ dict_get (codes "tool") tool_call = Some tool
    /\ dict_get (codes "arguments") tool_call = Some arguments.

(** The lines the handlers of the loop print. *)
Definition handler_line (text : pystr) : Prop :=
  text = 10 :: 10 :: goodbye
  \/ (exists e, text = 10 :: cross ++ codes " Error: " ++ exn_str e)
  \/ text = codes "Let's try again...".

(** [e] came out of the print of such a line, the last thing that
    happened in [w]. *)
Definition raised_by_handler_print (e : exn) (w : world) : Prop :=
  exists text x before,
    handler_line text
    /\ fst (terminal_print text x) = Raise e
    /\ trace w = before ++ [EvPrint text].

(** The events of a request between entering the session and leaving
    it. *)
Definition request_events (tool : pystr) (arguments : pyval) : list event :=
  [EvListTools; EvVendor (codes "openai"); EvCallTool tool arguments;
   EvVendor (codes "openai")].

End Agent.

(** ** The tool server

    [gemini-built-1/server_sse.py]: the one tool of the server the agent
    talks to, [execute_sql_query]. *)

(** The MySQL driver and the database behind it.  [Db] is their state. *)
Class Database : Type := {
  Db : Type;
  Connection : Type;
  Cursor : Type;
  Row : Type;
  (** [mysql.connector.connect(host=.., port=.., database=.., user=..,
      password=.., charset='utf8mb4')], as [get_sync_connection] calls
      it. *)
  mysql_connect : Db -> outcome Connection * Db;
  (** [conn.cursor(dictionary=True)]. *)
  conn_cursor : Connection -> Db -> outcome Cursor * Db;
  (** [cursor.execute(query)]. *)
  cursor_execute : Cursor -> pystr -> Db -> outcome unit * Db;
  (** [cursor.fetchall()]. *)
  cursor_fetchall : Cursor -> Db -> outcome (list Row) * Db;
  (** [conn.commit()]. *)
  conn_commit : Connection -> Db -> outcome unit * Db;
  (** [cursor.rowcount]. *)
  cursor_rowcount : Cursor -> Db -> Z;
  (** [conn.close()]. *)
  conn_close : Connection -> Db -> outcome unit * Db;
  (** [str(e)]. *)
  error_text : exn -> pystr
}.

Section Server.

Context {py : Interpreter} {database : Database}.

(** What the server asks of the driver, in the order it asks. *)
Inductive db_event :=
| DbConnect
| DbCursor
| DbExecute (query : pystr)
| DbFetchAll
| DbCommit
| DbClose.

Record server_world := {
  db : Db;
  journal : list db_event
}.

(** The computations of the server: they thread its world and an
    outcome. *)
Definition DbM (A : Type) : Type := server_world -> outcome A * server_world.

Definition db_ret {A} (a : A) : DbM A := fun w => (Return a, w).
Definition db_bind {A B} (c : DbM A) (k : A -> DbM B) : DbM B :=
  fun w =>
    match c w with
    | (Return a, w') => k a w'
    | (Raise e, w') => (Raise e, w')
    end.

Notation "x <~ c ;; k" := (db_bind c (fun x => k))
  (at level 100, c at next level, right associativity).
Notation "c ;;~ k" := (db_bind c (fun _ => k))
  (at level 100, right associativity).

(** A call to the driver: it changes [db] and is entered in the journal. *)
Definition driver {A} (ev : db_event) (f : Db -> outcome A * Db) : DbM A :=
  fun w =>
    match f (db w) with
    | (r, d) => (r, {| db := d; journal := journal w ++ [ev] |})
    end.

(** The dictionary the tool returns: the rows and their count, or a
    message and the number of affected rows, or an error. *)
Inductive query_result :=
| Rows (data : list Row) (row_count : nat)
| Executed (message : pystr) (affected_rows : Z)
| Failure (error : pystr).

(** [query.strip().upper().startswith('SELECT')]. *)
Definition is_select (query : pystr) : bool :=
  startswith (str_upper (str_strip query)) (codes "SELECT").

(** The [try] block after the connection is there. *)
Definition run_query (conn : Connection) (query : pystr) : DbM query_result :=
  cursor <~ driver DbCursor (conn_cursor conn) ;;
  driver (DbExecute query) (cursor_execute cursor query) ;;~
  if is_select query then
    results <~ driver DbFetchAll (cursor_fetchall cursor) ;;
    driver DbClose (conn_close conn) ;;~
    db_ret (Rows results (length results))
  else
    driver DbCommit (conn_commit conn) ;;~
    affected_rows <~ (fun w => (Return (cursor_rowcount cursor (db w)), w)) ;;
    driver DbClose (conn_close conn) ;;~
    if repr_returns (PInt affected_rows)
    then db_ret (Executed (codes "Query executed successfully. " ++ repr_int affected_rows
                           ++ codes " rows affected.") affected_rows)
    else fun w => (Raise ValueError, w).

(** The handler: close the connection if there is one, and report. *)
Definition report_failure (conn : option Connection) (e : exn) : DbM query_result :=
  match conn with
  | Some c => driver DbClose (conn_close c)
  | None => db_ret tt
  end ;;~
  db_ret (Failure (error_text e)).

Definition execute_sql_query (query : pystr) : DbM query_result :=
  fun w =>
    match driver DbConnect mysql_connect w with
    | (Raise e, w1) =>
        if is_Exception e then report_failure None e w1 else (Raise e, w1)
    | (Return conn, w1) =>
        match run_query conn query w1 with
        | (Return result, w2) => (Return result, w2)
        | (Raise e, w2) =>
            if is_Exception e then report_failure (Some conn) e w2 else (Raise e, w2)
        end
    end.

(** The steps of the [try] block once the connection is there. *)
Definition query_steps (query : pystr) : list db_event :=
  [DbCursor; DbExecute query; if is_select query then DbFetchAll else DbCommit; DbClose].

End Server.

(** ** A scripted outside world

    Closed instances of the classes, for running the program on concrete
    inputs: an interpreter that knows ASCII only, and services that answer
    by a fixed script.

    The interpreter takes no character from 128 upward for alphanumeric,
    printable or white space, leaves the case of a string that has one
    alone, and writes a float as the literal that denotes it.  It is the
    Python interpreter on ASCII text and on the literals that are the
    shortest [repr] of their float, such as [1.5]; the concrete inputs
    stay within these.  Where a reply or a banner holds a character beyond
    ASCII it is only handed on and printed, and no table of the
    interpreter is asked about it. *)

Definition ascii_interpreter : Interpreter := {|
  uni_alnum := fun _ => false;
  uni_printable := fun _ => false;
  uni_space := fun _ => false;
  uni_lower := fun s => s;
  uni_upper := fun s => s;
  float_repr := fun lit => lit;
  adapter_recursion_room := 100;
  client_recursion_room := 100
|}.

(** The script: the lines still to be typed at the terminal, what each
    vendor answers, whether the tool server answers at all, the tools
    whose call fails, and whether the terminal takes ASCII only. *)
Record script := {
  stdin : list pystr;
  anthropic_reply : list content_block;
  openai_reply : list openai_message;
  gemini_reply : gemini_response;
  tool_server_up : bool;
  broken_tools : list pystr;
  ascii_terminal : bool
}.

Definition more_input (x : script) (lines : list pystr) : script :=
  {| stdin := lines; anthropic_reply := anthropic_reply x; openai_reply := openai_reply x;
     gemini_reply := gemini_reply x; tool_server_up := tool_server_up x;
     broken_tools := broken_tools x; ascii_terminal := ascii_terminal x |}.

Definition list_tables_tool : server_tool :=
  {| st_name := codes "list_tables";
     st_description := Some (codes "List the tables");
     st_inputSchema := [] |}.

Definition scripted : Outside := {|
  Ext := script;
  Result := pystr;
  format_result := fun r => r;
  session_list_tools := fun x =>
    (if tool_server_up x then Return [list_tables_tool] else Raise (External 0), x);
  session_call_tool := fun name _ x =>
    (if tool_server_up x && negb (bool_decide (name ∈ broken_tools x))
     then Return (codes "rows of " ++ name) else Raise (External 0), x);
  session_open := fun _ x => (Return tt, x);
  session_close := fun x => (Return tt, x);
  new_vendor_client := fun _ x => (Return tt, x);
  anthropic_messages_create := fun _ _ x => (Return (anthropic_reply x), x);
  openai_chat_completions_create := fun _ _ x => (Return (openai_reply x), x);
  Chat := unit;
  gemini_chats_create := fun _ _ x => (Return tt, x);
  gemini_send_message := fun _ _ x => (Return (gemini_reply x), x);
  terminal_input := fun x =>
    match stdin x with
    | line :: rest => (Return line, more_input x rest)
    | [] => (Raise EOFError, x)
    end;
  terminal_print := fun text x =>
    (if ascii_terminal x && negb (forallb is_ascii text) then Raise ValueError else Return tt, x);
  exn_str := fun _ => codes "failed";
  agent_chat_completions_create := fun _ x => (Return (codes "Hi"), x)
|}.

(** A script in which every vendor asks for the tool [list_tables] with no
    arguments. *)
Definition asks_for_tables (lines : list pystr) (up : bool) : script := {|
  stdin := lines;
  anthropic_reply := [TextBlock (codes "Let me check."); ToolUseBlock (codes "list_tables") []];
  openai_reply := [ {| om_content := Some (codes "Let me check.");
                       om_tool_calls := Some [ {| tc_name := codes "list_tables";
                                                  tc_arguments := codes "{}" |} ] |} ];
  gemini_reply := {| candidates := Some [ {| cand_parts := Some (Some
                       [ {| part_text := Some (codes "Let me check.");
                            part_function_call := Some {| fc_name := Some (codes "list_tables");
                                                          fc_args := Some [] |} |} ]) |} ] |};
  tool_server_up := up;
  broken_tools := [];
  ascii_terminal := false
|}.

(** The world before anything has run. *)
Definition start (x : script) : world (out := scripted) :=
  @Build_world scripted [] x [].

(** Twelve earlier exchanges (24 messages) and one more turn: 26 messages
    are appended, the oldest 6 go. *)
Definition long_history : list message :=
  flat_map (fun i => [user_message [chr "q"; i]; assistant_message [chr "a"; i]])
    [48; 49; 50; 51; 52; 53; 54; 55; 56; 57; 58; 59].

Definition connected (s : service) (provider : pystr) : MCPClient :=
  {| llm_provider := provider; llm_service := s; session := true |}.

(** End-to-end scenario 3: two markers in one response. *)
Definition asks_twice : script := {|
  stdin := [];
  anthropic_reply :=
    [ToolUseBlock (codes "list_tables") [];
     ToolUseBlock (codes "describe_table") [(codes "table", PStr (codes "users"))]];
  openai_reply := [];
  gemini_reply := {| candidates := None |};
  tool_server_up := true;
  broken_tools := [];
  ascii_terminal := false
|}.

(** A transcript of one earlier message, at location 0. *)
Definition resumed (x : script) : world (out := scripted) :=
  @Build_world scripted [[user_message (codes "earlier")]] x [].

(** The agent's session in the scripted world: it is there when the tool
    server is up, and every tool answers with one line of text. *)
Definition scripted_agent : AgentOutside (out := scripted) :=
  @Build_AgentOutside scripted
    (fun _ (x : script) => (if tool_server_up x then Return tt else Raise (External 0), x))
    (fun _ (x : script) => (Return false, x))
    (fun x : script => (Return tt, x))
    (fun tool _ (x : script) =>
       (Return (codes "rows of " ++ py_str (py := ascii_interpreter) tool), x))
    (fun result : pystr => Return result)
    100
    (fun x : script => (Return tt, x)).

(** A scripted database: its state is the list of the statements it has
    run, every query has the same two rows, and every statement affects
    one row. *)
Definition scripted_database : Database := {|
  Db := list pystr;
  Connection := unit;
  Cursor := unit;
  Row := pystr;
  mysql_connect := fun d : list pystr => (Return tt, d);
  conn_cursor := fun _ (d : list pystr) => (Return tt, d);
  cursor_execute := fun _ query (d : list pystr) => (Return tt, d ++ [query]);
  cursor_fetchall := fun _ (d : list pystr) => (Return [codes "alice"; codes "bob"], d);
  conn_commit := fun _ (d : list pystr) => (Return tt, d);
  cursor_rowcount := fun _ _ => 1%Z;
  conn_close := fun _ (d : list pystr) => (Return tt, d);
  error_text := fun _ => codes "failed"
|}.

(** The server before anything has run. *)
Definition server_start : server_world (database := scripted_database) :=
  @Build_server_world scripted_database [] [].


(** A catalog whose one schema has a string where its properties should
    be. *)
Definition unreadable_catalog : list tool :=
  [ {| tool_name := codes "broken"; tool_description := None;
       input_schema := [(codes "properties", PStr (codes "none"))] |} ].

(** The tool server is up, but the call of [list_tables] fails. *)
Definition tables_unavailable (lines : list pystr) : script := {|
  stdin := lines;
  anthropic_reply := [TextBlock (codes "Let me check."); ToolUseBlock (codes "list_tables") []];
  openai_reply := [];
  gemini_reply := {| candidates := None |};
  tool_server_up := true;
  broken_tools := [codes "list_tables"];
  ascii_terminal := false
|}.

(** Anthropic answers with a letter beyond ASCII, [a] with a grave
    accent, and the terminal takes ASCII only. *)
Definition answers_beyond_ascii (lines : list pystr) : script := {|
  stdin := lines;
  anthropic_reply := [TextBlock (codes "Voil" ++ [224])];
  openai_reply := [];
  gemini_reply := {| candidates := None |};
  tool_server_up := true;
  broken_tools := [];
  ascii_terminal := true
|}.

(** Arguments with a line break, a backslash and a float. *)
Definition query_arguments : pydict :=
  [(codes "sql", PStr (codes "SELECT 1" ++ [10] ++ codes "FROM t"));
   (codes "path", PStr (codes "C:\tmp"));
   (codes "limit", PInt 10);
   (codes "ratio", PFloat (codes "1.5"))].

#[local] Ltac run := vm_compute; reflexivity.

(** Replace the character constants of the goal by their codes. *)
#[local] Ltac chars :=
  repeat match goal with
    | |- context [chr ?a] =>
        let v := eval vm_compute in (chr a) in change (chr a) with v
    | |- context [codes ?s] =>
        let v := eval vm_compute in (codes s) in change (codes s) with v
    end;
  change DQUOTE with 34 in *; change SQUOTE with 39 in *; change BACKSLASH with 92 in *.

(** Decide the comparisons of the goal one by one, dropping at once the
    cases the hypotheses exclude. *)
#[local] Ltac narrow :=
  repeat (match goal with
          | |- context [?a <=? ?b] => destruct (N.leb_spec a b)
          | |- context [?a <? ?b] => destruct (N.ltb_spec a b)
          | |- context [?a =? ?b] => destruct (N.eqb_spec a b)
          end; cbn [andb orb negb] in *; try discriminate; try lia).

(** Decide the comparisons of the goal and leave the arithmetic to [lia]. *)
#[local] Ltac compare :=
  repeat (match goal with
          | |- context [?a <=? ?b] => destruct (N.leb_spec a b)
          | |- context [?a <? ?b] => destruct (N.ltb_spec a b)
          | |- context [?a =? ?b] => destruct (N.eqb_spec a b)
          end; cbn [andb orb negb] in * ).

Section Properties.

Context {py : Interpreter} {out : Outside}.

(** * Properties *)

(** ** The last entries of a list *)

Lemma last_n_suffix {A : Type} (n : nat) (l : list A) :
  exists dropped, l = dropped ++ last_n n l.
Proof. exists (take (length l - n) l). unfold last_n. now rewrite take_drop. Qed.

Lemma last_n_length {A : Type} (n : nat) (l : list A) :
  (n <= length l)%nat -> length (last_n n l) = n.
Proof. intros H. unfold last_n. rewrite length_drop. lia. Qed.

(** ** The Gemini catalog projector *)

Lemma dict_get_set_eq {V : Type} (k : pystr) (v : V) (d : list (pystr * V)) :
  dict_get k (dict_set k v d) = Some v.
Proof.
  induction d as [|[k' v'] d IH]; cbn.
  - now rewrite bool_decide_eq_true_2.
  - destruct (bool_decide_reflect (k = k')) as [->|Hne]; cbn.
    + now rewrite bool_decide_eq_true_2.
    + now rewrite bool_decide_eq_false_2.
Qed.

Lemma dict_get_set_ne {V : Type} (k k' : pystr) (v : V) (d : list (pystr * V)) :
  k <> k' -> dict_get k' (dict_set k v d) = dict_get k' d.
Proof.
  intros Hne. induction d as [|[k0 v0] d IH]; cbn.
  - rewrite bool_decide_eq_false_2; congruence.
  - destruct (bool_decide_reflect (k = k0)) as [->|Hne0]; cbn.
    + rewrite !bool_decide_eq_false_2; congruence.
    + destruct (bool_decide (k' = k0)); [reflexivity|exact IH].
Qed.

Lemma dict_get_None_notin {V : Type} (k : pystr) (d : list (pystr * V)) :
  k ∉ map fst d -> dict_get k d = None.
Proof.
  induction d as [|[k' v'] d IH]; cbn; [reflexivity|]. intros Hnotin.
  rewrite not_elem_of_cons in Hnotin. destruct Hnotin as [Hne Hrest].
  rewrite bool_decide_eq_false_2 by exact Hne. now apply IH.
Qed.

(** Every property of the source is projected, once, under its own name. *)
Lemma convert_properties_lookup (items : pydict) :
  forall (acc props : list (pystr * property_schema)),
    convert_properties items acc = Return props ->
    NoDup (map fst items) ->
    (forall name details, dict_get name items = Some details ->
       exists property, dict_get name props = Some property
                        /\ convert_property details = Return property)
    /\ (forall name, dict_get name items = None -> dict_get name props = dict_get name acc).
Proof.
  induction items as [|[n d] items IH]; intros acc props Hrun Hnodup; cbn in *.
  - injection Hrun as <-. split; [discriminate|reflexivity].
  - destruct (convert_property d) as [property|e] eqn:Hd; [|discriminate].
    apply list.NoDup_cons in Hnodup as [Hnotin Hnodup].
    destruct (IH _ _ Hrun Hnodup) as [IH1 IH2]. split.
    + intros name details. destruct (bool_decide_reflect (name = n)) as [->|Hne].
      * intros [= <-]. exists property. split; [|exact Hd].
        rewrite IH2 by now apply dict_get_None_notin. apply dict_get_set_eq.
      * apply IH1.
    + intros name. destruct (bool_decide_reflect (name = n)) as [->|Hne]; [discriminate|].
      intros Hnone. rewrite IH2 by exact Hnone. apply dict_get_set_ne. congruence.
Qed.

Lemma ascii_upper_is_ascii (c : N) : is_ascii c = true -> is_ascii (ascii_upper c) = true.
Proof.
  unfold is_ascii, ascii_upper, is_lower. chars. compare; intros; try reflexivity; lia.
Qed.

Lemma ascii_lower_upper (c : N) : ascii_lower (ascii_upper c) = ascii_lower c.
Proof.
  unfold ascii_lower, ascii_upper, is_lower, is_upper. chars. compare; lia.
Qed.

(** On an ASCII name the two case conversions amount to lower-casing. *)
Lemma case_fold_ascii (s : pystr) :
  forallb is_ascii s = true -> str_lower (str_upper s) = map ascii_lower s.
Proof.
  intros Hs. unfold str_upper. rewrite Hs. unfold str_lower.
  assert (forallb is_ascii (map ascii_upper s) = true) as ->.
  { induction s as [|c s IH]; [reflexivity|]. cbn in *.
    apply andb_prop in Hs as [Hc Hs]. now rewrite ascii_upper_is_ascii, IH. }
  rewrite map_map. apply map_ext. intros c. apply ascii_lower_upper.
Qed.

(** C8 (amended).  The projector looks a type name up without regard to
    letter case: a property whose ["type"] is the ASCII string [type_name],
    or is missing (then [type_name] is [STRING]), is projected to the enum
    name listed for the lower-cased [type_name] ([number] to [NUMBER],
    [integer] to [INTEGER], [boolean] to [BOOLEAN], [array] to [ARRAY],
    [object] to [OBJECT]) and to [STRING] when none is listed, with the
    description it had; and a tool that is projected keeps its name, its
    description and its ["required"] list, and has under each property
    name the projection of that property. *)
Theorem gemini_projection_folds_case (details : pydict) (type_name : pystr) :
  default (PStr (codes "STRING")) (dict_get (codes "type") details) = PStr type_name ->
  forallb is_ascii type_name = true ->
  convert_property (PDict details)
  = Return {| ps_type := default (codes "STRING")
                           (dict_get (map ascii_lower type_name) type_mapping);
              ps_description := dict_get (codes "description") details |}
  /\ forall (t : tool) (fd : function_declaration),
       convert_tool t = Return fd ->
       fd_name fd = tool_name t
       /\ fd_description fd = tool_description t
       /\ fd_required fd = default (PList []) (dict_get (codes "required") (input_schema t))
       /\ forall items name prop_details,
            dict_get (codes "properties") (input_schema t) = Some (PDict items) ->
            NoDup (map fst items) ->
            dict_get name items = Some prop_details ->
            exists property,
              dict_get name (fd_properties fd) = Some property
              /\ convert_property prop_details = Return property.
Proof.
  intros Htype Hascii. split.
  - unfold convert_property. rewrite Htype. unfold gemini_prop_type.
    now rewrite case_fold_ascii.
  - intros t fd. unfold convert_tool.
    destruct (input_schema t) as [|entry schema] eqn:Hschema.
    + intros [= <-]. cbn. repeat split; try reflexivity. discriminate.
    + destruct (dict_get (codes "properties") (entry :: schema)) as [v|] eqn:Hprops.
      * destruct v as [| | | | | |items]; try discriminate.
        destruct (convert_properties items []) as [props|e] eqn:Hrun; [|discriminate].
        intros [= <-]. cbn. repeat split; try reflexivity.
        intros items' name prop_details [= <-] Hnodup Hget.
        now apply (convert_properties_lookup items [] props Hrun Hnodup).
      * intros [= <-]. cbn. repeat split; try reflexivity. discriminate.
Qed.

(** *** The catalogs the projector can read *)

Lemma convert_property_readable (prop_details : pyval) :
  match convert_property prop_details with
  | Return _ => readable_property prop_details
  | Raise e => e = AttributeError /\ ~ readable_property prop_details
  end.
Proof.
  unfold convert_property, readable_property. destruct prop_details as [| | | | | |details]; auto.
  destruct (dict_get (codes "type") details) as [[]|]; cbn; auto.
Qed.

Lemma convert_properties_readable (items : pydict) :
  forall properties,
    match convert_properties items properties with
    | Return _ => Forall (fun item => readable_property (snd item)) items
    | Raise e =>
        e = AttributeError /\ ~ Forall (fun item => readable_property (snd item)) items
    end.
Proof.
  induction items as [|[prop_name prop_details] items IH]; intros properties;
    cbn [convert_properties]; [constructor|].
  pose proof (convert_property_readable prop_details) as Hhead.
  destruct (convert_property prop_details) as [property|e].
  - specialize (IH (dict_set prop_name property properties)).
    destruct (convert_properties items _) as [properties'|e].
    + now constructor.
    + destruct IH as [-> IH]. split; [reflexivity|]. intros H. apply IH.
      now inversion H.
  - destruct Hhead as [-> Hhead]. split; [reflexivity|]. intros H. apply Hhead.
    now inversion H.
Qed.

Lemma convert_tool_readable (t : tool) :
  match convert_tool t with
  | Return fd =>
      readable_schema (input_schema t)
      /\ fd_name fd = tool_name t /\ fd_description fd = tool_description t
  | Raise e => e = AttributeError /\ ~ readable_schema (input_schema t)
  end.
Proof.
  unfold convert_tool, readable_schema. destruct (input_schema t) as [|item schema] eqn:Hschema.
  - cbn. auto.
  - destruct (dict_get (codes "properties") (item :: schema)) as [[| | | | | |items]|]; cbn; auto.
    pose proof (convert_properties_readable items []) as Hitems.
    destruct (convert_properties items []); cbn; auto.
Qed.

Lemma convert_tools_readable (available_tools : list tool) :
  match _convert_tools_to_gemini_format available_tools with
  | Return gemini_tools =>
      Forall (fun t => readable_schema (input_schema t)) available_tools
      /\ map fd_name gemini_tools = map tool_name available_tools
      /\ map fd_description gemini_tools = map tool_description available_tools
  | Raise e =>
      e = AttributeError
      /\ ~ Forall (fun t => readable_schema (input_schema t)) available_tools
  end.
Proof.
  induction available_tools as [|t available_tools IH];
    cbn [_convert_tools_to_gemini_format]; [repeat split; constructor|].
  pose proof (convert_tool_readable t) as Hhead.
  destruct (convert_tool t) as [fd|e].
  - destruct (_convert_tools_to_gemini_format available_tools) as [gemini_tools|e].
    + destruct Hhead as (Hschema & Hname & Hdescription).
      destruct IH as (Hschemas & Hnames & Hdescriptions).
      cbn [map]. rewrite Hname, Hnames, Hdescription, Hdescriptions.
      repeat split. now constructor.
    + destruct IH as [-> IH]. split; [reflexivity|]. intros H. apply IH.
      now inversion H.
  - destruct Hhead as [-> Hhead]. split; [reflexivity|]. intros H. apply Hhead.
    now inversion H.
Qed.

(** ** Start-up *)

(** C2 (amended).  A provider name on the command line that is not one of
    the three, whatever its letter case, is not fatal: [main] runs exactly
    as it does when no provider is given, with [anthropic].  Building
    [MCPClient] with a name that is not one of the three raises
    [ValueError] and touches nothing: no client is built and no
    connection is attempted. *)
Theorem unknown_provider_falls_back
    (turns : nat) (prog target given : pystr) (rest : list pystr) (p : pystr) (w : world) :
  str_lower given ∉ [codes "anthropic"; codes "openai"; codes "gemini"] ->
  p ∉ [codes "anthropic"; codes "openai"; codes "gemini"] ->
  main turns (prog :: target :: given :: rest) = main turns [prog; target]
  /\ MCPClient_init p w = (Raise ValueError, w).
Proof.
  intros Hgiven Hp. split.
  - unfold main. now rewrite bool_decide_eq_false_2.
  - unfold MCPClient_init.
    rewrite !not_elem_of_cons in Hp. destruct Hp as (H1 & H2 & H3 & _).
    now rewrite !bool_decide_eq_false_2.
Qed.

(** ** Lists on the heap *)

Lemma list_at_old (h added : list (list message)) (p : loc) :
  (p < length h)%nat -> list_at (h ++ added) p = list_at h p.
Proof. intros Hp. unfold list_at. now rewrite lookup_app_l. Qed.

Lemma list_at_new (h : list (list message)) (xs : list message) :
  list_at (h ++ [xs]) (length h) = xs.
Proof. unfold list_at. now rewrite list_lookup_middle. Qed.

Lemma insert_new (h : list (list message)) (xs ys : list message) :
  <[length h := ys]> (h ++ [xs]) = h ++ [ys].
Proof.
  rewrite insert_app_r_alt by lia. now replace (length h - length h)%nat with 0%nat by lia.
Qed.

(** The first lines of the Anthropic and OpenAI adapters: a new list, the
    previous messages, the user message. *)
Lemma fresh_transcript (query : pystr) (previous_messages : option loc) (w : world)
    {A : Type} (k : loc -> list message -> M A) :
  valid_ref w previous_messages ->
  (messages <- new_list [] ;;
   previous <- read_optional previous_messages ;;
   (match previous with
    | [] => ret tt
    | _ :: _ => list_extend messages previous
    end) ;;;
   list_append messages (user_message query) ;;;
   sent <- read_list messages ;;
   k messages sent) w
  = k (length (heap w)) (prior_messages w previous_messages ++ [user_message query])
      {| heap := heap w ++ [prior_messages w previous_messages ++ [user_message query]];
         ext := ext w; trace := trace w |}.
Proof.
  intros Hvalid. unfold bind, new_list. cbn.
  assert (read_optional previous_messages
            {| heap := heap w ++ [[]]; ext := ext w; trace := trace w |}
          = (Return (prior_messages w previous_messages),
             {| heap := heap w ++ [[]]; ext := ext w; trace := trace w |})) as ->.
  { destruct previous_messages as [p|]; cbn; [|reflexivity].
    unfold read_list. cbn. now rewrite list_at_old. }
  destruct (prior_messages w previous_messages) as [|m prior]; cbn.
  - rewrite list_at_new, insert_new. cbn. now rewrite list_at_new.
  - rewrite list_at_new, insert_new. cbn. rewrite list_at_new, insert_new.
    now rewrite list_at_new.
Qed.

(** ** What a call to an adapter does *)

(** The loops that build [final_text] raise exactly when a marker cannot
    be written. *)
Lemma anthropic_final_text_pieces (response_content : list content_block) :
  anthropic_final_text response_content
  = if forallb writable_block response_content
    then Return (anthropic_pieces response_content)
    else Raise ValueError.
Proof.
  induction response_content as [|content rest IH]; [reflexivity|].
  cbn [anthropic_final_text forallb]. rewrite IH.
  destruct content as [text|name input|]; cbn [anthropic_block_text writable_block andb].
  - now destruct (forallb writable_block rest).
  - unfold write_marker. destruct (repr_returns (PDict input)); [|reflexivity].
    now destruct (forallb writable_block rest).
  - now destruct (forallb writable_block rest).
Qed.

Lemma gemini_parts_text_pieces (parts : list gemini_part) :
  gemini_parts_text parts
  = if forallb writable_part parts then Return (gemini_pieces parts) else Raise ValueError.
Proof.
  induction parts as [|part rest IH]; [reflexivity|].
  cbn [gemini_parts_text forallb]. rewrite IH.
  unfold gemini_part_text, writable_part, gemini_pieces. cbn [flat_map].
  destruct (part_function_call part) as [function_call|]; cbn [andb].
  - unfold write_marker.
    destruct (repr_returns (_parse_gemini_function_args function_call)); [|reflexivity].
    destruct (forallb _ rest); reflexivity.
  - destruct (forallb _ rest); [|reflexivity]. cbn [andb]. now rewrite app_nil_r.
Qed.

Lemma openai_markers_decodable (calls : list tool_call) :
  Forall decodable calls -> exists markers, openai_markers calls = Return markers.
Proof.
  induction 1 as [|tc calls (function_args & Hloads & Hwrite) _ [markers IH]];
    [now exists []|].
  cbn [openai_markers]. rewrite Hloads. unfold write_marker. rewrite Hwrite, IH.
  now eexists.
Qed.

Lemma AnthropicService_run (query : pystr) (available_tools : list tool)
    (previous_messages : option loc) (w : world) :
  valid_ref w previous_messages ->
  AnthropicService_process_query query available_tools previous_messages w
  = let sent := prior_messages w previous_messages ++ [user_message query] in
    match anthropic_messages_create sent available_tools (ext w) with
    | (r, x) =>
        (match r with
         | Return response_content =>
             match anthropic_final_text response_content with
             | Return final_text => Return (str_join [10] final_text, length (heap w))
             | Raise e => Raise e
             end
         | Raise e => Raise e
         end,
         {| heap := heap w ++ [sent]; ext := x;
            trace := trace w ++ [EvVendor (codes "anthropic")] |})
    end.
Proof.
  intros Hvalid. unfold AnthropicService_process_query.
  rewrite fresh_transcript by exact Hvalid.
  unfold bind, external, lift. cbn.
  destruct (anthropic_messages_create _ _ _) as [[response_content|e] x]; [|reflexivity].
  now destruct (anthropic_final_text response_content).
Qed.

#[local] Arguments openai_markers : simpl never.

Lemma OpenAIService_run (query : pystr) (available_tools : list tool)
    (previous_messages : option loc) (w : world) :
  valid_ref w previous_messages ->
  exists r extension,
    OpenAIService_process_query query available_tools previous_messages w
    = (r,
       {| heap := heap w ++ [prior_messages w previous_messages
                             ++ user_message query :: extension];
          ext := snd (openai_chat_completions_create
                        (prior_messages w previous_messages ++ [user_message query])
                        (openai_tools_of available_tools) (ext w));
          trace := trace w ++ [EvVendor (codes "openai")] |})
    /\ (extension = [] \/ exists m, extension = [m] /\ role m = codes "assistant")
    /\ (forall text messages, r = Return (text, messages) ->
          messages = length (heap w)
          /\ exists choices,
               fst (openai_chat_completions_create
                      (prior_messages w previous_messages ++ [user_message query])
                      (openai_tools_of available_tools) (ext w)) = Return choices
               /\ if carries_tool_calls choices
                  then exists m, extension = [m] /\ role m = codes "assistant"
                  else extension = []).
Proof.
  intros Hvalid. unfold OpenAIService_process_query.
  rewrite fresh_transcript by exact Hvalid.
  unfold bind, external. cbn.
  destruct (openai_chat_completions_create _ _ _) as [[choices|e] x]; cbn.
  2:{ exists (Raise e), []. split; [reflexivity|]. split; [now left|discriminate]. }
  destruct choices as [|response_message choices]; cbn.
  { exists (Raise IndexError), []. split; [reflexivity|]. split; [now left|discriminate]. }
  assert (forall r : outcome (pystr * loc),
            (forall text messages, r = Return (text, messages) -> messages = length (heap w)) ->
            carries_tool_calls (response_message :: choices) = false ->
            (@nil message = [] \/ exists m, @nil message = [m] /\ role m = codes "assistant")
            /\ (forall text messages, r = Return (text, messages) ->
                  messages = length (heap w)
                  /\ exists choices0,
                       Return (response_message :: choices) = Return choices0
                       /\ if carries_tool_calls choices0
                          then exists m, @nil message = [m] /\ role m = codes "assistant"
                          else @nil message = [])) as Hplain.
  { intros r Hr Hcarries. split; [now left|]. intros text messages Heq.
    split; [now apply (Hr text)|]. eexists. split; [reflexivity|]. now rewrite Hcarries. }
  destruct (om_tool_calls response_message) as [[|tc tcs]|] eqn:Hcalls; cbn.
  - destruct (om_content response_message) as [text|]; cbn;
      eexists _, []; (split; [reflexivity|]); apply Hplain;
      try (cbn; now rewrite Hcalls); try discriminate.
    now intros ? ? [= <- <-].
  - rewrite list_at_new, insert_new, <- app_assoc. cbn [app].
    unfold lift. destruct (openai_markers (tc :: tcs)) as [markers|e]; cbn;
      eexists _, [_]; (split; [reflexivity|]);
      (split; [right; eexists; split; reflexivity|]); [|discriminate].
    intros ? ? [= <- <-]. split; [reflexivity|].
    eexists. split; [reflexivity|]. cbn. rewrite Hcalls. eexists. split; reflexivity.
  - destruct (om_content response_message) as [text|]; cbn;
      eexists _, []; (split; [reflexivity|]); apply Hplain;
      try (cbn; now rewrite Hcalls); try discriminate.
    now intros ? ? [= <- <-].
Qed.

Lemma tool_calls_in_app (t1 t2 : list event) :
  tool_calls_in (t1 ++ t2) = tool_calls_in t1 ++ tool_calls_in t2.
Proof. apply flat_map_app. Qed.

Lemma tool_calls_in_quiet (t : list event) (ev : event) :
  (forall name arguments, ev <> EvCallTool name arguments) ->
  tool_calls_in (t ++ [ev]) = tool_calls_in t.
Proof.
  intros Hev. rewrite tool_calls_in_app. cbn.
  destruct ev; try now rewrite app_nil_r. now destruct (Hev name arguments).
Qed.

Lemma GeminiService_run (query : pystr) (available_tools : list tool)
    (previous_messages : option loc) (w : world) :
  valid_ref w previous_messages ->
  forall r w',
    GeminiService_process_query query available_tools previous_messages w = (r, w') ->
    tool_calls_in (trace w') = tool_calls_in (trace w)
    /\ ((heap w' = heap w /\ exists e, r = Raise e)
        \/ (heap w' = heap w ++ [prior_messages w previous_messages ++ [user_message query]]
            /\ forall text messages, r = Return (text, messages) ->
                 messages = length (heap w))).
Proof.
  intros Hvalid r w'. unfold GeminiService_process_query, bind, lift, external.
  destruct (_convert_tools_to_gemini_format available_tools) as [gemini_tools|e].
  2:{ intros [= <- <-]. split; [reflexivity|]. left. eauto. }
  assert (read_optional previous_messages w
          = (Return (prior_messages w previous_messages), w)) as ->
    by now destruct previous_messages.
  cbn. destruct (gemini_chats_create _ _ _) as [[chat|e] x]; cbn.
  2:{ intros [= <- <-]. cbn. split; [now apply tool_calls_in_quiet|]. left. eauto. }
  assert (forall t, read_optional previous_messages
                      {| heap := heap w; ext := x; trace := t |}
          = (Return (prior_messages w previous_messages),
             {| heap := heap w; ext := x; trace := t |})) as ->
    by now destruct previous_messages.
  cbn. rewrite list_at_new, insert_new.
  assert (tool_calls_in ((trace w ++ [EvVendor (codes "gemini")])
                         ++ [EvVendor (codes "gemini")]) = tool_calls_in (trace w)) as Hquiet
    by now rewrite !tool_calls_in_quiet.
  destruct (gemini_send_message _ _ _) as [[response|e] x']; cbn.
  2:{ intros [= <- <-]. split; [exact Hquiet|]. right. split; [reflexivity|discriminate]. }
  destruct (gemini_final_text response) as [final_text|e]; cbn.
  - intros [= <- <-]. split; [exact Hquiet|]. right. split; [reflexivity|].
    now intros ? ? [= <- <-].
  - intros [= <- <-]. split; [exact Hquiet|]. right. split; [reflexivity|discriminate].
Qed.

(** What every adapter does to the heap and to the tool server: it calls
    no tool; it leaves every list that was there as it was; unless it
    raises before ([heap w' = heap w]) it adds one list, which holds the
    previous messages, then the user message, then [extension]; and the
    list it returns is that new one. *)
Lemma adapter_effect (s : service) (query : pystr) (available_tools : list tool)
    (previous_messages : option loc) (w : world) (r : outcome (pystr * loc)) (w' : world) :
  valid_ref w previous_messages ->
  llm_process_query s query available_tools previous_messages w = (r, w') ->
  tool_calls_in (trace w') = tool_calls_in (trace w)
  /\ ((heap w' = heap w /\ exists e, r = Raise e)
      \/ exists extension,
           heap w' = heap w ++ [prior_messages w previous_messages
                                ++ user_message query :: extension]
           /\ (forall text messages, r = Return (text, messages) ->
                 messages = length (heap w))
           /\ (extension = []
               \/ s = OpenAIService
                  /\ exists m, extension = [m] /\ role m = codes "assistant")).
Proof.
  intros Hvalid. destruct s; cbn [llm_process_query].
  - rewrite AnthropicService_run by exact Hvalid. cbn.
    destruct (anthropic_messages_create _ _ _) as [[response_content|e] x];
      [destruct (anthropic_final_text response_content)|];
      intros [= <- <-]; cbn;
      (split; [now apply tool_calls_in_quiet|]); right; exists [];
      (split; [reflexivity|]); (split; [|now left]).
    + now intros ? ? [= <- <-].
    + discriminate.
    + discriminate.
  - destruct (OpenAIService_run query available_tools previous_messages w Hvalid)
      as (r0 & extension & -> & Hext & Hr0).
    intros [= <- <-]. cbn. split; [now apply tool_calls_in_quiet|].
    right. exists extension. split; [reflexivity|]. split.
    + intros text messages Hr. now destruct (Hr0 text messages Hr).
    + destruct Hext as [->|Hm]; [now left|now right].
  - intros Hrun. destruct (GeminiService_run _ _ _ _ Hvalid _ _ Hrun) as [Htrace [H|[Hheap Hret]]].
    + split; [exact Htrace|]. now left.
    + split; [exact Htrace|]. right. exists []. split; [exact Hheap|]. split; [exact Hret|now left].
Qed.

(** ** What [json.loads] raises *)

Lemma scanned_map_catchable {A B : Type} (f : A -> B) (r : scanned A) :
  catchable r -> catchable (scanned_map f r).
Proof. now destruct r. Qed.

#[local] Ltac cases IH :=
  repeat first
    [ exact I
    | reflexivity
    | apply scanned_map_catchable
    | apply IH
    | match goal with
      | |- context [if ?b then _ else _] => destruct b
      | |- context [match ?x with _ => _ end] => destruct x
      end ].

Lemma scanstring_catchable (fuel : nat) : forall s, catchable (scanstring fuel s).
Proof.
  induction fuel as [|fuel IH]; intros s; cbn [scanstring]; [reflexivity|].
  cases IH.
Qed.

Lemma match_number_catchable (s : pystr) : catchable (match_number s).
Proof. unfold match_number, match_digits. cases I. Qed.

Lemma parse_members_catchable (value : pystr -> scanned pyval) :
  (forall s, catchable (value s)) ->
  forall fuel s, catchable (parse_members value fuel s).
Proof.
  intros Hvalue. induction fuel as [|fuel IH]; intros s; cbn [parse_members]; [reflexivity|].
  destruct s as [|q r]; [reflexivity|]. destruct (q =? DQUOTE); [|reflexivity].
  pose proof (scanstring_catchable (length r) r) as Hkey.
  destruct (scanstring (length r) r) as [key r1|e]; [|exact Hkey].
  destruct (skip_ws r1) as [|colon r2]; [reflexivity|].
  destruct (colon =? chr ":"); [|reflexivity].
  pose proof (Hvalue (skip_ws r2)) as Hv.
  destruct (value (skip_ws r2)) as [v r3|e]; [|exact Hv].
  cases IH.
Qed.

Lemma parse_elements_catchable (value : pystr -> scanned pyval) :
  (forall s, catchable (value s)) ->
  forall fuel s, catchable (parse_elements value fuel s).
Proof.
  intros Hvalue. induction fuel as [|fuel IH]; intros s; cbn [parse_elements]; [reflexivity|].
  pose proof (Hvalue s) as Hv. destruct (value s) as [v r1|e]; [|exact Hv].
  cases IH.
Qed.

Lemma scan_once_catchable (depth : nat) : forall s, catchable (scan_once depth s).
Proof.
  induction depth as [|depth IH]; intros s; cbn [scan_once];
    (destruct s as [|c r]; [reflexivity|]);
    (destruct (c =? DQUOTE);
     [apply scanned_map_catchable, scanstring_catchable|]);
    (destruct (c =? chr "{"); [|destruct (c =? chr "[")]);
    try reflexivity;
    try (destruct (match_literal _) as [[v rest]|]; [exact I|apply match_number_catchable]).
  - unfold parse_object. destruct (skip_ws r) as [|c' r']; [reflexivity|].
    destruct (c' =? chr "}"); [exact I|].
    apply scanned_map_catchable, parse_members_catchable, IH.
  - unfold parse_array. destruct (skip_ws r) as [|c' r']; [reflexivity|].
    destruct (c' =? chr "]"); [exact I|].
    apply scanned_map_catchable, parse_elements_catchable, IH.
Qed.

Lemma json_loads_raises_Exception (depth : nat) (s : pystr) (e : exn) :
  json_loads depth s = Raise e -> is_Exception e = true.
Proof.
  unfold json_loads. pose proof (scan_once_catchable depth (skip_ws s)) as H.
  destruct (scan_once depth (skip_ws s)) as [v rest|e']; cbn in H.
  - destruct (skip_ws rest); [discriminate|now intros [= <-]].
  - now intros [= <-].
Qed.

(** ** What the mediator does *)

Lemma parse_tool_args_total (tool_args_str : pystr) :
  parse_tool_args tool_args_str = ret (tool_args_of tool_args_str).
Proof.
  unfold parse_tool_args, tool_args_of.
  destruct (json_loads _ _) as [v|e] eqn:H; [reflexivity|].
  now rewrite (json_loads_raises_Exception _ _ _ H).
Qed.

Lemma tool_calls_in_calls (matches : list (pystr * pystr)) :
  tool_calls_in (map call_of matches) = map invocation_of matches.
Proof. induction matches as [|m rest IH]; [reflexivity|]. cbn [map]. now rewrite <- IH. Qed.

(** The mediator leaves the heap alone; it calls the tools of the matches
    from the first on, one call per match, until a call raises or the
    matches are used up; when it returns, every match has had its call and
    the text has one segment per match, in their order. *)
Lemma mediate_run (matches : list (pystr * pystr)) :
  forall (response_text : pystr) (w : world) (r : outcome pystr) (w' : world),
    mediate matches response_text w = (r, w') ->
    heap w' = heap w
    /\ match r with
       | Return text =>
           length (results_of matches (ext w)) = length matches
           /\ text = response_text ++ segments (results_of matches (ext w))
           /\ trace w' = trace w ++ map call_of matches
       | Raise _ =>
           (length (results_of matches (ext w)) < length matches)%nat
           /\ trace w' = trace w ++ map call_of
                                      (take (S (length (results_of matches (ext w)))) matches)
       end.
Proof.
  induction matches as [|[tool_name tool_args_str] rest IH]; intros text w r w'.
  - cbn. intros [= <- <-]. split; [reflexivity|]. cbn. now rewrite !app_nil_r.
  - cbn [mediate results_of fst snd]. rewrite parse_tool_args_total.
    unfold bind at 1. cbn [ret]. unfold bind, call_tool, external.
    destruct (session_call_tool _ _ _) as [[result|e] x].
    + intros Hrest. apply IH in Hrest as [Hheap Hr]. cbn in Hheap, Hr.
      split; [exact Hheap|].
      destruct r as [text'|e].
      * destruct Hr as (Hlen & Htext & Htrace). cbn. split; [now rewrite Hlen|].
        split.
        -- rewrite Htext.
           change (segments (result :: ?rs)) with (result_segment result ++ segments rs).
           unfold result_segment. now rewrite <- app_assoc.
        -- rewrite Htrace, <- app_assoc. reflexivity.
      * destruct Hr as (Hlen & Htrace). cbn. split; [lia|].
        rewrite Htrace, <- app_assoc. reflexivity.
    + intros [= <- <-]. cbn. split; [reflexivity|]. split; [lia|].
      now rewrite take_0.
Qed.

(** ** What [findall] finds *)

Lemma strip_prefix_Some (p : pystr) : forall s r, strip_prefix p s = Some r -> s = p ++ r.
Proof.
  induction p as [|a p IH]; intros s r; cbn.
  - now intros [= ->].
  - destruct s as [|b s]; [discriminate|].
    destruct (N.eqb_spec a b) as [->|]; [|discriminate].
    intros H. now rewrite (IH _ _ H).
Qed.

Lemma strip_prefix_app (p r : pystr) : strip_prefix p (p ++ r) = Some r.
Proof. induction p as [|a p IH]; cbn; [reflexivity|]. now rewrite N.eqb_refl. Qed.

Lemma span_app (f : N -> bool) (s : pystr) : s = fst (span f s) ++ snd (span f s).
Proof.
  induction s as [|c s IH]; cbn; [reflexivity|].
  destruct (f c); [|reflexivity]. destruct (span f s) as [a b]. cbn in *. now rewrite IH at 1.
Qed.

Lemma lazy_to_bracket_Some (s : pystr) :
  forall a rest, lazy_to_bracket s = Some (a, rest) -> s = a ++ chr "]" :: rest.
Proof.
  induction s as [|c s IH]; intros a rest; cbn; [discriminate|].
  destruct (N.eqb_spec c (chr "]")) as [->|]; [now intros [= <- <-]|].
  destruct (c =? 10); [discriminate|].
  destruct (lazy_to_bracket s) as [[a' rest']|]; [|discriminate].
  intros [= <- <-]. cbn. now rewrite (IH _ _ eq_refl) at 1.
Qed.

Lemma match_here_text (s name args rest : pystr) :
  match_here s = Some ((name, args), rest) -> s = marker_text name args ++ rest.
Proof.
  unfold match_here, marker_text.
  destruct (strip_prefix (codes "[Tool call: ") s) as [r1|] eqn:H1; [|discriminate].
  apply strip_prefix_Some in H1 as ->.
  pose proof (span_app name_char r1) as Hspan.
  destruct (span name_char r1) as [nm r2]. cbn in Hspan.
  destruct nm as [|c0 nm]; [discriminate|].
  destruct (strip_prefix (codes " with args ") r2) as [r3|] eqn:H3; [|discriminate].
  apply strip_prefix_Some in H3 as ->.
  destruct r3 as [|c r3]; [discriminate|].
  destruct (c =? 10); [discriminate|].
  destruct (lazy_to_bracket r3) as [[a rest']|] eqn:H4; [|discriminate].
  apply lazy_to_bracket_Some in H4 as ->.
  intros [= <- <- <-]. rewrite Hspan.
  change (codes "]") with [chr "]"].
  rewrite <- ?app_assoc. cbn [app]. rewrite <- ?app_assoc. reflexivity.
Qed.


Lemma span_prefix (f : N -> bool) (a b : pystr) :
  forallb f a = true ->
  match b with c :: _ => f c = false | [] => True end ->
  span f (a ++ b) = (a, b).
Proof.
  intros Ha Hb. induction a as [|c a IH]; cbn in *.
  - destruct b as [|c b]; cbn; [reflexivity|]. now rewrite Hb.
  - apply andb_prop in Ha as [-> Ha]. now rewrite IH.
Qed.

Lemma lazy_to_bracket_plain (a rest : pystr) :
  forallb (fun c => negb (c =? chr "]") && negb (c =? 10)) a = true ->
  lazy_to_bracket (a ++ chr "]" :: rest) = Some (a, rest).
Proof.
  induction a as [|c a IH]; cbn.
  - intros _. now rewrite N.eqb_refl.
  - intros H. apply andb_prop in H as [Hc Ha]. rewrite (IH Ha).
    now destruct (c =? chr "]"), (c =? 10).
Qed.

Lemma match_here_marker (name c a rest : pystr) (c0 : N) :
  name <> [] -> forallb name_char name = true ->
  forallb (fun c => negb (c =? chr "]") && negb (c =? 10)) a = true ->
  (c0 =? 10) = false ->
  match_here (marker_text name (c0 :: a) ++ rest) = Some ((name, c0 :: a), rest).
Proof.
  intros Hne Hname Ha Hc0. unfold match_here, marker_text.
  rewrite <- !app_assoc, strip_prefix_app.
  rewrite span_prefix; [|exact Hname|reflexivity].
  destruct name as [|n0 name]; [congruence|].
  rewrite strip_prefix_app. cbn [app]. rewrite Hc0.
  change (codes "]" ++ rest) with (chr "]" :: rest).
  now rewrite lazy_to_bracket_plain.
Qed.

Lemma span_forallb (f : N -> bool) (s : pystr) : forallb f (fst (span f s)) = true.
Proof.
  induction s as [|c s IH]; [reflexivity|]. cbn. destruct (f c) eqn:Hc; [|reflexivity].
  destruct (span f s). cbn in *. now rewrite Hc.
Qed.

Lemma lazy_to_bracket_run (s : pystr) :
  forall a rest, lazy_to_bracket s = Some (a, rest) ->
    forallb (fun c => negb (c =? chr "]") && negb (c =? 10)) a = true.
Proof.
  induction s as [|c s IH]; intros a rest; cbn [lazy_to_bracket]; [discriminate|].
  destruct (c =? chr "]") eqn:Hbracket; [now intros [= <- _]|].
  destruct (c =? 10) eqn:Hnewline; [discriminate|].
  destruct (lazy_to_bracket s) as [[a' rest']|]; [|discriminate].
  intros [= <- _]. cbn. rewrite Hbracket, Hnewline. now apply (IH a' rest').
Qed.

Lemma match_here_shape (s rest : pystr) (groups : pystr * pystr) :
  match_here s = Some (groups, rest) -> well_shaped groups.
Proof.
  unfold match_here, well_shaped.
  destruct (strip_prefix (codes "[Tool call: ") s) as [r1|]; [|discriminate].
  pose proof (span_forallb name_char r1) as Hname.
  destruct (span name_char r1) as [name r2]. cbn [fst] in Hname.
  destruct name as [|n name]; [discriminate|].
  destruct (strip_prefix (codes " with args ") r2) as [[|c r3]|]; try discriminate.
  destruct (c =? 10) eqn:Hc; [discriminate|].
  destruct (lazy_to_bracket r3) as [[a rest']|] eqn:Hlazy; [|discriminate].
  intros [= <- _]. cbn [fst snd]. split; [discriminate|]. split; [exact Hname|].
  exists c, a. split; [reflexivity|]. split; [now apply N.eqb_neq|].
  now apply lazy_to_bracket_run in Hlazy.
Qed.

(** *** [findall] against the documented matches *)

(** [match_here] decides whether a marker begins the text, and gives its
    groups. *)
Lemma match_here_head (s : pystr) :
  match match_here s with
  | Some ((name, args), rest) => well_shaped (name, args) /\ s = marker_text name args ++ rest
  | None => ~ marker_at_head s
  end.
Proof.
  destruct (match_here s) as [[[name args] rest]|] eqn:Hmatch.
  - split; [exact (match_here_shape _ _ _ Hmatch)|exact (match_here_text _ _ _ _ Hmatch)].
  - intros (name & args & rest & (Hne & Hname & c & a & Hargs & Hc & Ha) & ->).
    cbn [fst snd] in *. subst args.
    rewrite (match_here_marker name [] a rest c) in Hmatch; try assumption; [discriminate|].
    now apply N.eqb_neq.
Qed.

(** ** The scanners are given enough steps

    [findall], [scanstring], [parse_members] and [parse_elements] recurse
    on a number of steps, which the program takes to be the length of the
    text.  Every step consumes at least one character, so that more steps
    than the length of the text change nothing. *)

Lemma match_here_consumes (s rest : pystr) (groups : pystr * pystr) :
  match_here s = Some (groups, rest) -> (length rest < length s)%nat.
Proof.
  destruct groups as [name args]. intros H. apply match_here_text in H as ->.
  unfold marker_text. rewrite !length_app.
  change (length (codes "]")) with 1%nat. lia.
Qed.

Lemma findall_from_more_fuel (fuel1 : nat) :
  forall fuel2 s, (length s <= fuel1)%nat -> (length s <= fuel2)%nat ->
    findall_from fuel1 s = findall_from fuel2 s.
Proof.
  induction fuel1 as [|fuel1 IH]; intros fuel2 s H1 H2.
  - destruct s; [|cbn in H1; lia]. now destruct fuel2.
  - destruct fuel2 as [|fuel2]; [destruct s; [reflexivity|cbn in H2; lia]|].
    cbn [findall_from]. destruct s as [|c r]; [reflexivity|].
    destruct (match_here (c :: r)) as [[groups rest]|] eqn:Hm.
    + apply match_here_consumes in Hm. f_equal. apply IH; lia.
    + cbn in H1, H2. apply IH; lia.
Qed.

(** [findall] never runs out of steps: more fuel finds the same matches. *)
Lemma findall_fuel_is_enough (fuel : nat) (s : pystr) :
  (length s <= fuel)%nat -> findall_from fuel s = findall s.
Proof. intros H. now apply findall_from_more_fuel. Qed.

(** [findall] gives the documented matches, and nothing else does. *)
Lemma findall_from_matches (fuel : nat) :
  forall s, (length s <= fuel)%nat -> matches_of s (findall_from fuel s).
Proof.
  induction fuel as [|fuel IH]; intros s Hfuel.
  - destruct s; [constructor|cbn in Hfuel; lia].
  - destruct s as [|c s]; [constructor|]. cbn [findall_from].
    pose proof (match_here_head (c :: s)) as Hhead.
    destruct (match_here (c :: s)) as [[[name args] rest]|] eqn:Hmatch.
    + destruct Hhead as [Hshape Htext]. rewrite Htext. constructor; [exact Hshape|].
      apply IH. apply match_here_consumes in Hmatch. cbn in *. lia.
    + constructor; [exact Hhead|]. apply IH. cbn in Hfuel. lia.
Qed.

Lemma findall_matches (s : pystr) : matches_of s (findall s).
Proof. now apply findall_from_matches. Qed.

Lemma matches_of_findall (s : pystr) (ms : list (pystr * pystr)) :
  matches_of s ms -> findall s = ms.
Proof.
  induction 1 as [|c s ms Hhead _ IH|name args rest ms Hshape _ IH].
  - reflexivity.
  - unfold findall. cbn [length findall_from].
    pose proof (match_here_head (c :: s)) as Hmatch.
    destruct (match_here (c :: s)) as [[[name args] rest]|].
    + destruct Hmatch as [Hshape Htext]. destruct Hhead. now exists name, args, rest.
    + exact IH.
  - destruct Hshape as (Hne & Hname & c & a & Hargs & Hc & Ha). cbn [fst snd] in *.
    subst args.
    pose proof (match_here_marker name [] a rest c Hne Hname Ha
                  (proj2 (N.eqb_neq c 10) Hc)) as Hmatch.
    unfold findall.
    destruct (marker_text name (c :: a) ++ rest) as [|m text] eqn:Htext; [discriminate|].
    cbn [length findall_from]. rewrite Hmatch. f_equal.
    rewrite <- IH. apply findall_fuel_is_enough.
    apply match_here_consumes in Hmatch. cbn in Hmatch. lia.
Qed.

(** A text in which no marker lies has no match. *)
Lemma matches_of_no_marker (s : pystr) (ms : list (pystr * pystr)) :
  matches_of s ms -> ~ has_marker s -> ms = [].
Proof.
  induction 1 as [|c s ms _ _ IH|name args rest ms Hshape _ _]; intros Hnone.
  - reflexivity.
  - apply IH. intros (before & after & -> & Hhead). apply Hnone.
    now exists (c :: before), after.
  - destruct Hnone. exists [], (marker_text name args ++ rest). split; [reflexivity|].
    now exists name, args, rest.
Qed.

Lemma hex4_rest (s r : pystr) (v : N) :
  hex4 s = Some (v, r) -> length s = S (S (S (S (length r)))).
Proof.
  destruct s as [|a [|b [|c [|d s]]]]; try discriminate. cbn.
  destruct (hex_value a), (hex_value b), (hex_value c), (hex_value d); try discriminate.
  now intros [= _ <-].
Qed.

Lemma strip_prefix_rest (p s r : pystr) :
  strip_prefix p s = Some r -> (length r <= length s)%nat.
Proof. intros H. apply strip_prefix_Some in H as ->. rewrite length_app. lia. Qed.

Lemma scanstring_more_fuel (fuel1 : nat) :
  forall fuel2 s, (length s <= fuel1)%nat -> (length s <= fuel2)%nat ->
    scanstring fuel1 s = scanstring fuel2 s.
Proof.
  induction fuel1 as [|fuel1 IH]; intros fuel2 s H1 H2.
  - destruct s; [|cbn in H1; lia]. now destruct fuel2.
  - destruct fuel2 as [|fuel2]; [destruct s; [reflexivity|cbn in H2; lia]|].
    cbn [scanstring]. destruct s as [|c r]; [reflexivity|]. cbn [length] in *.
    destruct (c =? DQUOTE); [reflexivity|]. destruct (c =? BACKSLASH).
    + destruct r as [|e r']; [reflexivity|]. cbn [length] in *. destruct (e =? chr "u").
      * destruct (hex4 r') as [[u1 r1]|] eqn:Hh; [|reflexivity]. apply hex4_rest in Hh.
        destruct (is_high_surrogate u1).
        -- destruct (strip_prefix (codes "\u") r1) as [r2|] eqn:Hs.
           ++ apply strip_prefix_rest in Hs.
              destruct (hex4 r2) as [[u2 r3]|] eqn:Hh2; [|reflexivity].
              apply hex4_rest in Hh2.
              destruct (is_low_surrogate u2); f_equal; apply IH; lia.
           ++ f_equal; apply IH; lia.
        -- f_equal; apply IH; lia.
      * destruct (simple_escape e); [f_equal; apply IH; lia|reflexivity].
    + destruct (c <? 32); [reflexivity|]. f_equal. apply IH; lia.
Qed.

Lemma scanned_map_Scanned {A B : Type} (g : A -> B) (r : scanned A) (b : B) (rest : pystr) :
  scanned_map g r = Scanned b rest -> exists a, r = Scanned a rest /\ b = g a.
Proof. destruct r as [a rest'|e]; [|discriminate]. intros [= <- <-]. eauto. Qed.

Lemma scanstring_consumes (fuel : nat) :
  forall s a rest, scanstring fuel s = Scanned a rest -> (length rest < length s)%nat.
Proof.
  induction fuel as [|fuel IH]; intros s a rest; cbn [scanstring]; [discriminate|].
  destruct s as [|c r]; [discriminate|]. cbn [length].
  destruct (c =? DQUOTE); [intros [= _ <-]; lia|]. destruct (c =? BACKSLASH).
  - destruct r as [|e r']; [discriminate|]. cbn [length]. destruct (e =? chr "u").
    + destruct (hex4 r') as [[u1 r1]|] eqn:Hh; [|discriminate]. apply hex4_rest in Hh.
      destruct (is_high_surrogate u1).
      * destruct (strip_prefix (codes "\u") r1) as [r2|] eqn:Hs.
        -- apply strip_prefix_rest in Hs.
           destruct (hex4 r2) as [[u2 r3]|] eqn:Hh2; [|discriminate].
           apply hex4_rest in Hh2.
           destruct (is_low_surrogate u2); intros H;
             apply scanned_map_Scanned in H as (a' & H & _); apply IH in H; lia.
        -- intros H. apply scanned_map_Scanned in H as (a' & H & _). apply IH in H. lia.
      * intros H. apply scanned_map_Scanned in H as (a' & H & _). apply IH in H. lia.
    + destruct (simple_escape e); [|discriminate].
      intros H. apply scanned_map_Scanned in H as (a' & H & _). apply IH in H. lia.
  - destruct (c <? 32); [discriminate|].
    intros H. apply scanned_map_Scanned in H as (a' & H & _). apply IH in H. lia.
Qed.

Lemma span_rest (f : N -> bool) (s : pystr) : (length (snd (span f s)) <= length s)%nat.
Proof. rewrite (span_app f s) at 2. rewrite length_app. lia. Qed.

Lemma skip_ws_rest (s : pystr) : (length (skip_ws s) <= length s)%nat.
Proof.
  induction s as [|c s IH]; cbn; [lia|]. destruct (is_json_ws c); cbn; lia.
Qed.

Lemma match_frac_rest (s : pystr) : (length (snd (match_frac s)) <= length s)%nat.
Proof.
  unfold match_frac. destruct s as [|dot [|d r]]; cbn [snd]; try lia.
  destruct (_ && _); cbn [snd]; [|lia].
  pose proof (span_rest is_digit r). destruct (span is_digit r). cbn in *. lia.
Qed.

Lemma match_exp_rest (s : pystr) : (length (snd (match_exp s)) <= length s)%nat.
Proof.
  unfold match_exp. destruct s as [|e r]; cbn [snd]; [lia|].
  destruct (_ || _); cbn [snd]; [|lia].
  match goal with
  | |- context [let '(_, _) := ?p in _] =>
      assert (length (snd p) <= length r)%nat as Hsign
        by (destruct r as [|sg r']; [|destruct (_ || _)]; cbn; lia);
      destruct p as [sign r1]
  end.
  destruct r1 as [|d r2]; cbn [snd length] in *; [lia|].
  destruct (is_digit d); cbn [snd length]; [|lia].
  pose proof (span_rest is_digit r2). destruct (span is_digit r2). cbn in *. lia.
Qed.

Lemma number_tail_consumes (neg : bool) (ds r1 rest : pystr) (v : pyval) :
  (let '(frac, r2) := match_frac r1 in
   let '(ex, r3) := match_exp r2 in
   match frac ++ ex with
   | [] =>
       if bool_decide (length ds <= int_max_str_digits)%nat
       then Scanned (PInt (if neg then Z.opp (Z.of_N (digits_value ds))
                           else Z.of_N (digits_value ds))) r3
       else Failed ValueError
   | _ :: _ => Scanned (PFloat ((if neg then [chr "-"] else []) ++ ds ++ frac ++ ex)) r3
   end) = Scanned v rest ->
  (length rest <= length r1)%nat.
Proof.
  pose proof (match_frac_rest r1) as Hf. destruct (match_frac r1) as [frac r2].
  pose proof (match_exp_rest r2) as He. destruct (match_exp r2) as [ex r3].
  cbn [snd] in *.
  destruct (frac ++ ex); [destruct (bool_decide _); [|discriminate]|];
    intros [= _ <-]; lia.
Qed.

Lemma match_digits_consumes (neg : bool) (s rest : pystr) (v : pyval) :
  match_digits neg s = Scanned v rest -> (length rest < length s)%nat.
Proof.
  unfold match_digits. destruct s as [|c r]; [discriminate|]. cbn [length].
  destruct (c =? chr "0").
  - intros H. apply number_tail_consumes in H. lia.
  - destruct (is_digit c); [|discriminate].
    pose proof (span_rest is_digit r) as Hint. destruct (span is_digit r) as [ds r'].
    intros H. apply number_tail_consumes in H. cbn [snd] in Hint. lia.
Qed.

Lemma match_number_consumes (s rest : pystr) (v : pyval) :
  match_number s = Scanned v rest -> (length rest < length s)%nat.
Proof.
  unfold match_number. destruct s as [|c r]; [discriminate|].
  destruct (c =? chr "-"); intros H; apply match_digits_consumes in H; cbn in *; lia.
Qed.

Lemma match_literal_consumes (s rest : pystr) (v : pyval) :
  match_literal s = Some (v, rest) -> (length rest < length s)%nat.
Proof.
  unfold match_literal.
  repeat match goal with
    | |- context [strip_prefix ?p s] =>
        let H := fresh "H" in
        destruct (strip_prefix p s) eqn:H;
        [apply strip_prefix_Some in H; intros [= _ <-]; subst s; rewrite length_app;
         vm_compute (length (codes _)); lia|]
    end.
  discriminate.
Qed.

(** A scanner of values that takes at least one character when it
    succeeds. *)
Definition consuming (value : pystr -> scanned pyval) : Prop :=
  forall s v rest, value s = Scanned v rest -> (length rest < length s)%nat.

Lemma parse_members_consumes (value : pystr -> scanned pyval) (fuel : nat) :
  consuming value ->
  forall s items rest,
    parse_members value fuel s = Scanned items rest -> (length rest < length s)%nat.
Proof.
  intros Hvalue. induction fuel as [|fuel IH]; intros s items rest; cbn [parse_members];
    [discriminate|].
  destruct s as [|q r]; [discriminate|]. destruct (q =? DQUOTE); [|discriminate].
  destruct (scanstring (length r) r) as [key r1|e] eqn:Hkey; [|discriminate].
  apply scanstring_consumes in Hkey. pose proof (skip_ws_rest r1) as Hws1.
  destruct (skip_ws r1) as [|colon r2]; [discriminate|].
  destruct (colon =? chr ":"); [|discriminate].
  pose proof (skip_ws_rest r2) as Hws2.
  destruct (value (skip_ws r2)) as [v r3|e] eqn:Hv; [|discriminate].
  apply Hvalue in Hv. pose proof (skip_ws_rest r3) as Hws3.
  destruct (skip_ws r3) as [|c r4]; [discriminate|]. cbn [length] in *.
  destruct (c =? chr "}"); [intros [= _ <-]; lia|].
  destruct (c =? chr ","); [|discriminate].
  intros H. apply scanned_map_Scanned in H as (items' & H & _). apply IH in H.
  pose proof (skip_ws_rest r4). lia.
Qed.

Lemma parse_members_more_fuel (value : pystr -> scanned pyval) (fuel1 : nat) :
  consuming value ->
  forall fuel2 s, (length s <= fuel1)%nat -> (length s <= fuel2)%nat ->
    parse_members value fuel1 s = parse_members value fuel2 s.
Proof.
  intros Hvalue. induction fuel1 as [|fuel1 IH]; intros fuel2 s H1 H2.
  - destruct s; [|cbn in H1; lia]. now destruct fuel2.
  - destruct fuel2 as [|fuel2]; [destruct s; [reflexivity|cbn in H2; lia]|].
    cbn [parse_members]. destruct s as [|q r]; [reflexivity|].
    destruct (q =? DQUOTE); [|reflexivity].
    destruct (scanstring (length r) r) as [key r1|e] eqn:Hkey; [|reflexivity].
    apply scanstring_consumes in Hkey. pose proof (skip_ws_rest r1) as Hws1.
    destruct (skip_ws r1) as [|colon r2]; [reflexivity|].
    destruct (colon =? chr ":"); [|reflexivity].
    pose proof (skip_ws_rest r2) as Hws2.
    destruct (value (skip_ws r2)) as [v r3|e] eqn:Hv; [|reflexivity].
    apply Hvalue in Hv. pose proof (skip_ws_rest r3) as Hws3.
    destruct (skip_ws r3) as [|c r4]; [reflexivity|]. cbn [length] in *.
    destruct (c =? chr "}"); [reflexivity|].
    destruct (c =? chr ","); [|reflexivity].
    pose proof (skip_ws_rest r4). f_equal. apply IH; lia.
Qed.

Lemma parse_elements_consumes (value : pystr -> scanned pyval) (fuel : nat) :
  consuming value ->
  forall s items rest,
    parse_elements value fuel s = Scanned items rest -> (length rest < length s)%nat.
Proof.
  intros Hvalue. induction fuel as [|fuel IH]; intros s items rest; cbn [parse_elements];
    [discriminate|].
  destruct (value s) as [v r1|e] eqn:Hv; [|discriminate]. apply Hvalue in Hv.
  pose proof (skip_ws_rest r1) as Hws1.
  destruct (skip_ws r1) as [|c r2]; [discriminate|]. cbn [length] in *.
  destruct (c =? chr "]"); [intros [= _ <-]; lia|].
  destruct (c =? chr ","); [|discriminate].
  intros H. apply scanned_map_Scanned in H as (items' & H & _). apply IH in H.
  pose proof (skip_ws_rest r2). lia.
Qed.

Lemma parse_elements_more_fuel (value : pystr -> scanned pyval) (fuel1 : nat) :
  consuming value -> value [] = Failed JSONDecodeError ->
  forall fuel2 s, (length s <= fuel1)%nat -> (length s <= fuel2)%nat ->
    parse_elements value fuel1 s = parse_elements value fuel2 s.
Proof.
  intros Hvalue Hempty. induction fuel1 as [|fuel1 IH]; intros fuel2 s H1 H2.
  - destruct s; [|cbn in H1; lia]. destruct fuel2; [reflexivity|].
    cbn. now rewrite Hempty.
  - destruct fuel2 as [|fuel2].
    { destruct s; [|cbn in H2; lia]. cbn. now rewrite Hempty. }
    cbn [parse_elements].
    destruct (value s) as [v r1|e] eqn:Hv; [|reflexivity]. apply Hvalue in Hv.
    pose proof (skip_ws_rest r1) as Hws1.
    destruct (skip_ws r1) as [|c r2]; [reflexivity|]. cbn [length] in *.
    destruct (c =? chr "]"); [reflexivity|].
    destruct (c =? chr ","); [|reflexivity].
    pose proof (skip_ws_rest r2). f_equal. apply IH; lia.
Qed.

Lemma scan_once_consumes (depth : nat) : consuming (scan_once depth).
Proof.
  induction depth as [|depth IH]; intros s v rest; cbn [scan_once];
    (destruct s as [|c r]; [discriminate|]);
    (destruct (c =? DQUOTE);
     [intros H; apply scanned_map_Scanned in H as (a & H & _);
      apply scanstring_consumes in H; cbn; lia|]);
    (destruct (c =? chr "{"); [|destruct (c =? chr "[")]);
    try discriminate;
    try (destruct (match_literal (c :: r)) as [[v' rest']|] eqn:Hl;
         [intros [= _ <-]; now apply match_literal_consumes in Hl
         |apply match_number_consumes]).
  - unfold parse_object. pose proof (skip_ws_rest r) as Hws.
    destruct (skip_ws r) as [|c' r']; [discriminate|]. cbn [length] in *.
    destruct (c' =? chr "}"); [intros [= _ <-]; lia|].
    intros H. apply scanned_map_Scanned in H as (items & H & _).
    apply parse_members_consumes in H; [cbn in *; lia|exact IH].
  - unfold parse_array. pose proof (skip_ws_rest r) as Hws.
    destruct (skip_ws r) as [|c' r']; [discriminate|]. cbn [length] in *.
    destruct (c' =? chr "]"); [intros [= _ <-]; lia|].
    intros H. apply scanned_map_Scanned in H as (items & H & _).
    apply parse_elements_consumes in H; [cbn in *; lia|exact IH].
Qed.

(** The decoder never runs out of steps: with more fuel than the length of
    the text, a string, the members of an object and the elements of an
    array are scanned the same. *)
Lemma decoder_fuel_is_enough (depth fuel : nat) (s : pystr) :
  (length s <= fuel)%nat ->
  scanstring fuel s = scanstring (length s) s
  /\ parse_members (scan_once depth) fuel s = parse_members (scan_once depth) (length s) s
  /\ parse_elements (scan_once depth) fuel s = parse_elements (scan_once depth) (length s) s.
Proof.
  intros H. split; [now apply scanstring_more_fuel|]. split.
  - apply parse_members_more_fuel; [apply scan_once_consumes|exact H|lia].
  - apply parse_elements_more_fuel; [apply scan_once_consumes| |exact H|lia].
    now destruct depth.
Qed.

(** ** A query, from the tool list to the mediator *)

Lemma list_tools_run (w : world) :
  list_tools w
  = (fst (session_list_tools (ext w)),
     {| heap := heap w; ext := snd (session_list_tools (ext w));
        trace := trace w ++ [EvListTools] |}).
Proof. unfold list_tools, external. now destruct (session_list_tools (ext w)). Qed.

(** The three stages of a query that reaches the mediator. *)
Lemma MCPClient_process_query_returns (self : MCPClient) (query : pystr)
    (previous_messages : option loc) (w w' : world) (text : pystr) (messages : loc) :
  MCPClient_process_query self query previous_messages w = (Return (text, messages), w') ->
  exists response w0 adapter_text w1,
    list_tools w = (Return response, w0)
    /\ llm_process_query (llm_service self) query (available_tools_of response)
         previous_messages w0 = (Return (adapter_text, messages), w1)
    /\ mediate (findall adapter_text) adapter_text w1 = (Return text, w').
Proof.
  unfold MCPClient_process_query. destruct (session self); [|discriminate]. cbn [negb].
  unfold bind at 1. destruct (list_tools w) as [[response|e] w0] eqn:Htools; [|discriminate].
  unfold bind at 1.
  destruct (llm_process_query _ _ _ _ w0) as [[[adapter_text messages']|e] w1] eqn:Hllm;
    [|discriminate].
  unfold bind, ret.
  destruct (mediate _ _ w1) as [[text'|e] w2] eqn:Hmediate; [|discriminate].
  intros [= <- <- <-]. now exists response, w0, adapter_text, w1.
Qed.

(** A query adds lists to the heap and changes none. *)
Lemma MCPClient_process_query_frame (self : MCPClient) (query : pystr)
    (previous_messages : option loc) (w w' : world) (r : outcome (pystr * loc)) :
  valid_ref w previous_messages ->
  MCPClient_process_query self query previous_messages w = (r, w') ->
  exists added, heap w' = heap w ++ added.
Proof.
  intros Hvalid. unfold MCPClient_process_query.
  destruct (session self); cbn [negb];
    [|unfold raise; intros [= <- <-]; exists []; now rewrite app_nil_r].
  unfold bind at 1. rewrite list_tools_run.
  destruct (fst (session_list_tools (ext w))) as [response|e];
    [|intros [= <- <-]; exists []; now rewrite app_nil_r].
  unfold bind at 1.
  destruct (llm_process_query _ _ _ _ _) as [r1 w1] eqn:Hllm.
  apply adapter_effect in Hllm as [_ Hheap]; [|exact Hvalid]. cbn [heap] in Hheap.
  assert (exists added, heap w1 = heap w ++ added) as [added Hadded].
  { destruct Hheap as [[-> _]|(extension & -> & _)]; [exists []; now rewrite app_nil_r|eauto]. }
  destruct r1 as [[adapter_text messages]|e]; [|intros [= <- <-]; eauto].
  unfold bind, ret. destruct (mediate _ _ w1) as [r2 w2] eqn:Hmediate.
  apply mediate_run in Hmediate as [Hheap2 _].
  destruct r2; intros [= <- <-]; exists added; congruence.
Qed.

(** ** The mediator *)


(** C4.  A query that returns gives back the adapter's text followed by
    one segment [\n[tool results: <result>]] for each match of the
    pattern in that text, in the order of the matches: the matches are
    the markers met when the text is scanned from the left, each taken
    whole and the scan going on behind it; [<result>] is what the tool
    server returned to the call made for the match; and the tool calls of
    the query are those calls and no other.  When no marker lies in the
    adapter's text, the text comes back as it is and no tool is
    called. *)
Theorem process_query_appends_one_segment_per_marker
    (self : MCPClient) (query : pystr) (previous_messages : option loc)
    (w w' : world) (text : pystr) (messages : loc) :
  valid_ref w previous_messages ->
  MCPClient_process_query self query previous_messages w = (Return (text, messages), w') ->
  exists response w0 adapter_text w1 matches,
    list_tools w = (Return response, w0)
    /\ llm_process_query (llm_service self) query (available_tools_of response)
         previous_messages w0 = (Return (adapter_text, messages), w1)
    /\ matches_of adapter_text matches
    /\ length (results_of matches (ext w1)) = length matches
    /\ text = adapter_text ++ segments (results_of matches (ext w1))
    /\ tool_calls_in (trace w') = tool_calls_in (trace w) ++ map invocation_of matches
    /\ (~ has_marker adapter_text ->
        text = adapter_text /\ tool_calls_in (trace w') = tool_calls_in (trace w)).
Proof.
  intros Hvalid Hrun.
  destruct (MCPClient_process_query_returns _ _ _ _ _ _ _ Hrun)
    as (response & w0 & adapter_text & w1 & Htools & Hllm & Hmediate).
  exists response, w0, adapter_text, w1, (findall adapter_text).
  split; [exact Htools|]. split; [exact Hllm|]. split; [apply findall_matches|].
  apply mediate_run in Hmediate as (_ & Hlen & Htext & Htrace).
  rewrite list_tools_run in Htools. injection Htools as _ <-.
  apply adapter_effect in Hllm as [Hquiet _]; [|exact Hvalid]. cbn [trace] in Hquiet.
  rewrite tool_calls_in_quiet in Hquiet by discriminate.
  assert (tool_calls_in (trace w')
          = tool_calls_in (trace w) ++ map invocation_of (findall adapter_text)) as Hcalls.
  { now rewrite Htrace, tool_calls_in_app, tool_calls_in_calls, Hquiet. }
  repeat split; try assumption.
  - rewrite Htext, (matches_of_no_marker _ _ (findall_matches adapter_text)) by assumption.
    cbn. now rewrite app_nil_r.
  - rewrite Hcalls, (matches_of_no_marker _ _ (findall_matches adapter_text)) by assumption.
    cbn. now rewrite app_nil_r.
Qed.


(** ** The adapters and the transcript *)


(** C6.  Called with previous messages that are absent or empty, each
    adapter returns a list of exactly one message, the user message, plus
    what it appends: nothing for Anthropic and Gemini, and for OpenAI one
    assistant message when the reply carried tool calls and nothing when
    it did not.  This is the list whenever the adapter returns; and the
    adapter does return when the vendor answers and the reply is one it
    can put into text: for Anthropic, tool uses whose input [repr] can
    write; for OpenAI, tool calls whose arguments decode, or else a
    content; for Gemini, a catalog the projector reads, a candidate whose
    content has parts, and function calls whose arguments [repr] can
    write. *)
Theorem fresh_transcript_has_one_message_plus_extension
    (s : service) (query : pystr) (available_tools : list tool)
    (previous_messages : option loc) (w : world) :
  valid_ref w previous_messages ->
  prior_messages w previous_messages = [] ->
  (forall text messages w',
     llm_process_query s query available_tools previous_messages w
     = (Return (text, messages), w') ->
     match s with
     | AnthropicService | GeminiService =>
         list_at (heap w') messages = [user_message query]
     | OpenAIService =>
         exists choices x,
           openai_chat_completions_create [user_message query]
             (openai_tools_of available_tools) (ext w) = (Return choices, x)
           /\ length (list_at (heap w') messages)
              = if carries_tool_calls choices then 2%nat else 1%nat
     end)
  /\ match s with
     | AnthropicService =>
         forall response_content x,
           anthropic_messages_create [user_message query] available_tools (ext w)
           = (Return response_content, x) ->
           forallb writable_block response_content = true ->
           exists text w',
             llm_process_query s query available_tools previous_messages w
             = (Return (text, length (heap w)), w')
             /\ list_at (heap w') (length (heap w)) = [user_message query]
     | OpenAIService =>
         forall response_message choices x,
           openai_chat_completions_create [user_message query]
             (openai_tools_of available_tools) (ext w)
           = (Return (response_message :: choices), x) ->
           match om_tool_calls response_message with
           | Some (tc :: tcs) => Forall decodable (tc :: tcs)
           | _ => om_content response_message <> None
           end ->
           exists text w',
             llm_process_query s query available_tools previous_messages w
             = (Return (text, length (heap w)), w')
             /\ length (list_at (heap w') (length (heap w)))
                = if carries_tool_calls (response_message :: choices) then 2%nat else 1%nat
     | GeminiService =>
         forall chat x1 response x2,
           Forall (fun t => readable_schema (input_schema t)) available_tools ->
           (forall gemini_tools,
              _convert_tools_to_gemini_format available_tools = Return gemini_tools ->
              gemini_chats_create [] gemini_tools (ext w) = (Return chat, x1)) ->
           gemini_send_message chat query x1 = (Return response, x2) ->
           (forall candidate rest,
              candidates response = Some (candidate :: rest) ->
              cand_parts candidate <> Some None) ->
           forallb writable_part (reply_parts response) = true ->
           exists text w',
             llm_process_query s query available_tools previous_messages w
             = (Return (text, length (heap w)), w')
             /\ list_at (heap w') (length (heap w)) = [user_message query]
     end.
Proof.
  intros Hvalid Hprior. split.
  - intros text messages w'. destruct s; cbn [llm_process_query].
    + rewrite AnthropicService_run by exact Hvalid. cbn. rewrite Hprior.
      destruct (anthropic_messages_create _ _ _) as [[response_content|e] x]; [|discriminate].
      destruct (anthropic_final_text response_content); [|discriminate].
      intros [= <- <- <-]. cbn. apply list_at_new.
    + destruct (OpenAIService_run query available_tools previous_messages w Hvalid)
        as (r0 & extension & -> & _ & Hr0).
      intros [= -> <-]. destruct (Hr0 _ _ eq_refl) as (-> & choices & Hchoices & Hext).
      rewrite Hprior in *. cbn [app] in *.
      destruct (openai_chat_completions_create _ _ _) as [r x]. cbn in Hchoices. subst r.
      exists choices, x. split; [reflexivity|]. cbn [heap]. rewrite list_at_new.
      destruct (carries_tool_calls choices); [destruct Hext as (m & -> & _)|subst extension];
        reflexivity.
    + intros Hrun.
      destruct (GeminiService_run _ _ _ _ Hvalid _ _ Hrun) as [_ [[_ [e He]]|[Hheap Hret]]];
        [discriminate|].
      rewrite (Hret _ _ eq_refl), Hheap, Hprior. apply list_at_new.
  - destruct s; cbn [llm_process_query].
    + intros response_content x Hcreate Hwritable.
      rewrite AnthropicService_run by exact Hvalid. cbn. rewrite Hprior. cbn [app].
      rewrite Hcreate, anthropic_final_text_pieces, Hwritable.
      eexists _, _. split; [reflexivity|]. cbn [heap]. apply list_at_new.
    + intros response_message choices x Hcreate Hreply.
      unfold OpenAIService_process_query.
      rewrite fresh_transcript by exact Hvalid.
      unfold bind, external. cbn [ext heap trace]. rewrite Hprior. cbn [app].
      rewrite Hcreate. cbn [carries_tool_calls].
      destruct (om_tool_calls response_message) as [[|tc tcs]|] eqn:Hcalls.
      * destruct (om_content response_message) as [text|]; [|congruence].
        eexists _, _. split; [reflexivity|]. cbn [heap]. now rewrite list_at_new.
      * destruct (openai_markers_decodable _ Hreply) as [markers Hmarkers].
        unfold list_append, list_extend, lift, ret. cbn [heap ext trace].
        rewrite Hmarkers. eexists _, _. split; [reflexivity|]. cbn [heap].
        now rewrite list_at_new, insert_new, list_at_new.
      * destruct (om_content response_message) as [text|]; [|congruence].
        eexists _, _. split; [reflexivity|]. cbn [heap]. now rewrite list_at_new.
    + intros chat x1 response x2 Hreadable Hcreate Hsend Hparts Hwritable.
      pose proof (convert_tools_readable available_tools) as Hconvert.
      unfold GeminiService_process_query, bind, lift, external.
      destruct (_convert_tools_to_gemini_format available_tools) as [gemini_tools|e];
        [|now destruct Hconvert].
      assert (forall w0 : world, heap w0 = heap w ->
                read_optional previous_messages w0 = (Return [], w0)) as Hread.
      { intros w0 Hheap. destruct previous_messages as [p|]; [|reflexivity].
        unfold read_optional, read_list. cbn in Hprior. now rewrite Hheap, Hprior. }
      rewrite (Hread w eq_refl). cbn [_prepare_gemini_chat_history flat_map ext heap trace].
      rewrite (Hcreate _ eq_refl), Hread by reflexivity.
      unfold new_list, list_append, list_extend, ret. cbn [heap ext trace].
      rewrite Hsend.
      assert (gemini_final_text response = Return (gemini_pieces (reply_parts response)))
        as ->.
      { unfold gemini_final_text, reply_parts in *.
        destruct (candidates response) as [[|candidate rest]|] eqn:Hcandidates;
          try reflexivity.
        specialize (Hparts _ _ eq_refl).
        destruct (cand_parts candidate) as [[parts|]|]; try reflexivity; [|congruence].
        now rewrite gemini_parts_text_pieces, Hwritable. }
      eexists _, _. split; [reflexivity|]. cbn [heap].
      now rewrite list_at_new, insert_new, list_at_new.
Qed.

(** ** The marker, there and back *)

(** *** Decimal digits *)

Lemma digits_value_snoc (ds : pystr) (d : N) :
  digits_value (ds ++ [d]) = digits_value ds * 10 + (d - chr "0").
Proof. unfold digits_value. now rewrite fold_left_app. Qed.

Lemma dec_digits_spec (fuel : nat) :
  forall n acc, n < 2 ^ N.of_nat fuel -> (0 < fuel)%nat ->
    exists ds, dec_digits fuel n acc = ds ++ acc /\ digits_ok ds n.
Proof.
  induction fuel as [|fuel IH]; intros n acc Hn Hfuel; [lia|].
  cbn [dec_digits]. destruct (N.ltb_spec n 10) as [Hsmall|Hbig].
  - exists [chr "0" + n mod 10]. split; [reflexivity|].
    rewrite N.mod_small by exact Hsmall. unfold digits_ok, digits_value, is_digit. chars. cbn.
    repeat split.
    + compare; try reflexivity; lia.
    + lia.
    + destruct (N.eqb_spec n 0); [reflexivity|lia].
  - assert (n / 10 < 2 ^ N.of_nat fuel) as Hdiv.
    { rewrite Nat2N.inj_succ, N.pow_succ_r' in Hn.
      apply N.Div0.div_lt_upper_bound. lia. }
    pose proof (N.mod_lt n 10 ltac:(lia)) as Hmod.
    pose proof (N.div_mod n 10 ltac:(lia)) as Hdm.
    pose proof (N.le_0_l (n mod 10)) as Hmod0.
    assert (0 < fuel)%nat as Hpos.
    { destruct fuel; [cbn in Hdiv; lia|lia]. }
    destruct (IH (n / 10) ((chr "0" + n mod 10) :: acc) Hdiv Hpos)
      as (ds & Hds & Hdig & Hval & Hhead).
    clear IH Hn Hdiv.
    exists (ds ++ [chr "0" + n mod 10]). split; [now rewrite Hds, <- app_assoc|].
    repeat split.
    + rewrite forallb_app, Hdig. cbn. unfold is_digit. chars. compare; try reflexivity; lia.
    + rewrite digits_value_snoc, Hval. chars. lia.
    + destruct ds as [|d ds]; [contradiction|]. cbn.
      destruct (N.eqb_spec n 0) as [->|_]; [lia|].
      destruct (N.eqb_spec (n / 10) 0) as [Hz|_]; [lia|exact Hhead].
Qed.

Lemma repr_nat_digits (n : N) : digits_ok (repr_nat n) n.
Proof.
  unfold repr_nat.
  destruct (dec_digits_spec (S (N.to_nat (N.log2 n))) n []) as (ds & Hds & Hok).
  - rewrite Nat2N.inj_succ, N2Nat.id.
    destruct (N.eq_dec n 0) as [->|Hn]; [reflexivity|].
    apply N.log2_spec. lia.
  - lia.
  - now rewrite Hds, app_nil_r.
Qed.

Lemma match_frac_delimited (rest : pystr) : delimited rest -> match_frac rest = ([], rest).
Proof.
  destruct rest as [|c [|d rest]]; cbn; try contradiction; [reflexivity|].
  intros [-> | ->]; reflexivity.
Qed.

Lemma match_exp_delimited (rest : pystr) : delimited rest -> match_exp rest = ([], rest).
Proof.
  destruct rest as [|c rest]; cbn; [contradiction|]. intros [-> | ->]; reflexivity.
Qed.

Lemma match_digits_int (neg : bool) (ds rest : pystr) (n : N) :
  digits_ok ds n ->
  (length ds <= int_max_str_digits)%nat ->
  delimited rest ->
  match_digits neg (ds ++ rest)
  = Scanned (PInt (if neg then Z.opp (Z.of_N n) else Z.of_N n)) rest.
Proof.
  intros (Hdig & Hval & Hhead) Hlen Hrest.
  assert (match rest with c :: _ => is_digit c = false | [] => True end) as Hstop.
  { destruct rest as [|c rest]; [exact I|]. destruct Hrest as [-> | ->]; reflexivity. }
  destruct ds as [|d ds]; [contradiction|]. cbn [app].
  cbn in Hdig. apply andb_prop in Hdig as [Hd Hds].
  unfold match_digits.
  destruct (N.eqb_spec d (chr "0")) as [->|Hnz].
  - destruct (N.eqb_spec n 0) as [->|Hn]; [|contradiction]. subst ds. cbn [app].
    rewrite match_frac_delimited, match_exp_delimited by exact Hrest.
    cbn [app]. rewrite bool_decide_eq_true_2 by exact Hlen. now rewrite Hval.
  - rewrite Hd. rewrite span_prefix by assumption.
    rewrite match_frac_delimited, match_exp_delimited by exact Hrest.
    cbn [app]. rewrite bool_decide_eq_true_2 by exact Hlen. now rewrite Hval.
Qed.

Lemma is_digit_not_minus (d : N) : is_digit d = true -> (d =? chr "-") = false.
Proof. unfold is_digit. chars. compare; try reflexivity; try discriminate; lia. Qed.

Lemma match_number_repr_int (z : Z) (rest : pystr) :
  (length (repr_nat (Z.abs_N z)) <= int_max_str_digits)%nat ->
  delimited rest ->
  match_number (repr_int z ++ rest) = Scanned (PInt z) rest.
Proof.
  intros Hlen Hrest. pose proof (repr_nat_digits (Z.abs_N z)) as Hok.
  unfold match_number, repr_int. destruct (Z.ltb_spec z 0) as [Hneg|Hpos].
  - cbn [app]. rewrite N.eqb_refl.
    rewrite (match_digits_int true _ _ _ Hok Hlen Hrest), N2Z.inj_abs_N.
    f_equal. f_equal. lia.
  - rewrite (match_digits_int false _ _ _ Hok Hlen Hrest), N2Z.inj_abs_N.
    destruct Hok as (Hdig & _ & Hhead).
    destruct (repr_nat (Z.abs_N z)) as [|d ds] eqn:Hds; [contradiction|]. cbn [app].
    cbn in Hdig. apply andb_prop in Hdig as [Hd _].
    rewrite (is_digit_not_minus _ Hd). f_equal. f_equal. lia.
Qed.

Lemma match_literal_digit (c : N) (s : pystr) :
  is_digit c = true -> match_literal (c :: s) = None.
Proof.
  unfold match_literal, is_digit. chars. cbn [strip_prefix].
  compare; intros; try discriminate; try reflexivity; lia.
Qed.

Lemma match_literal_minus_digit (c : N) (s : pystr) :
  is_digit c = true -> match_literal (chr "-" :: c :: s) = None.
Proof.
  unfold match_literal, is_digit. chars. cbn [strip_prefix].
  compare; intros; try discriminate; try reflexivity; lia.
Qed.

(** *** Strings *)

Lemma hex_value_digit (n : N) : n < 16 -> hex_value (hex_digit n) = Some n.
Proof.
  intros Hn. unfold hex_value, hex_digit, is_digit. chars.
  destruct (N.ltb_spec n 10).
  - narrow. f_equal. lia.
  - narrow. f_equal. lia.
Qed.

Lemma hex_digit_plain (n : N) : n < 16 -> plain_char (hex_digit n) = true.
Proof. intros Hn. unfold hex_digit, plain_char. chars. narrow; reflexivity. Qed.

(** The four digits [repr] writes after [\u] are read back as the
    character. *)
Lemma hex4_digits (c : N) (rest : pystr) :
  c <= 65535 -> hex4 (hex_digits 4 c [] ++ rest) = Some (c, rest).
Proof.
  intros Hc. cbn [hex_digits app]. unfold hex4.
  rewrite !hex_value_digit by (apply N.mod_lt; lia).
  f_equal. f_equal.
  pose proof (N.div_mod c 16 ltac:(lia)) as H1.
  pose proof (N.div_mod (c / 16) 16 ltac:(lia)) as H2.
  pose proof (N.div_mod (c / 16 / 16) 16 ltac:(lia)) as H3.
  assert (c / 16 / 16 / 16 < 16) as Hsmall.
  { repeat (apply N.Div0.div_lt_upper_bound). lia. }
  rewrite (N.mod_small _ _ Hsmall).
  pose proof (N.mod_lt c 16 ltac:(lia)).
  pose proof (N.mod_lt (c / 16) 16 ltac:(lia)).
  pose proof (N.mod_lt (c / 16 / 16) 16 ltac:(lia)).
  lia.
Qed.

(** How [repr] writes a safe character between apostrophes: as it is, as
    one of four two-letter escapes, or as [\uXXXX]. *)
Lemma repr_char_safe (c : N) :
  safe_char c = true ->
  (repr_char SQUOTE c = [c] /\ u_escaped c = false
   /\ (c =? DQUOTE) = false /\ (c =? BACKSLASH) = false /\ (c <? 32) = false
   /\ plain_char c = true)
  \/ (c = BACKSLASH /\ repr_char SQUOTE c = [BACKSLASH; BACKSLASH])
  \/ (c = 9 /\ repr_char SQUOTE c = [BACKSLASH; chr "t"])
  \/ (c = 10 /\ repr_char SQUOTE c = [BACKSLASH; chr "n"])
  \/ (c = 13 /\ repr_char SQUOTE c = [BACKSLASH; chr "r"])
  \/ (repr_char SQUOTE c = BACKSLASH :: chr "u" :: hex_digits 4 c [] /\ u_escaped c = true
      /\ c <= 65535).
Proof.
  intros Hsafe.
  destruct (N.eq_dec c BACKSLASH) as [->|Hb]; [right; left; now split|].
  destruct (N.eq_dec c 9) as [->|H9]; [right; right; left; now split|].
  destruct (N.eq_dec c 10) as [->|H10]; [right; right; right; left; now split|].
  destruct (N.eq_dec c 13) as [->|H13]; [right; right; right; right; left; now split|].
  revert Hsafe Hb. unfold safe_char, repr_char, u_escaped, plain_char. chars.
  destruct (uni_printable c); intros Hsafe Hb.
  - left. revert Hsafe. narrow; intros Hsafe; try discriminate; repeat split; lia.
  - revert Hsafe. narrow; intros Hsafe; try discriminate;
      try (left; repeat split; lia); right; right; right; right; right; repeat split; lia.
Qed.

Lemma repr_char_length (c : N) : safe_char c = true -> (1 <= length (repr_char SQUOTE c))%nat.
Proof.
  intros Hc.
  destruct (repr_char_safe c Hc)
    as [(-> & _)|[(_ & ->)|[(_ & ->)|[(_ & ->)|[(_ & ->)|(-> & _)]]]]]; cbn; lia.
Qed.

(** One step of [scanstring] over what [repr] wrote for a character. *)
Lemma scanstring_char (c : N) (f : nat) (tail : pystr) :
  safe_char c = true ->
  scanstring (S f) (repr_char SQUOTE c ++ tail)
  = if u_escaped c && is_high_surrogate c
    then match strip_prefix (codes "\u") tail with
         | Some r2 =>
             match hex4 r2 with
             | None => Failed JSONDecodeError
             | Some (u2, r3) =>
                 if is_low_surrogate u2
                 then scanned_map (cons (join_surrogates c u2)) (scanstring f r3)
                 else scanned_map (cons c) (scanstring f tail)
             end
         | None => scanned_map (cons c) (scanstring f tail)
         end
    else scanned_map (cons c) (scanstring f tail).
Proof.
  intros Hc.
  destruct (repr_char_safe c Hc)
    as [(-> & -> & Hq & Hb & Hlow & _)
       |[(-> & ->)|[(-> & ->)|[(-> & ->)|[(-> & ->)|(-> & -> & Hbmp)]]]]];
    try reflexivity.
  - cbn [app scanstring andb]. now rewrite Hq, Hb, Hlow.
  - cbn [app andb]. change (scanstring (S f) (BACKSLASH :: chr "u" :: ?x))
      with (match hex4 x with
            | None => Failed JSONDecodeError
            | Some (u1, r1) =>
                match (if is_high_surrogate u1 then strip_prefix (codes "\u") r1 else None) with
                | Some r2 =>
                    match hex4 r2 with
                    | None => Failed JSONDecodeError
                    | Some (u2, r3) =>
                        if is_low_surrogate u2
                        then scanned_map (cons (join_surrogates u1 u2)) (scanstring f r3)
                        else scanned_map (cons u1) (scanstring f r1)
                    end
                | None => scanned_map (cons u1) (scanstring f r1)
                end
            end).
    rewrite hex4_digits by exact Hbmp. now destruct (is_high_surrogate c).
Qed.

(** What follows an escaped high surrogate begins with [\u] only when it
    is itself written as [\uXXXX]. *)
Lemma strip_u_escape (s : pystr) (rest : pystr) :
  safe_text s = true ->
  strip_prefix (codes "\u") (escaped s ++ DQUOTE :: rest)
  = match s with
    | c :: s' =>
        if u_escaped c then Some (hex_digits 4 c [] ++ escaped s' ++ DQUOTE :: rest) else None
    | [] => None
    end.
Proof.
  destruct s as [|c s]; [reflexivity|]. cbn [safe_text]. intros Hs.
  apply andb_prop in Hs as [Hs _]. apply andb_prop in Hs as [Hc _].
  unfold escaped. cbn [flat_map]. rewrite <- app_assoc.
  destruct (repr_char_safe c Hc)
    as [(-> & -> & Hq & Hb & Hlow & _)
       |[(-> & ->)|[(-> & ->)|[(-> & ->)|[(-> & ->)|(-> & -> & Hbmp)]]]]];
    try reflexivity.
  cbn [app]. change (codes "\u") with [BACKSLASH; chr "u"]. cbn [strip_prefix].
  rewrite N.eqb_sym, Hb. reflexivity.
Qed.

Lemma scanstring_escaped (s : pystr) :
  safe_text s = true ->
  forall fuel rest, (length (escaped s) < fuel)%nat ->
    scanstring fuel (escaped s ++ DQUOTE :: rest) = Scanned s rest.
Proof.
  induction s as [|c s IH]; intros Hs fuel rest Hfuel.
  - destruct fuel; [lia|]. reflexivity.
  - pose proof (strip_u_escape s rest) as Hnext.
    cbn [safe_text] in Hs. apply andb_prop in Hs as [Hs Hrest].
    apply andb_prop in Hs as [Hc Hpair]. specialize (Hnext Hrest).
    pose proof (repr_char_length c Hc) as Hlen.
    unfold escaped in *. cbn [flat_map] in *. rewrite length_app in Hfuel.
    destruct fuel as [|fuel]; [lia|]. rewrite <- app_assoc, scanstring_char by exact Hc.
    rewrite (IH Hrest fuel rest) by lia. cbn [scanned_map].
    destruct (u_escaped c && is_high_surrogate c) eqn:Hhigh; [|reflexivity].
    rewrite Hnext. destruct s as [|c' s']; [reflexivity|].
    destruct (u_escaped c') eqn:Hesc; [|reflexivity].
    cbn [negb andb] in Hpair. cbn [flat_map] in *.
    assert (c' <= 65535) as Hbmp.
    { revert Hesc. unfold u_escaped. narrow; intros; try discriminate; lia. }
    rewrite hex4_digits by exact Hbmp.
    destruct (is_low_surrogate c'); [discriminate|reflexivity].
Qed.

Lemma scan_once_string (depth : nat) (s rest : pystr) :
  safe_text s = true ->
  scan_once depth (json_string s ++ rest) = Scanned (PStr s) rest.
Proof.
  intros Hs. unfold json_string. cbn [app].
  destruct depth; cbn [scan_once]; rewrite N.eqb_refl, <- app_assoc; cbn [app];
    rewrite scanstring_escaped; try reflexivity; try exact Hs;
    rewrite length_app; cbn; lia.
Qed.

Lemma scan_once_int (depth : nat) (z : Z) (rest : pystr) :
  (length (repr_nat (Z.abs_N z)) <= int_max_str_digits)%nat ->
  delimited rest ->
  scan_once depth (repr_int z ++ rest) = Scanned (PInt z) rest.
Proof.
  intros Hlen Hrest. rewrite <- (match_number_repr_int z rest Hlen Hrest).
  pose proof (repr_nat_digits (Z.abs_N z)) as (Hdig & _ & Hhead).
  unfold repr_int.
  destruct (repr_nat (Z.abs_N z)) as [|d ds]; [contradiction|].
  cbn in Hdig. apply andb_prop in Hdig as [Hd _].
  assert ((d =? DQUOTE) = false /\ (d =? chr "{") = false /\ (d =? chr "[") = false)
    as (Hq & Hb & Hk).
  { revert Hd. unfold is_digit. chars.
    compare; intros; try discriminate; repeat split; try reflexivity; lia. }
  destruct (z <? 0)%Z; cbn [app].
  - destruct depth; cbn [scan_once];
      change (chr "-" =? DQUOTE) with false; change (chr "-" =? chr "{") with false;
      change (chr "-" =? chr "[") with false; cbv iota;
      now rewrite match_literal_minus_digit.
  - destruct depth; cbn [scan_once]; rewrite Hq, Hb, Hk;
      now rewrite match_literal_digit.
Qed.

(** *** Floats *)

Lemma span_app_stop (f : N -> bool) (a rest : pystr) :
  match rest with c :: _ => f c = false | [] => True end ->
  span f (a ++ rest) = (fst (span f a), snd (span f a) ++ rest).
Proof.
  intros Hrest. induction a as [|x a IH]; cbn [app span].
  - destruct rest as [|c rest]; [reflexivity|]. cbn. now rewrite Hrest.
  - destruct (f x); [|reflexivity]. rewrite IH. now destruct (span f a).
Qed.

Lemma delimited_stop (rest : pystr) :
  delimited rest -> match rest with c :: _ => is_digit c = false | [] => True end.
Proof. destruct rest as [|c rest]; [easy|]. now intros [-> | ->]. Qed.

(** The scanners of the fraction and of the exponent look no further than
    the comma or the brace that follows the number. *)
Lemma match_frac_app (a rest : pystr) :
  delimited rest ->
  match_frac (a ++ rest) = (fst (match_frac a), snd (match_frac a) ++ rest).
Proof.
  intros Hrest. pose proof (delimited_stop rest Hrest) as Hstop.
  destruct a as [|x [|y a]]; cbn [app].
  - now rewrite match_frac_delimited.
  - destruct rest as [|c rest]; [contradiction|]. cbn. rewrite Hstop.
    now rewrite andb_false_r.
  - cbn [match_frac]. destruct ((x =? chr ".") && is_digit y); [|reflexivity].
    rewrite span_app_stop by exact Hstop. now destruct (span is_digit a).
Qed.

Lemma match_exp_app (a rest : pystr) :
  delimited rest ->
  match_exp (a ++ rest) = (fst (match_exp a), snd (match_exp a) ++ rest).
Proof.
  intros Hrest. pose proof (delimited_stop rest Hrest) as Hstop.
  destruct a as [|e a]; cbn [app].
  - now rewrite match_exp_delimited.
  - cbn [match_exp]. destruct ((e =? chr "e") || (e =? chr "E")); [|reflexivity].
    destruct a as [|sg a]; cbn [app].
    + destruct rest as [|c rest]; [contradiction|].
      destruct Hrest as [-> | ->]; reflexivity.
    + destruct ((sg =? chr "-") || (sg =? chr "+")).
      * destruct a as [|d r2]; cbn [app].
        -- destruct rest as [|c rest]; [reflexivity|]. now rewrite Hstop.
        -- destruct (is_digit d); [|reflexivity]. rewrite span_app_stop by exact Hstop.
           now destruct (span is_digit r2).
      * destruct (is_digit sg); [|reflexivity]. rewrite span_app_stop by exact Hstop.
        now destruct (span is_digit a).
Qed.

Lemma match_digits_app (neg : bool) (s lit rest : pystr) :
  match_digits neg s = Scanned (PFloat lit) [] ->
  delimited rest ->
  match_digits neg (s ++ rest) = Scanned (PFloat lit) rest.
Proof.
  intros Hscan Hrest. pose proof (delimited_stop rest Hrest) as Hstop.
  destruct s as [|c r]; [discriminate|]. cbn [app]. unfold match_digits in *.
  assert (forall ds r1,
            (let '(frac, r2) := match_frac r1 in
             let '(ex, r3) := match_exp r2 in
             match frac ++ ex with
             | [] =>
                 if bool_decide (length ds <= int_max_str_digits)%nat
                 then Scanned (PInt (if neg then Z.opp (Z.of_N (digits_value ds))
                                     else Z.of_N (digits_value ds))) r3
                 else Failed ValueError
             | _ :: _ => Scanned (PFloat ((if neg then [chr "-"] else []) ++ ds ++ frac ++ ex)) r3
             end) = Scanned (PFloat lit) [] ->
            (let '(frac, r2) := match_frac (r1 ++ rest) in
             let '(ex, r3) := match_exp r2 in
             match frac ++ ex with
             | [] =>
                 if bool_decide (length ds <= int_max_str_digits)%nat
                 then Scanned (PInt (if neg then Z.opp (Z.of_N (digits_value ds))
                                     else Z.of_N (digits_value ds))) r3
                 else Failed ValueError
             | _ :: _ => Scanned (PFloat ((if neg then [chr "-"] else []) ++ ds ++ frac ++ ex)) r3
             end) = Scanned (PFloat lit) rest) as Htail.
  { intros ds r1. rewrite match_frac_app by exact Hrest.
    destruct (match_frac r1) as [frac r2]. cbn [fst snd].
    rewrite match_exp_app by exact Hrest.
    destruct (match_exp r2) as [ex r3]. cbn [fst snd].
    destruct (frac ++ ex); [destruct (bool_decide _); discriminate|].
    now intros [= <- ->]. }
  destruct (c =? chr "0"); [now apply Htail|].
  destruct (is_digit c); [|discriminate].
  rewrite span_app_stop by exact Hstop.
  destruct (span is_digit r) as [ds r']. cbn [fst snd]. now apply Htail.
Qed.

Lemma match_digits_head (neg : bool) (c : N) (r rest : pystr) (v : pyval) :
  match_digits neg (c :: r) = Scanned v rest -> is_digit c = true.
Proof.
  unfold match_digits. destruct (N.eqb_spec c (chr "0")) as [->|_]; [reflexivity|].
  now destruct (is_digit c).
Qed.

Lemma float_char_plain (c : N) : float_char c = true -> plain_char c = true.
Proof.
  unfold float_char, is_digit, plain_char. chars. narrow; intros; try discriminate; reflexivity.
Qed.

(** A number with a fraction or an exponent, followed by a comma or a
    brace, is scanned as that float. *)
Lemma scan_once_float (depth : nat) (text rest : pystr) :
  json_float text = true -> delimited rest ->
  scan_once depth (text ++ rest) = Scanned (PFloat text) rest
  /\ skip_ws (text ++ rest) = text ++ rest.
Proof.
  unfold json_float. intros H Hrest. apply andb_prop in H as [Hchars H].
  destruct (match_number text) as [[| | |lit| | |] [|? ?]|] eqn:Hnum; try discriminate.
  apply bool_decide_eq_true_1 in H. subst lit.
  destruct text as [|c r]; [discriminate|]. cbn [app forallb] in *.
  apply andb_prop in Hchars as [Hc _].
  assert (match_literal (c :: r ++ rest) = None
          /\ match_number (c :: r ++ rest) = Scanned (PFloat (c :: r)) rest) as [Hlit Hscan].
  { unfold match_number in *. destruct (N.eqb_spec c (chr "-")) as [->|Hminus].
    - destruct r as [|d r]; [discriminate|].
      split; [|now apply (match_digits_app true (d :: r))].
      apply match_literal_minus_digit. exact (match_digits_head _ _ _ _ _ Hnum).
    - split; [|now apply (match_digits_app false (c :: r))].
      apply match_literal_digit. exact (match_digits_head _ _ _ _ _ Hnum). }
  assert ((c =? DQUOTE) = false /\ (c =? chr "{") = false /\ (c =? chr "[") = false
          /\ is_json_ws c = false) as (Hq & Hb & Hk & Hws).
  { revert Hc. unfold float_char, is_digit, is_json_ws. chars.
    narrow; intros; try discriminate; repeat split; reflexivity. }
  split.
  - destruct depth; cbn [scan_once]; now rewrite Hq, Hb, Hk, Hlit.
  - cbn [skip_ws]. now rewrite Hws.
Qed.

(** *** Values and members *)

Lemma scan_once_value (depth : nat) (v : pyval) (rest : pystr) :
  flat_value v = true -> delimited rest ->
  scan_once depth (json_value v ++ rest) = Scanned (read_back v) rest.
Proof.
  destruct v; try discriminate; cbn [flat_value safe_value json_value read_back];
    intros Hv Hrest.
  - apply scan_once_int; [|exact Hrest]. now apply bool_decide_eq_true_1 in Hv.
  - now apply scan_once_float.
  - now apply scan_once_string.
Qed.

(** A value never begins with white space. *)
Lemma json_value_start (v : pyval) (rest : pystr) :
  flat_value v = true -> delimited rest ->
  skip_ws (json_value v ++ rest) = json_value v ++ rest.
Proof.
  destruct v; try discriminate; cbn [flat_value safe_value json_value]; intros Hv Hrest.
  - pose proof (repr_nat_digits (Z.abs_N z)) as (Hdig & _ & Hhead).
    unfold repr_int. destruct (repr_nat (Z.abs_N z)) as [|d ds]; [contradiction|].
    cbn in Hdig. apply andb_prop in Hdig as [Hd _].
    destruct (z <? 0)%Z; cbn [app skip_ws]; [reflexivity|].
    assert (is_json_ws d = false) as ->; [|reflexivity].
    revert Hd. unfold is_digit, is_json_ws. chars.
    compare; intros; try discriminate; try reflexivity; lia.
  - now apply (scan_once_float 0).
  - reflexivity.
Qed.

Lemma delimited_start (tail : pystr) : delimited tail -> skip_ws tail = tail.
Proof. destruct tail as [|c tail]; [contradiction|]. now intros [-> | ->]. Qed.

(** One member of an object and what follows it. *)
Lemma parse_member (depth fuel : nat) (k : pystr) (v : pyval) (tail : pystr) :
  flat_item (k, v) = true -> delimited tail ->
  parse_members (scan_once depth) (S fuel) (json_member (k, v) ++ tail)
  = match tail with
    | c :: r4 =>
        if c =? chr "}" then Scanned [(k, read_back v)] r4
        else scanned_map (cons (k, read_back v))
               (parse_members (scan_once depth) fuel (skip_ws r4))
    | [] => Failed JSONDecodeError
    end.
Proof.
  unfold flat_item. cbn [fst snd]. intros Hkv Htail. apply andb_prop in Hkv as [Hk Hv].
  unfold json_member, json_string. cbn [fst snd]. chars.
  rewrite <- !app_assoc. cbn [app]. rewrite <- !app_assoc. cbn [app parse_members].
  rewrite N.eqb_refl, scanstring_escaped by (try exact Hk; rewrite length_app; cbn; lia).
  change (skip_ws (58 :: ?x)) with (58 :: x). cbv iota. rewrite N.eqb_refl.
  change (skip_ws (32 :: ?x)) with (skip_ws x).
  rewrite json_value_start, scan_once_value, delimited_start by assumption.
  destruct tail as [|c r4]; [contradiction|].
  destruct Htail as [-> | ->]; reflexivity.
Qed.

Lemma str_join_cons (sep x y : pystr) (l : list pystr) :
  str_join sep (x :: y :: l) = x ++ sep ++ str_join sep (y :: l).
Proof. reflexivity. Qed.

(** The members of a mapping that has some begin with a quote. *)
Lemma members_start (items : pydict) :
  items <> [] ->
  exists body, str_join (codes ", ") (map json_member items) = DQUOTE :: body.
Proof.
  destruct items as [|kv [|kv' items]]; [congruence| |]; intros _.
  - cbn. eexists. reflexivity.
  - cbn [map]. rewrite str_join_cons. cbn. eexists. reflexivity.
Qed.

Lemma parse_members_items (depth : nat) (items : pydict) :
  items <> [] -> forallb flat_item items = true ->
  forall fuel rest, (length items <= fuel)%nat ->
    parse_members (scan_once depth) fuel
      (str_join (codes ", ") (map json_member items) ++ chr "}" :: rest)
    = Scanned (read_back_mapping items) rest.
Proof.
  induction items as [|[k v] items IH]; [congruence|]. intros _ Hsafe fuel rest Hfuel.
  cbn in Hsafe. apply andb_prop in Hsafe as [Hkv Hsafe].
  destruct fuel as [|fuel]; [cbn in Hfuel; lia|].
  destruct items as [|kv' items].
  - cbn [map str_join]. rewrite parse_member; [|exact Hkv|now right]. now rewrite N.eqb_refl.
  - specialize (IH ltac:(congruence) Hsafe fuel rest ltac:(cbn in *; lia)).
    destruct (members_start (kv' :: items) ltac:(congruence)) as [body Hbody].
    change (map json_member ((k, v) :: kv' :: items))
      with (json_member (k, v) :: json_member kv' :: map json_member items).
    rewrite str_join_cons.
    change (json_member kv' :: map json_member items) with (map json_member (kv' :: items)) in *.
    rewrite <- !app_assoc.
    rewrite parse_member; [|exact Hkv|now left].
    change (codes ", " ++ ?x) with (chr "," :: chr " " :: x).
    change (chr "," =? chr "}") with false. cbv iota.
    assert (forall tail, skip_ws (chr " " :: str_join (codes ", ") (map json_member (kv' :: items))
                                  ++ tail)
                         = str_join (codes ", ") (map json_member (kv' :: items)) ++ tail)
      as -> by (intros tail; now rewrite Hbody).
    now rewrite IH.
Qed.

Lemma dict_set_fresh {V : Type} (k : pystr) (v : V) (d : list (pystr * V)) :
  k ∉ map fst d -> dict_set k v d = d ++ [(k, v)].
Proof.
  induction d as [|[k' v'] d IH]; cbn; [reflexivity|]. intros Hnotin.
  rewrite not_elem_of_cons in Hnotin. destruct Hnotin as [Hne Hrest].
  rewrite bool_decide_eq_false_2 by exact Hne. now rewrite IH.
Qed.

Lemma fold_dict_set (d : pydict) :
  forall acc : pydict,
    NoDup (map fst (acc ++ d)) ->
    fold_left (fun d kv => dict_set (fst kv) (snd kv) d) d acc = acc ++ d.
Proof.
  induction d as [|[k v] d IH]; intros acc Hnodup; cbn [fold_left fst snd].
  - now rewrite app_nil_r.
  - assert (acc ++ (k, v) :: d = (acc ++ [(k, v)]) ++ d) as Hassoc
      by now rewrite <- app_assoc.
    rewrite dict_set_fresh.
    + rewrite IH; [now rewrite Hassoc|]. now rewrite <- Hassoc.
    + rewrite map_app in Hnodup. apply list.NoDup_app in Hnodup as (_ & Hdisjoint & _).
      intros Hin. apply (Hdisjoint k Hin). cbn. left.
Qed.

Lemma dict_of_pairs_distinct (d : pydict) : NoDup (map fst d) -> dict_of_pairs d = d.
Proof. intros Hnodup. unfold dict_of_pairs. now rewrite fold_dict_set. Qed.

Lemma length_members (items : pydict) :
  (length items <= length (str_join (codes ", ") (map json_member items)))%nat.
Proof.
  induction items as [|kv [|kv' items] IH]; cbn [map length str_join] in *; [lia| |].
  - unfold json_member, json_string. cbn. lia.
  - change (json_member kv' :: map json_member items)
      with (map json_member (kv' :: items)) in *.
    set (J := str_join (codes ", ") (map json_member (kv' :: items))) in *.
    change (match map json_member (kv' :: items) with
            | [] => json_member kv
            | _ :: _ => json_member kv ++ codes ", " ++ J
            end) with (json_member kv ++ codes ", " ++ J).
    rewrite !length_app. unfold json_member at 1, json_string. cbn [length app]. lia.
Qed.

Lemma read_back_keys (d : pydict) : map fst (read_back_mapping d) = map fst d.
Proof. unfold read_back_mapping. rewrite map_map. reflexivity. Qed.

(** A mapping without floats is read back as it is. *)
Lemma read_back_plain (d : pydict) :
  forallb safe_item d = true -> forallb flat_item d = true /\ read_back_mapping d = d.
Proof.
  induction d as [|[k v] d IH]; [now split|]. cbn [forallb]. intros H.
  apply andb_prop in H as [Hkv Hd]. destruct (IH Hd) as [Hflat Hsame].
  unfold safe_item in Hkv. cbn [fst snd] in Hkv. apply andb_prop in Hkv as [Hk Hv].
  unfold flat_item at 1. cbn [fst snd read_back_mapping map]. fold (read_back_mapping d).
  rewrite Hk, Hflat, Hsame. destruct v; try discriminate; cbn [flat_value]; now rewrite ?Hv.
Qed.

(** Decoding the JSON text of a flat mapping gives the mapping back. *)
Lemma json_loads_object (depth : nat) (d : pydict) :
  flat_mapping d -> (1 <= depth)%nat ->
  json_loads depth (json_object d) = Return (PDict (read_back_mapping d)).
Proof.
  intros [Hnodup Hsafe] Hdepth. destruct depth as [|depth]; [lia|].
  unfold json_loads, json_object. change (codes "{" ++ ?x) with (chr "{" :: x).
  cbn [skip_ws]. change (is_json_ws (chr "{")) with false. cbv iota.
  cbn [scan_once]. change (chr "{" =? DQUOTE) with false. rewrite N.eqb_refl. cbv iota.
  unfold parse_object. destruct d as [|kv d].
  - reflexivity.
  - destruct (members_start (kv :: d) ltac:(congruence)) as [body Hbody].
    pose proof (length_members (kv :: d)) as Hlen.
    set (J := str_join (codes ", ") (map json_member (kv :: d))) in *.
    assert (skip_ws (J ++ codes "}") = J ++ codes "}") as -> by now rewrite Hbody.
    assert (exists c r, J ++ codes "}" = c :: r /\ (c =? chr "}") = false)
      as (c & r & Htext & Hc) by (rewrite Hbody; now eexists _, _).
    rewrite Htext, Hc, <- Htext. change (codes "}") with (chr "}" :: []).
    unfold J. rewrite parse_members_items; try assumption; try congruence.
    + cbn [scanned_map skip_ws]. rewrite dict_of_pairs_distinct; [reflexivity|].
      now rewrite read_back_keys.
    + fold J. rewrite length_app. lia.
Qed.

(** *** What [repr] writes for a flat mapping *)

Lemma safe_text_chars (s : pystr) : safe_text s = true -> forallb safe_char s = true.
Proof.
  induction s as [|c s IH]; [reflexivity|]. cbn [safe_text forallb]. intros H.
  apply andb_prop in H as [H Hs]. apply andb_prop in H as [Hc _]. now rewrite Hc, IH.
Qed.

Lemma safe_char_no_quote (c : N) : safe_char c = true -> (SQUOTE =? c) = false.
Proof.
  unfold safe_char. chars. destruct (N.eqb_spec 39 c) as [<-|]; [discriminate|reflexivity].
Qed.

Lemma repr_str_safe (s : pystr) :
  safe_text s = true -> repr_str s = SQUOTE :: escaped s ++ [SQUOTE].
Proof.
  intros Hs. apply safe_text_chars in Hs. unfold repr_str, repr_quote.
  assert (existsb (N.eqb SQUOTE) s = false) as ->; [|reflexivity].
  induction s as [|c s IH]; [reflexivity|]. cbn [existsb forallb] in *.
  apply andb_prop in Hs as [Hc Hs]. now rewrite (safe_char_no_quote c Hc), IH.
Qed.

Lemma forallb_impl (f g : N -> bool) (s : pystr) :
  (forall c, f c = true -> g c = true) -> forallb f s = true -> forallb g s = true.
Proof.
  intros Hfg. induction s as [|c s IH]; [reflexivity|]. cbn. intros H.
  apply andb_prop in H as [Hc Hs]. now rewrite (Hfg c Hc), IH.
Qed.

(** What [repr] writes for a safe string holds no apostrophe, no closing
    bracket and no newline. *)
Lemma escaped_plain (s : pystr) : safe_text s = true -> forallb plain_char (escaped s) = true.
Proof.
  intros Hs. apply safe_text_chars in Hs.
  induction s as [|c s IH]; [reflexivity|]. cbn [forallb] in Hs.
  apply andb_prop in Hs as [Hc Hs]. unfold escaped. cbn [flat_map].
  rewrite forallb_app. fold (escaped s). rewrite (IH Hs), andb_true_r.
  destruct (repr_char_safe c Hc)
    as [(-> & _ & _ & _ & _ & Hplain)
       |[(_ & ->)|[(_ & ->)|[(_ & ->)|[(_ & ->)|(-> & _ & Hbmp)]]]]];
    try reflexivity.
  - cbn. now rewrite Hplain.
  - cbn [hex_digits forallb].
    rewrite !hex_digit_plain by (apply N.mod_lt; lia). reflexivity.
Qed.

Lemma is_digit_plain (c : N) : is_digit c = true -> plain_char c = true.
Proof.
  unfold is_digit, plain_char. chars. compare; intros; try discriminate; try reflexivity; lia.
Qed.

Lemma repr_int_plain (z : Z) : forallb plain_char (repr_int z) = true.
Proof.
  pose proof (repr_nat_digits (Z.abs_N z)) as (Hdig & _ & _).
  apply (forallb_impl _ _ _ is_digit_plain) in Hdig.
  unfold repr_int. destruct (z <? 0)%Z; [|exact Hdig].
  cbn [forallb]. now rewrite Hdig.
Qed.

Lemma replace_plain (s : pystr) :
  forallb plain_char s = true -> replace_char SQUOTE DQUOTE s = s.
Proof.
  unfold replace_char. induction s as [|c s IH]; [reflexivity|]. cbn. intros H.
  apply andb_prop in H as [Hc Hs]. rewrite IH by exact Hs.
  revert Hc. unfold plain_char. chars. compare; intros; try discriminate; reflexivity.
Qed.

Lemma replace_app (s t : pystr) :
  replace_char SQUOTE DQUOTE (s ++ t)
  = replace_char SQUOTE DQUOTE s ++ replace_char SQUOTE DQUOTE t.
Proof. apply map_app. Qed.

Lemma plain_stays_in_group (s : pystr) :
  forallb plain_char s = true ->
  forallb (fun c => negb (c =? chr "]") && negb (c =? 10)) s = true.
Proof.
  apply forallb_impl. intros c. unfold plain_char. now destruct (c =? chr "]"), (c =? 10).
Qed.

(** The quote normalization turns what [repr] writes for a safe string
    into the JSON string. *)
Lemma repr_str_normalized (s : pystr) :
  safe_text s = true ->
  replace_char SQUOTE DQUOTE (repr_str s) = json_string s
  /\ forallb (fun c => negb (c =? chr "]") && negb (c =? 10)) (repr_str s) = true.
Proof.
  intros Hs. rewrite (repr_str_safe s Hs). pose proof (escaped_plain s Hs) as Hplain.
  split.
  - change (SQUOTE :: escaped s ++ [SQUOTE]) with ([SQUOTE] ++ escaped s ++ [SQUOTE]).
    now rewrite !replace_app, (replace_plain _ Hplain).
  - cbn. now rewrite forallb_app, (plain_stays_in_group _ Hplain).
Qed.

Lemma repr_item_normalized (kv : pystr * pyval) :
  flat_item kv = true ->
  replace_char SQUOTE DQUOTE (repr_item kv) = json_member kv
  /\ forallb (fun c => negb (c =? chr "]") && negb (c =? 10)) (repr_item kv) = true.
Proof.
  destruct kv as [k v]. unfold flat_item, repr_item, json_member. cbn [fst snd].
  intros H. apply andb_prop in H as [Hk Hv].
  destruct (repr_str_normalized k Hk) as [Hkey Hkey_clean].
  assert (replace_char SQUOTE DQUOTE (py_repr v) = json_value v
          /\ forallb (fun c => negb (c =? chr "]") && negb (c =? 10)) (py_repr v) = true)
    as [Hvalue Hclean].
  { destruct v; try discriminate; cbn [flat_value safe_value py_repr json_value] in *.
    - split; [apply replace_plain|apply plain_stays_in_group]; apply repr_int_plain.
    - unfold json_float in Hv. apply andb_prop in Hv as [Hchars _].
      apply (forallb_impl _ _ _ float_char_plain) in Hchars.
      split; [now apply replace_plain|now apply plain_stays_in_group].
    - now apply repr_str_normalized. }
  split.
  - now rewrite !replace_app, Hkey, Hvalue.
  - now rewrite !forallb_app, Hkey_clean, Hclean.
Qed.

Lemma repr_items_normalized (d : pydict) :
  forallb flat_item d = true ->
  replace_char SQUOTE DQUOTE (str_join (codes ", ") (map repr_item d))
  = str_join (codes ", ") (map json_member d)
  /\ forallb (fun c => negb (c =? chr "]") && negb (c =? 10))
       (str_join (codes ", ") (map repr_item d)) = true.
Proof.
  induction d as [|kv [|kv' d] IH]; intros Hsafe; [now split| |].
  - cbn in Hsafe. apply andb_prop in Hsafe as [Hkv _]. cbn [map str_join].
    now apply repr_item_normalized.
  - apply andb_prop in Hsafe as [Hkv Hsafe]. destruct (IH Hsafe) as [IH1 IH2].
    destruct (repr_item_normalized kv Hkv) as [H1 H2].
    change (map ?f (kv :: kv' :: d)) with (f kv :: map f (kv' :: d)).
    change (map repr_item (kv' :: d)) with (repr_item kv' :: map repr_item d) in *.
    change (map json_member (kv' :: d)) with (json_member kv' :: map json_member d) in *.
    rewrite !str_join_cons. split.
    + rewrite !replace_app, H1, IH1. reflexivity.
    + rewrite !forallb_app, H2, IH2. reflexivity.
Qed.

Lemma py_repr_mapping (d : pydict) :
  py_repr (PDict d) = chr "{" :: str_join (codes ", ") (map repr_item d) ++ codes "}".
Proof. reflexivity. Qed.

Lemma repr_normalized (d : pydict) :
  forallb flat_item d = true ->
  replace_char SQUOTE DQUOTE (py_repr (PDict d)) = json_object d.
Proof.
  intros Hsafe. rewrite py_repr_mapping. destruct (repr_items_normalized d Hsafe) as [H _].
  change (chr "{" :: ?x ++ ?y) with (codes "{" ++ x ++ y).
  rewrite !replace_app, H. reflexivity.
Qed.

(** [repr] writes every flat mapping: none of its integers is too long. *)
Lemma flat_mapping_writable (d : pydict) :
  forallb flat_item d = true -> repr_returns (PDict d) = true.
Proof.
  cbn [repr_returns]. induction d as [|[k v] d IH]; [reflexivity|]. cbn [forallb].
  intros H. apply andb_prop in H as [Hkv Hd]. rewrite (IH Hd), andb_true_r.
  unfold flat_item in Hkv. cbn [fst snd] in *. apply andb_prop in Hkv as [_ Hv].
  now destruct v.
Qed.

(** *** The pattern on a marker *)

Lemma findall_marker (name a : pystr) (c0 : N) :
  name <> [] -> forallb name_char name = true ->
  forallb (fun c => negb (c =? chr "]") && negb (c =? 10)) a = true ->
  (c0 =? 10) = false ->
  findall (marker_text name (c0 :: a)) = [(name, c0 :: a)].
Proof.
  intros Hne Hname Ha Hc0. unfold findall.
  pose proof (match_here_marker name [] a [] c0 Hne Hname Ha Hc0) as Hmatch.
  rewrite app_nil_r in Hmatch.
  destruct (marker_text name (c0 :: a)) as [|m ms] eqn:Htext; [discriminate|].
  cbn [length findall_from]. rewrite Hmatch. now destruct (length ms).
Qed.

(** C1 (amended).  For a tool name of one or more word characters and
    hyphens, and a flat mapping whose keys are distinct, whose keys and
    string values hold no apostrophe, no double quote, no closing bracket
    and no character that [repr] writes as [\xXX] or [\UXXXXXXXX] (and no
    escaped high surrogate right before an escaped low one), and whose
    other values are integers of no more digits than the interpreter
    converts, or finite floats: the marker is written, the client's
    pattern finds it again whole, with the tool name and the [repr] of the
    mapping as its groups; the client's parsing of that [repr] gives the
    mapping back, keys in order, each float as the literal [repr] writes
    for it, and is the very mapping when it holds no float; and the
    mediator, run on the marker, calls the tool with that name and that
    mapping.  [json.loads] must be allowed to enter one container. *)
Theorem marker_round_trip_for_flat_mappings (tool_name : pystr) (tool_args : pydict) :
  tool_name <> [] ->
  forallb name_char tool_name = true ->
  flat_mapping tool_args ->
  (1 <= client_recursion_room)%nat ->
  let marker := tool_call_marker tool_name (PDict tool_args) in
  write_marker tool_name (PDict tool_args) = Return marker
  /\ findall marker = [(tool_name, py_repr (PDict tool_args))]
  /\ parse_tool_args (py_repr (PDict tool_args)) = ret (PDict (read_back_mapping tool_args))
  /\ (plain_mapping tool_args -> read_back_mapping tool_args = tool_args)
  /\ forall w,
       mediate (findall marker) marker w
       = (result <- call_tool tool_name (PDict (read_back_mapping tool_args)) ;;
          ret (marker ++ result_segment result)) w.
Proof.
  intros Hne Hname [Hnodup Hsafe] Hroom marker.
  assert (findall marker = [(tool_name, py_repr (PDict tool_args))]) as Hfind.
  { unfold marker. change (tool_call_marker tool_name (PDict tool_args))
      with (marker_text tool_name (py_repr (PDict tool_args))).
    rewrite py_repr_mapping. apply findall_marker; try assumption; [|reflexivity].
    destruct (repr_items_normalized tool_args Hsafe) as [_ Hclean].
    rewrite forallb_app, Hclean. reflexivity. }
  assert (parse_tool_args (py_repr (PDict tool_args))
          = ret (PDict (read_back_mapping tool_args))) as Hparse.
  { unfold parse_tool_args.
    rewrite repr_normalized, json_loads_object; try assumption; [reflexivity|now split]. }
  split; [unfold write_marker; now rewrite flat_mapping_writable|].
  split; [exact Hfind|]. split; [exact Hparse|].
  split; [intros [_ Hplain]; now apply read_back_plain|].
  intros w. rewrite Hfind. cbn [mediate]. rewrite Hparse. reflexivity.
Qed.

(** ** The chat loop *)

Lemma chat_turn_body_frame (self : MCPClient) (previous_messages : loc)
    (w w' : world) (r : outcome turn_step) :
  (previous_messages < length (heap w))%nat ->
  chat_turn_body (MCPClient_process_query self) previous_messages w = (r, w') ->
  (exists added, heap w' = heap w ++ added)
  /\ forall messages text,
       r = Return (Rebound messages text) ->
       (length (heap w) <= messages < length (heap w'))%nat.
Proof.
  intros Hvalid. unfold chat_turn_body. unfold bind at 1. unfold external.
  destruct (terminal_input (ext w)) as [[line|e] x];
    [|intros [= <- <-]; split; [exists []; now rewrite app_nil_r|discriminate]].
  destruct (bool_decide _);
    [intros [= <- <-]; split; [exists []; now rewrite app_nil_r|discriminate]|].
  destruct (bool_decide _).
  { unfold bind, new_list, ret. cbn. intros [= <- <-]. cbn. split; [eauto|].
    intros ? ? [= <- _]. rewrite length_app. cbn. lia. }
  unfold bind at 1.
  destruct (MCPClient_process_query _ _ _ _) as [[[response messages]|e] w1] eqn:Hquery.
  - pose proof Hquery as Hframe.
    apply MCPClient_process_query_frame in Hframe as [added Hadded]; [|exact Hvalid].
    unfold ret. intros [= <- <-]. split; [eauto|]. intros ? ? [= <- _].
    apply MCPClient_process_query_returns in Hquery
      as (response0 & w0 & adapter_text & w2 & Htools & Hllm & Hmediate).
    rewrite list_tools_run in Htools. injection Htools as _ <-.
    apply mediate_run in Hmediate as [Hheap _].
    apply adapter_effect in Hllm as [_ [[_ [e He]]|(extension & Hnew & Hmsg & _)]];
      [discriminate| |exact Hvalid].
    rewrite (Hmsg _ _ eq_refl), Hheap, Hnew. cbn [heap]. rewrite length_app. cbn. lia.
  - apply MCPClient_process_query_frame in Hquery as [added Hadded]; [|exact Hvalid].
    intros [= <- <-]. split; [eauto|discriminate].
Qed.

Lemma external_run {A : Type} (ev : event) (f : Ext -> outcome A * Ext) (w : world) :
  external ev f w
  = (fst (f (ext w)),
     {| heap := heap w; ext := snd (f (ext w)); trace := trace w ++ [ev] |}).
Proof. unfold external. now destruct (f (ext w)). Qed.

(** C9 (amended).  An [Exception] that [process_query] raises, be it from
    listing the tools, from the adapter or from a tool call, or that
    reading the query raises, reaches the handler while
    [previous_messages] is the list it was, holding what it held when the
    turn began; and when the handler's own [print] returns, the loop takes
    the next query with that list.  An [Exception] that the [print] of the
    response raises reaches the handler after the assignment: then
    [previous_messages] is the list the query returned, one that did not
    exist when the turn began, and it is with that list that the loop
    goes on.  In both cases, when the handler's [print] raises, the
    exception leaves the loop. *)
Theorem failed_turn_goes_on_with_the_transcript_it_has
    (self : MCPClient) (previous_messages : loc) (w : world) :
  (previous_messages < length (heap w))%nat ->
  (forall e w1,
     chat_turn_body (MCPClient_process_query self) previous_messages w = (Raise e, w1) ->
     is_Exception e = true ->
     list_at (heap w1) previous_messages = list_at (heap w) previous_messages
     /\ chat_turn (MCPClient_process_query self) previous_messages w
        = chat_turn_handler previous_messages e w1
     /\ (forall w',
           report_error e w1 = (Return tt, w') ->
           chat_turn (MCPClient_process_query self) previous_messages w
           = (Return (Continue previous_messages), w')
           /\ list_at (heap w') previous_messages = list_at (heap w) previous_messages
           /\ forall turns,
                chat_turns (S turns) (MCPClient_process_query self) previous_messages w
                = chat_turns turns (MCPClient_process_query self) previous_messages w')
     /\ (forall e' w',
           report_error e w1 = (Raise e', w') ->
           forall turns,
             chat_turns (S turns) (MCPClient_process_query self) previous_messages w
             = (Raise e', w')))
  /\ (forall messages text w1 e w2,
        chat_turn_body (MCPClient_process_query self) previous_messages w
        = (Return (Rebound messages text), w1) ->
        print text w1 = (Raise e, w2) ->
        is_Exception e = true ->
        messages <> previous_messages
        /\ (length (heap w) <= messages)%nat
        /\ chat_turn (MCPClient_process_query self) previous_messages w
           = chat_turn_handler messages e w2
        /\ forall w',
             report_error e w2 = (Return tt, w') ->
             chat_turn (MCPClient_process_query self) previous_messages w
             = (Return (Continue messages), w')
             /\ forall turns,
                  chat_turns (S turns) (MCPClient_process_query self) previous_messages w
                  = chat_turns turns (MCPClient_process_query self) messages w').
Proof.
  intros Hvalid. split.
  - intros e w1 Hbody Hexn.
    destruct (chat_turn_body_frame _ _ _ _ _ Hvalid Hbody) as [[added Hadded] _].
    assert (chat_turn (MCPClient_process_query self) previous_messages w
            = chat_turn_handler previous_messages e w1) as Hturn.
    { unfold chat_turn. now rewrite Hbody, Hexn. }
    assert (list_at (heap w1) previous_messages = list_at (heap w) previous_messages)
      as Hsame by (rewrite Hadded; now apply list_at_old).
    split; [exact Hsame|]. split; [exact Hturn|]. split.
    + intros w' Hreport.
      assert (chat_turn (MCPClient_process_query self) previous_messages w
              = (Return (Continue previous_messages), w')) as Hgoes.
      { rewrite Hturn. unfold chat_turn_handler, bind. now rewrite Hreport. }
      split; [exact Hgoes|]. split.
      * unfold report_error in Hreport. rewrite external_run in Hreport.
        injection Hreport as _ <-. exact Hsame.
      * intros turns. cbn [chat_turns]. unfold bind at 1. now rewrite Hgoes.
    + intros e' w' Hreport turns. cbn [chat_turns]. unfold bind at 1.
      rewrite Hturn. unfold chat_turn_handler, bind. now rewrite Hreport.
  - intros messages text w1 e w2 Hbody Hprint Hexn.
    destruct (chat_turn_body_frame _ _ _ _ _ Hvalid Hbody) as [_ Hnew].
    specialize (Hnew _ _ eq_refl).
    assert (chat_turn (MCPClient_process_query self) previous_messages w
            = chat_turn_handler messages e w2) as Hturn.
    { unfold chat_turn. rewrite Hbody. unfold try_except, bind. now rewrite Hprint, Hexn. }
    split; [lia|]. split; [lia|]. split; [exact Hturn|].
    intros w' Hreport.
    assert (chat_turn (MCPClient_process_query self) previous_messages w
            = (Return (Continue messages), w')) as Hgoes.
    { rewrite Hturn. unfold chat_turn_handler, bind. now rewrite Hreport. }
    split; [exact Hgoes|].
    intros turns. cbn [chat_turns]. unfold bind at 1. now rewrite Hgoes.
Qed.

Lemma open_and_list (self client : MCPClient) (t : transport) (w w' : world) :
  (external (EvOpenSession t) (session_open t) ;;;
   list_tools ;;; ret (with_session self)) w = (Return client, w') ->
  client = with_session self
  /\ heap w' = heap w
  /\ trace w' = trace w ++ [EvOpenSession t; EvListTools].
Proof.
  unfold bind. rewrite external_run.
  destruct (fst (session_open _ _)); [|discriminate]. rewrite list_tools_run. cbn.
  destruct (fst (session_list_tools _)); [|discriminate].
  unfold ret. intros [= <- <-]. cbn. now rewrite <- app_assoc.
Qed.

(** X1.  A connection that returns gives the client a session and changes
    nothing else of it: one session has been opened and its tools listed
    once, over SSE at the very target when the target begins with
    [http://] or [https://], and otherwise over stdio with the target as
    the one argument of [npx], [python] or [node]. *)
Theorem connect_returns_with_one_session_and_its_tools
    (self : MCPClient) (server_path_or_url : pystr) (w w' : world) (client : MCPClient) :
  connect_to_server self server_path_or_url w = (Return client, w') ->
  session client = true
  /\ llm_provider client = llm_provider self
  /\ llm_service client = llm_service self
  /\ heap w' = heap w
  /\ exists t,
       trace w' = trace w ++ [EvOpenSession t; EvListTools]
       /\ if startswith server_path_or_url (codes "http://")
             || startswith server_path_or_url (codes "https://")
          then t = SSE server_path_or_url
          else exists command,
                 t = Stdio command [server_path_or_url]
                 /\ command ∈ [codes "npx"; codes "python"; codes "node"].
Proof.
  unfold connect_to_server, connect_to_sse_server, connect_to_stdio_server.
  destruct (startswith _ (codes "http://") || _).
  - intros H. apply open_and_list in H as (-> & Hheap & Htrace). eauto 10.
  - unfold bind at 1.
    destruct (startswith _ (codes "@") || _).
    + unfold ret at 1. intros H. apply open_and_list in H as (-> & Hheap & Htrace).
      repeat split; try assumption. eexists. split; [eassumption|].
      eexists. split; [reflexivity|]. repeat constructor.
    + destruct (negb _); [discriminate|]. unfold ret at 1.
      intros H. apply open_and_list in H as (-> & Hheap & Htrace).
      repeat split; try assumption. eexists. split; [eassumption|].
      eexists. split; [reflexivity|]. destruct (endswith _ _); repeat constructor.
Qed.

Lemma app_one_more {A : Type} (l : list A) (x : A) : l ++ [x] <> l.
Proof.
  intros H. apply (f_equal length) in H. rewrite length_app in H. cbn in H. lia.
Qed.

(** X2.  A target that is no URL, has a slash, does not begin with [@]
    and ends in neither [.py] nor [.js] is refused with [ValueError]
    before anything is opened, the world being left as it was; for every
    other target the first thing [connect_to_server] does is to open a
    session. *)
Theorem unsupported_target_is_refused_before_anything_opens
    (self : MCPClient) (target : pystr) (w w' : world) (r : outcome MCPClient) :
  connect_to_server self target w = (r, w') ->
  (unsupported_target target = true -> r = Raise ValueError /\ w' = w)
  /\ (unsupported_target target = false ->
      exists t rest, trace w' = trace w ++ EvOpenSession t :: rest).
Proof.
  unfold connect_to_server, connect_to_sse_server, connect_to_stdio_server,
    unsupported_target.
  assert (forall t, (external (EvOpenSession t) (session_open t) ;;;
                     list_tools ;;; ret (with_session self)) w = (r, w') ->
                    exists t rest, trace w' = trace w ++ EvOpenSession t :: rest) as Hopen.
  { intros t. unfold bind. rewrite external_run.
    destruct (fst (session_open _ _)); [|intros [= <- <-]; cbn; eauto].
    rewrite list_tools_run. cbn.
    destruct (fst (session_list_tools _)); unfold ret; intros [= <- <-]; cbn;
      rewrite <- app_assoc; eauto. }
  destruct (startswith _ (codes "http://") || _); cbn [negb andb].
  - intros H. split; [discriminate|]. intros _. eapply Hopen, H.
  - unfold bind at 1. destruct (startswith _ (codes "@") || _); cbn [negb andb].
    + unfold ret at 1. intros H. split; [discriminate|]. intros _. eapply Hopen, H.
    + destruct (endswith _ (codes ".py") || _) eqn:Hext; cbn [negb].
      * unfold ret at 1. intros H. split; [discriminate|]. intros _. eapply Hopen, H.
      * unfold raise. intros [= <- <-]. split; [auto|discriminate].
Qed.

(** ** The trace only grows *)

Lemma grows_ret {A : Type} (a : A) : grows (ret a).
Proof. intros w r w' [= <- <-]. exists []. now rewrite app_nil_r. Qed.

Lemma grows_raise {A : Type} (e : exn) : grows (raise (A := A) e).
Proof. intros w r w' [= <- <-]. exists []. now rewrite app_nil_r. Qed.

Lemma grows_lift {A : Type} (r : outcome A) : grows (lift r).
Proof. intros w r' w' [= <- <-]. exists []. now rewrite app_nil_r. Qed.

Lemma grows_bind {A B : Type} (c : M A) (k : A -> M B) :
  grows c -> (forall a, grows (k a)) -> grows (bind c k).
Proof.
  intros Hc Hk w r w'. unfold bind. destruct (c w) as [[a|e] w1] eqn:Hrun.
  - intros Hrest. apply Hc in Hrun as [ev1 H1]. apply Hk in Hrest as [ev2 H2].
    exists (ev1 ++ ev2). now rewrite H2, H1, app_assoc.
  - intros [= <- <-]. now apply Hc in Hrun.
Qed.

Lemma grows_external {A : Type} (ev : event) (f : Ext -> outcome A * Ext) :
  grows (external ev f).
Proof. intros w r w'. rewrite external_run. intros [= <- <-]. cbn. eauto. Qed.

Lemma grows_print (text : pystr) : grows (print text).
Proof. apply grows_external. Qed.

Lemma grows_report_error (e : exn) : grows (report_error e).
Proof. apply grows_external. Qed.

Lemma grows_new_list (xs : list message) : grows (new_list xs).
Proof. intros w r w' [= <- <-]. exists []. cbn. now rewrite app_nil_r. Qed.

Lemma grows_read_list (p : loc) : grows (read_list p).
Proof. intros w r w' [= <- <-]. exists []. now rewrite app_nil_r. Qed.

Lemma grows_list_extend (p : loc) (xs : list message) : grows (list_extend p xs).
Proof. intros w r w' [= <- <-]. exists []. cbn. now rewrite app_nil_r. Qed.

Lemma grows_read_optional (p : option loc) : grows (read_optional p).
Proof. destruct p; [apply grows_read_list|apply grows_ret]. Qed.

Lemma grows_try_except {A : Type} (body : M A) (handler : exn -> M A) :
  grows body -> (forall e, grows (handler e)) -> grows (try_except body handler).
Proof.
  intros Hb Hh w r w'. unfold try_except. destruct (body w) as [[a|e] w1] eqn:Hrun.
  - intros [= <- <-]. now apply Hb in Hrun.
  - destruct (is_Exception e).
    + intros Hrest. apply Hb in Hrun as [ev1 H1]. apply Hh in Hrest as [ev2 H2].
      exists (ev1 ++ ev2). now rewrite H2, H1, app_assoc.
    + intros [= <- <-]. now apply Hb in Hrun.
Qed.

Lemma grows_try_finally {A : Type} (body : M A) (final : M unit) :
  grows body -> grows final -> grows (try_finally body final).
Proof.
  intros Hb Hf w r w'. unfold try_finally. destruct (body w) as [rb w1] eqn:Hrun.
  destruct (final w1) as [rf w2] eqn:Hfinal.
  apply Hb in Hrun as [ev1 H1]. apply Hf in Hfinal as [ev2 H2].
  destruct rf; intros [= <- <-]; exists (ev1 ++ ev2); now rewrite H2, H1, app_assoc.
Qed.

Create HintDb grows.

#[local] Hint Resolve grows_ret grows_raise grows_lift grows_external grows_print
  grows_report_error grows_new_list grows_read_list grows_list_extend grows_read_optional
  : grows.

(** Take a computation apart along its binds. *)
#[local] Ltac grow :=
  repeat first
    [ progress auto with grows
    | apply grows_bind; [|intros ?]
    | apply grows_try_except; [|intros ?]
    | apply grows_try_finally
    | match goal with
      | |- grows (match ?x with _ => _ end) => destruct x
      | |- grows (let '(_, _) := ?x in _) => destruct x
      end ].

Lemma grows_list_tools : grows list_tools.
Proof. apply grows_external. Qed.

Lemma grows_call_tool (name : pystr) (arguments : pyval) : grows (call_tool name arguments).
Proof. apply grows_external. Qed.

Lemma grows_llm_process_query (s : service) (query : pystr) (available_tools : list tool)
    (previous_messages : option loc) :
  grows (llm_process_query s query available_tools previous_messages).
Proof.
  destruct s; cbn [llm_process_query];
    unfold AnthropicService_process_query, OpenAIService_process_query,
      GeminiService_process_query, list_append; grow.
Qed.

Lemma grows_mediate (matches : list (pystr * pystr)) :
  forall response_text, grows (mediate matches response_text).
Proof.
  induction matches as [|[tool_name tool_args_str] rest IH]; intros response_text;
    cbn [mediate]; [apply grows_ret|].
  apply grows_bind; [|intros tool_args; apply grows_bind; [apply grows_call_tool|auto]].
  rewrite parse_tool_args_total. apply grows_ret.
Qed.

Lemma grows_MCPClient_process_query (self : MCPClient) (query : pystr)
    (previous_messages : option loc) :
  grows (MCPClient_process_query self query previous_messages).
Proof.
  unfold MCPClient_process_query. destruct (negb _); [apply grows_raise|].
  apply grows_bind; [apply grows_list_tools|intros response].
  apply grows_bind; [apply grows_llm_process_query|intros [response_text messages]].
  apply grows_bind; [apply grows_mediate|intros text; apply grows_ret].
Qed.

(** ** A client and its session *)

Lemma connect_to_server_session (self client : MCPClient) (target : pystr) (w w' : world) :
  connect_to_server self target w = (Return client, w') -> session client = true.
Proof.
  unfold connect_to_server, connect_to_sse_server, connect_to_stdio_server.
  destruct (startswith _ (codes "http://") || _).
  - intros H. now apply open_and_list in H as (-> & _).
  - unfold bind at 1. destruct (startswith _ (codes "@") || _).
    + unfold ret at 1. intros H. now apply open_and_list in H as (-> & _).
    + destruct (negb _); [discriminate|]. unfold ret at 1.
      intros H. now apply open_and_list in H as (-> & _).
Qed.

(** X3.  A client that has just been built has no session: a query put
    to it raises [RuntimeError] and reaches neither the tool server nor
    the vendor.  Once [connect_to_server] has returned, a query passes the
    guard and begins by listing the tools. *)
Theorem query_before_connect_raises_RuntimeError
    (provider query : pystr) (previous_messages : option loc)
    (w w1 : world) (client : MCPClient) :
  MCPClient_init provider w = (Return client, w1) ->
  MCPClient_process_query client query previous_messages w1 = (Raise RuntimeError, w1)
  /\ forall target client' w2 r w3,
       connect_to_server client target w1 = (Return client', w2) ->
       MCPClient_process_query client' query previous_messages w2 = (r, w3) ->
       exists rest, trace w3 = trace w2 ++ EvListTools :: rest.
Proof.
  intros Hinit.
  assert (session client = false) as Hsession.
  { revert Hinit. unfold MCPClient_init.
    repeat (destruct (bool_decide _);
            [unfold bind; rewrite external_run;
             destruct (fst (new_vendor_client _ _)); [|discriminate];
             unfold ret; now intros [= <- <-]|]).
    discriminate. }
  split.
  - unfold MCPClient_process_query. now rewrite Hsession.
  - intros target client' w2 r w3 Hconnect.
    apply connect_to_server_session in Hconnect as Hs.
    unfold MCPClient_process_query. rewrite Hs. cbn [negb]. unfold bind at 1.
    rewrite list_tools_run.
    destruct (fst (session_list_tools _)) as [response|e].
    + match goal with
      | |- ?c ?w = _ -> _ =>
          intros Hrest; assert (grows c) as Hgrows
      end.
      { apply grows_bind; [apply grows_llm_process_query|intros [response_text messages]].
        apply grows_bind; [apply grows_mediate|intros text; apply grows_ret]. }
      apply Hgrows in Hrest as [events Hevents]. cbn in Hevents.
      rewrite <- app_assoc in Hevents. eauto.
    + intros [= <- <-]. cbn. eauto.
Qed.

(** ** The ways a query fails *)

(** When the mediator raises, it is a tool call that raised: the call of
    some match, after the calls of the matches before it. *)
Lemma mediate_raises (matches : list (pystr * pystr)) :
  forall (response_text : pystr) (w w' : world) (e : exn),
    mediate matches response_text w = (Raise e, w') ->
    exists k m x,
      matches !! k = Some m
      /\ trace w' = trace w ++ map call_of (take (S k) matches)
      /\ session_call_tool (fst m) (tool_args_of (snd m)) x = (Raise e, ext w').
Proof.
  induction matches as [|[tool_name tool_args_str] rest IH]; intros response_text w w' e;
    cbn [mediate]; [discriminate|].
  rewrite parse_tool_args_total. unfold bind at 1, ret at 1. unfold bind at 1.
  unfold call_tool. rewrite external_run.
  destruct (session_call_tool tool_name (tool_args_of tool_args_str) (ext w))
    as [[result|e'] x'] eqn:Hcall; cbn [fst snd].
  - intros Hrest. apply IH in Hrest as (k & m & x & Hk & Htrace & Hraise).
    exists (S k), m, x. repeat split; [exact Hk| |exact Hraise].
    rewrite Htrace. cbn [trace]. now rewrite <- app_assoc.
  - intros [= <- <-]. exists 0%nat, (tool_name, tool_args_str), (ext w).
    repeat split. cbn. exact Hcall.
Qed.

(** *** Events of one kind *)

Lemma adds_ret {A : Type} (kind : event -> Prop) (a : A) : adds kind (ret a).
Proof. intros w r w' [= <- <-]. exists []. now rewrite app_nil_r. Qed.

Lemma adds_raise {A : Type} (kind : event -> Prop) (e : exn) : adds kind (raise (A := A) e).
Proof. intros w r w' [= <- <-]. exists []. now rewrite app_nil_r. Qed.

Lemma adds_lift {A : Type} (kind : event -> Prop) (r : outcome A) : adds kind (lift r).
Proof. intros w r' w' [= <- <-]. exists []. now rewrite app_nil_r. Qed.

Lemma adds_bind {A B : Type} (kind : event -> Prop) (c : M A) (k : A -> M B) :
  adds kind c -> (forall a, adds kind (k a)) -> adds kind (bind c k).
Proof.
  intros Hc Hk w r w'. unfold bind. destruct (c w) as [[a|e] w1] eqn:Hrun.
  - intros Hrest. apply Hc in Hrun as (ev1 & H1 & K1). apply Hk in Hrest as (ev2 & H2 & K2).
    exists (ev1 ++ ev2). split; [now rewrite H2, H1, app_assoc|now apply Forall_app].
  - intros [= <- <-]. now apply Hc in Hrun.
Qed.

Lemma adds_external {A : Type} (kind : event -> Prop) (ev : event)
    (f : Ext -> outcome A * Ext) :
  kind ev -> adds kind (external ev f).
Proof.
  intros Hev w r w'. rewrite external_run. intros [= <- <-]. exists [ev].
  split; [reflexivity|]. now constructor.
Qed.

Lemma adds_new_list (kind : event -> Prop) (xs : list message) : adds kind (new_list xs).
Proof. intros w r w' [= <- <-]. exists []. cbn. now rewrite app_nil_r. Qed.

Lemma adds_read_list (kind : event -> Prop) (p : loc) : adds kind (read_list p).
Proof. intros w r w' [= <- <-]. exists []. now rewrite app_nil_r. Qed.

Lemma adds_list_extend (kind : event -> Prop) (p : loc) (xs : list message) :
  adds kind (list_extend p xs).
Proof. intros w r w' [= <- <-]. exists []. cbn. now rewrite app_nil_r. Qed.

Lemma adds_read_optional (kind : event -> Prop) (p : option loc) :
  adds kind (read_optional p).
Proof. destruct p; [apply adds_read_list|apply adds_ret]. Qed.

Lemma adds_print (text : pystr) : adds printed (print text).
Proof. now apply adds_external. Qed.

(** An adapter calls no tool. *)
Lemma adapter_calls_no_tool (s : service) (query : pystr) (available_tools : list tool)
    (previous_messages : option loc) :
  adds no_tool_call (llm_process_query s query available_tools previous_messages).
Proof.
  destruct s; cbn [llm_process_query];
    unfold AnthropicService_process_query, OpenAIService_process_query,
      GeminiService_process_query, list_append;
    repeat first
      [ apply adds_ret | apply adds_raise | apply adds_lift | apply adds_new_list
      | apply adds_read_list | apply adds_list_extend | apply adds_read_optional
      | apply adds_external; exact I
      | apply adds_bind; [|intros ?]
      | match goal with
        | |- adds _ (match ?x with _ => _ end) => destruct x
        end ].
Qed.

Lemma no_tool_calls_in (events : list event) :
  Forall no_tool_call events -> tool_calls_in events = [].
Proof.
  induction 1 as [|ev events Hev _ IH]; [reflexivity|].
  unfold tool_calls_in in *. cbn [flat_map]. rewrite IH. now destruct ev.
Qed.

(** X4.  A query that raises has failed in one of four places, and has
    done nothing of what comes after: the guard, on a client without a
    session ([RuntimeError], nothing done); listing the tools (the vendor
    was not asked); the adapter (no tool was called); or the call of the
    tool of some match, after the calls of the matches before it and
    before any of the later ones. *)
Theorem failed_query_stops_at_its_stage
    (self : MCPClient) (query : pystr) (previous_messages : option loc)
    (w w' : world) (e : exn) :
  MCPClient_process_query self query previous_messages w = (Raise e, w') ->
  (session self = false /\ e = RuntimeError /\ w' = w)
  \/ session self = true
     /\ ((list_tools w = (Raise e, w'))
         \/ (exists response w0,
               list_tools w = (Return response, w0)
               /\ llm_process_query (llm_service self) query (available_tools_of response)
                    previous_messages w0 = (Raise e, w')
               /\ tool_calls_in (trace w') = tool_calls_in (trace w))
         \/ (exists response w0 adapter_text messages w1 k m x,
               list_tools w = (Return response, w0)
               /\ llm_process_query (llm_service self) query (available_tools_of response)
                    previous_messages w0 = (Return (adapter_text, messages), w1)
               /\ findall adapter_text !! k = Some m
               /\ tool_calls_in (trace w')
                  = tool_calls_in (trace w)
                    ++ map invocation_of (take (S k) (findall adapter_text))
               /\ session_call_tool (fst m) (tool_args_of (snd m)) x = (Raise e, ext w'))).
Proof.
  unfold MCPClient_process_query. destruct (session self); cbn [negb];
    [|unfold raise; intros [= <- <-]; now left].
  intros Hrun. right. split; [reflexivity|]. revert Hrun.
  unfold bind at 1. destruct (list_tools w) as [[response|e0] w0] eqn:Hlist;
    [|intros [= <- <-]; now left].
  pose proof Hlist as Hw0. rewrite list_tools_run in Hw0.
  injection Hw0 as _ Hw0.
  assert (tool_calls_in (trace w0) = tool_calls_in (trace w)) as Hquiet.
  { subst w0. cbn. now apply tool_calls_in_quiet. }
  unfold bind at 1.
  destruct (llm_process_query _ _ _ _ w0) as [r1 w1] eqn:Hllm.
  assert (tool_calls_in (trace w1) = tool_calls_in (trace w)) as Hcalls.
  { destruct (adapter_calls_no_tool _ _ _ _ _ _ _ Hllm) as (events & Hevents & Hkind).
    rewrite Hevents, tool_calls_in_app, (no_tool_calls_in _ Hkind), app_nil_r.
    exact Hquiet. }
  destruct r1 as [[adapter_text messages]|e1].
  - unfold bind. destruct (mediate _ _ w1) as [[text|e2] w2] eqn:Hmediate; [discriminate|].
    intros [= <- <-]. apply mediate_raises in Hmediate as (k & m & x & Hk & Htrace & Hraise).
    right. right. exists response, w0, adapter_text, messages, w1, k, m, x.
    repeat split; try assumption.
    now rewrite Htrace, tool_calls_in_app, tool_calls_in_calls, Hcalls.
  - intros [= <- <-]. right. left. exists response, w0.
    split; [reflexivity|]. split; [exact Hllm|exact Hcalls].
Qed.

(** ** [main] *)

Lemma grows_MCPClient_init (provider : pystr) : grows (MCPClient_init provider).
Proof. unfold MCPClient_init. grow. Qed.

Lemma grows_connect_to_server (self : MCPClient) (target : pystr) :
  grows (connect_to_server self target).
Proof.
  unfold connect_to_server, connect_to_sse_server, connect_to_stdio_server.
  pose proof grows_list_tools. grow.
Qed.

Lemma grows_chat_turns (turns : nat) (self : MCPClient) :
  forall previous_messages,
    grows (chat_turns turns (MCPClient_process_query self) previous_messages).
Proof.
  induction turns as [|turns IH]; intros previous_messages; cbn [chat_turns];
    [apply grows_ret|].
  apply grows_bind; [|intros [|messages]; [apply grows_ret|apply IH]].
  intros w r w'. unfold chat_turn.
  destruct (chat_turn_body _ _ w) as [[[|messages text]|e] w1] eqn:Hbody.
  - intros [= <- <-]. revert Hbody. unfold chat_turn_body.
    pose proof (grows_MCPClient_process_query self). grow.
  - intros Hrest.
    assert (exists ev1, trace w1 = trace w ++ ev1) as [ev1 H1].
    { revert Hbody. unfold chat_turn_body.
      pose proof (grows_MCPClient_process_query self). grow. }
    assert (exists ev2, trace w' = trace w1 ++ ev2) as [ev2 H2].
    { revert Hrest. unfold chat_turn_handler. grow. }
    exists (ev1 ++ ev2). now rewrite H2, H1, app_assoc.
  - assert (exists ev1, trace w1 = trace w ++ ev1) as [ev1 H1].
    { revert Hbody. unfold chat_turn_body.
      pose proof (grows_MCPClient_process_query self). grow. }
    destruct (is_Exception e); [|intros [= <- <-]; eauto].
    intros Hrest.
    assert (exists ev2, trace w' = trace w1 ++ ev2) as [ev2 H2].
    { revert Hrest. unfold chat_turn_handler. grow. }
    exists (ev1 ++ ev2). now rewrite H2, H1, app_assoc.
Qed.

Lemma grows_chat_loop (turns : nat) (client self : MCPClient) :
  grows (chat_loop turns client (MCPClient_process_query self)).
Proof. unfold chat_loop. pose proof (grows_chat_turns turns self). grow. Qed.

(** An event in a list that ends with [c] and a tail without that event
    has [c] after it. *)
Lemma followed_by {A : Type} (a c : A) (before after front tail : list A) :
  before ++ a :: after = front ++ c :: tail ->
  a <> c -> a ∉ tail -> c ∈ after.
Proof.
  revert front. induction before as [|b before IH]; intros front Heq Hne Htail.
  - destruct front as [|f front]; cbn in Heq.
    + congruence.
    + injection Heq as _ ->. apply elem_of_app. right. left.
  - destruct front as [|f front]; cbn in Heq.
    + injection Heq as _ <-. exfalso. apply Htail. apply elem_of_app. right. left.
    + injection Heq as _ Heq. now apply (IH front).
Qed.

(** X5.  Whatever happens to [main], a return, an exception of the
    connection or of the chat loop, even one that is no [Exception], it
    adds events to the trace and removes none, and every session it has
    opened is followed by the cleanup. *)
Theorem main_closes_the_session_it_opened
    (turns : nat) (argv : list pystr) (w w' : world) (r : outcome unit) :
  main turns argv w = (r, w') ->
  exists events,
    trace w' = trace w ++ events
    /\ forall before t after,
         events = before ++ EvOpenSession t :: after -> EvCleanup ∈ after.
Proof.
  unfold main. destruct argv as [|prog [|target rest]].
  1, 2: intros Husage;
    assert (exists events, trace w' = trace w ++ events /\ Forall printed events)
      as (events & Hevents & Hprinted)
      by (revert Husage;
          repeat first [apply adds_print | apply adds_raise | apply adds_bind; [|intros ?]]);
    exists events; (split; [exact Hevents|]);
    intros before t after Heq; exfalso; subst events;
    apply Forall_app in Hprinted as [_ Hprinted]; now inversion Hprinted.
  cbv zeta. set (provider := match rest with [] => _ | _ => _ end).
  unfold bind at 1. destruct (MCPClient_init provider w) as [[client|e] w1] eqn:Hinit.
  - unfold try_finally.
    match goal with
    | |- context [?body w1] => destruct (body w1) as [rb wb] eqn:Hbody
    end.
    assert (exists events, trace wb = trace w ++ events) as [events Hevents].
    { apply grows_MCPClient_init in Hinit as [ev1 H1].
      assert (exists ev2, trace wb = trace w1 ++ ev2) as [ev2 H2].
      { revert Hbody. apply grows_bind; [apply grows_connect_to_server|].
        intros client'. apply grows_chat_loop. }
      exists (ev1 ++ ev2). now rewrite H2, H1, app_assoc. }
    unfold cleanup, bind, print. rewrite external_run.
    destruct (fst (session_close (ext wb))) as [[]|e];
      [rewrite external_run; cbn [trace]; destruct (fst (terminal_print _ _))|];
      intros [= <- <-]; cbn [trace];
      rewrite Hevents, <- !app_assoc; eexists; (split; [reflexivity|]);
      intros before t after Heq;
      cbn [app] in Heq; (eapply followed_by; [symmetry; exact Heq|discriminate|]).
    1, 2: intros Hin; apply elem_of_cons in Hin as [Hin|Hin]; [discriminate|];
      now apply elem_of_nil in Hin.
    apply not_elem_of_nil.
  - intros [= <- <-]. revert Hinit. unfold MCPClient_init.
    assert (forall s p, (external (EvNewClient p) (new_vendor_client s) ;;;
                         ret {| llm_provider := p; llm_service := s; session := false |}) w
                        = (Raise e, w1) ->
                        trace w1 = trace w ++ [EvNewClient p]) as Hnew.
    { intros s p. unfold bind. rewrite external_run.
      destruct (fst (new_vendor_client s (ext w))); [discriminate|]. now intros [= _ <-]. }
    assert (forall p before t after,
              [EvNewClient p] = before ++ EvOpenSession t :: after -> EvCleanup ∈ after)
      as Hnone.
    { intros p [|b [|b' before]] t after; discriminate. }
    repeat (destruct (bool_decide _); [intros H; apply Hnew in H; eauto|]).
    unfold raise. intros [= _ <-]. exists []. rewrite app_nil_r.
    split; [reflexivity|]. intros [|b before] t after; discriminate.
Qed.

(** *** The provider on the command line *)

Lemma ascii_lower_is_ascii (c : N) : is_ascii c = true -> is_ascii (ascii_lower c) = true.
Proof.
  unfold is_ascii, ascii_lower, is_upper. chars. compare; intros; try reflexivity; lia.
Qed.

Lemma ascii_lower_twice (c : N) : ascii_lower (ascii_lower c) = ascii_lower c.
Proof.
  unfold ascii_lower, is_upper. chars. compare; intros; try reflexivity; lia.
Qed.

Lemma str_lower_twice (s : pystr) :
  forallb is_ascii s = true -> str_lower (str_lower s) = str_lower s.
Proof.
  intros Hs. unfold str_lower. rewrite Hs.
  assert (forallb is_ascii (map ascii_lower s) = true) as ->.
  { induction s as [|c s IH]; [reflexivity|]. cbn in *.
    apply andb_prop in Hs as [Hc Hs]. now rewrite ascii_lower_is_ascii, IH. }
  rewrite map_map. apply map_ext. intros c. apply ascii_lower_twice.
Qed.

(** X6.  The provider on the command line is read without regard to
    letter case, and what follows it is ignored: [main] runs with an ASCII
    name as it runs with the name in lower case. *)
Theorem provider_name_is_read_without_case
    (turns : nat) (prog target given : pystr) (rest : list pystr) :
  forallb is_ascii given = true ->
  main turns (prog :: target :: given :: rest) = main turns [prog; target; str_lower given].
Proof.
  intros Hascii. unfold main. now rewrite (str_lower_twice given Hascii).
Qed.

(** ** The words of the chat loop *)

Lemma lstrip_spaces (before rest : pystr) :
  forallb is_space before = true -> lstrip (before ++ rest) = lstrip rest.
Proof.
  induction before as [|c before IH]; [reflexivity|]. cbn [forallb app lstrip].
  intros H. apply andb_prop in H as [-> H]. now apply IH.
Qed.

Lemma lstrip_word (c : N) (rest : pystr) : is_space c = false -> lstrip (c :: rest) = c :: rest.
Proof. intros H. cbn. now rewrite H. Qed.

Lemma forallb_rev (f : N -> bool) (s : pystr) : forallb f (rev s) = forallb f s.
Proof.
  induction s as [|c s IH]; [reflexivity|]. cbn. rewrite forallb_app, IH. cbn.
  now rewrite andb_true_r, andb_comm.
Qed.

Lemma lstrip_no_space (q rest : pystr) :
  q <> [] -> forallb (fun c => negb (is_space c)) q = true -> lstrip (q ++ rest) = q ++ rest.
Proof.
  destruct q as [|c q]; [congruence|]. cbn. intros _ H.
  apply andb_prop in H as [H _]. now destruct (is_space c).
Qed.

(** [strip] takes the white space off both ends of a text that has none
    inside. *)
Lemma str_strip_word (before q after : pystr) :
  forallb is_space before = true -> forallb is_space after = true ->
  q <> [] -> forallb (fun c => negb (is_space c)) q = true ->
  str_strip (before ++ q ++ after) = q.
Proof.
  intros Hb Ha Hq Hword. unfold str_strip.
  rewrite lstrip_spaces, lstrip_no_space by assumption.
  rewrite rev_app_distr, lstrip_spaces by now rewrite forallb_rev.
  rewrite <- (app_nil_r (rev q)), lstrip_no_space.
  - rewrite app_nil_r. apply rev_involutive.
  - intros H. apply (f_equal (@rev N)) in H. now rewrite rev_involutive in H.
  - now rewrite forallb_rev.
Qed.

Lemma str_strip_blank (line : pystr) : forallb is_space line = true -> str_strip line = [].
Proof.
  intros H. unfold str_strip.
  rewrite <- (app_nil_r line), lstrip_spaces by exact H. reflexivity.
Qed.

Lemma ascii_space_stays (c : N) :
  is_ascii c = true -> is_space c = true -> ascii_lower c = c.
Proof.
  unfold is_space, ascii_lower, is_upper. intros ->. chars. compare; intros; try reflexivity;
    try discriminate; lia.
Qed.

Lemma typed_strip (word line : pystr) :
  word <> [] -> forallb (fun c => negb (is_space c)) word = true ->
  typed word line -> str_lower (str_strip line) = word.
Proof.
  intros Hword Hns (before & q & after & -> & Hb & Ha & Hascii & Hlower).
  rewrite str_strip_word; try assumption.
  - unfold str_lower. now rewrite Hascii.
  - intros ->. now subst word.
  - subst word. clear Hword. induction q as [|c q IH]; [reflexivity|]. cbn in *.
    apply andb_prop in Hascii as [Hc Hascii]. apply andb_prop in Hns as [Hns1 Hns].
    rewrite IH by assumption. rewrite andb_true_r.
    destruct (is_space c) eqn:Hspace; [|reflexivity].
    rewrite (ascii_space_stays c Hc Hspace), Hspace in Hns1. discriminate.
Qed.

Lemma input_run (w : world) :
  external EvInput terminal_input w
  = (fst (terminal_input (ext w)),
     {| heap := heap w; ext := snd (terminal_input (ext w)); trace := trace w ++ [EvInput] |}).
Proof. apply external_run. Qed.

Lemma no_space_in (word : pystr) :
  forallb (fun c => is_ascii c && negb ((c =? chr " ") || ((9 <=? c) && (c <=? 13))
                                          || ((28 <=? c) && (c <=? 31)))) word = true ->
  forallb (fun c => negb (is_space c)) word = true.
Proof.
  induction word as [|c word IH]; [reflexivity|]. cbn [forallb]. intros H.
  apply andb_prop in H as [Hc H]. rewrite IH by exact H. rewrite andb_true_r.
  apply andb_prop in Hc as [Hascii Hc]. unfold is_space. now rewrite Hascii.
Qed.

(** X8.  A line that is [quit] in any letter case, with any white space
    around it, ends the chat loop at once: nothing but the line is read,
    and the query function is not called. *)
Theorem quit_ends_the_loop
    (process_query_fn : pystr -> option loc -> M (pystr * loc)) (previous_messages : loc)
    (turns : nat) (w : world) (line : pystr) (x : Ext) :
  terminal_input (ext w) = (Return line, x) ->
  typed (codes "quit") line ->
  chat_turns (S turns) process_query_fn previous_messages w
  = (Return tt, {| heap := heap w; ext := x; trace := trace w ++ [EvInput] |}).
Proof.
  intros Hinput Htyped. apply typed_strip in Htyped;
    [|discriminate|apply no_space_in; vm_compute; reflexivity].
  cbn [chat_turns]. unfold chat_turn, chat_turn_body, bind at 1, try_except, bind at 1.
  rewrite input_run, Hinput. cbn [fst snd]. rewrite Htyped.
  rewrite bool_decide_eq_true_2 by reflexivity. reflexivity.
Qed.

(** What the handler of the chat loop gives: it changes no list, and
    when it returns the loop goes on with the list it was reached
    with. *)
Lemma chat_turn_handler_run (messages : loc) (e : exn) (w w' : world)
    (r : outcome loop_control) :
  chat_turn_handler messages e w = (r, w') ->
  heap w' = heap w /\ forall control, r = Return control -> control = Continue messages.
Proof.
  unfold chat_turn_handler, bind, report_error. rewrite external_run.
  destruct (fst (terminal_print _ _)); intros [= <- <-]; (split; [reflexivity|]);
    [now intros ? [= <-]|discriminate].
Qed.

(** The [print] that ends the [try] block, under the handler. *)
Lemma print_and_go_on_run (messages : loc) (text : pystr) (w w' : world)
    (r : outcome loop_control) :
  try_except (print text ;;; ret (Continue messages)) (chat_turn_handler messages) w = (r, w') ->
  heap w' = heap w /\ forall control, r = Return control -> control = Continue messages.
Proof.
  unfold try_except, bind at 1, print. rewrite external_run.
  destruct (fst (terminal_print text (ext w))) as [[]|e].
  - intros [= <- <-]. split; [reflexivity|]. now intros ? [= <-].
  - destruct (is_Exception e).
    + intros Hhandler. now apply chat_turn_handler_run in Hhandler.
    + intros [= <- <-]. split; [reflexivity|discriminate].
Qed.

(** X9.  A line that is [refresh] in any letter case starts a new, empty
    transcript.  The turn makes a new list, prints that the history is
    cleared, and the query function is not called; whatever that [print]
    does, the lists that existed keep what they held, the new list is
    empty, and a turn that returns goes on with the new list, even when
    it is the handler that returns, after the [print] has raised. *)
Theorem refresh_starts_a_new_transcript
    (process_query_fn : pystr -> option loc -> M (pystr * loc)) (previous_messages : loc)
    (w : world) (line : pystr) (x : Ext) :
  terminal_input (ext w) = (Return line, x) ->
  typed (codes "refresh") line ->
  chat_turn process_query_fn previous_messages w
  = try_except
      (print (codes "Conversation history cleared.") ;;; ret (Continue (length (heap w))))
      (chat_turn_handler (length (heap w)))
      {| heap := heap w ++ [[]]; ext := x; trace := trace w ++ [EvInput] |}
  /\ (forall r w',
        chat_turn process_query_fn previous_messages w = (r, w') ->
        heap w' = heap w ++ [[]]
        /\ forall control, r = Return control -> control = Continue (length (heap w)))
  /\ (forall x',
        terminal_print (codes "Conversation history cleared.") x = (Return tt, x') ->
        chat_turn process_query_fn previous_messages w
        = (Return (Continue (length (heap w))),
           {| heap := heap w ++ [[]]; ext := x';
              trace := trace w
                       ++ [EvInput; EvPrint (codes "Conversation history cleared.")] |})).
Proof.
  intros Hinput Htyped. apply typed_strip in Htyped;
    [|discriminate|apply no_space_in; vm_compute; reflexivity].
  assert (chat_turn process_query_fn previous_messages w
          = try_except
              (print (codes "Conversation history cleared.")
               ;;; ret (Continue (length (heap w))))
              (chat_turn_handler (length (heap w)))
              {| heap := heap w ++ [[]]; ext := x; trace := trace w ++ [EvInput] |})
    as Hturn.
  { unfold chat_turn, chat_turn_body, bind at 1.
    rewrite input_run, Hinput. cbn [fst snd]. rewrite Htyped.
    rewrite bool_decide_eq_false_2 by (vm_compute; discriminate).
    rewrite bool_decide_eq_true_2 by reflexivity.
    unfold bind at 1, new_list, ret at 1. reflexivity. }
  split; [exact Hturn|]. split.
  - intros r w' Hrun. rewrite Hturn in Hrun. now apply print_and_go_on_run in Hrun.
  - intros x' Hprint. rewrite Hturn. unfold try_except, bind, print. rewrite external_run.
    cbn [ext heap trace]. rewrite Hprint. cbn [fst snd]. unfold ret.
    now rewrite <- app_assoc.
Qed.

(** X10.  The chat loop does not skip a blank line: a line of white space
    is stripped to the empty string, and the empty string is sent to the
    query function like any other query. *)
Theorem blank_line_is_sent_as_the_empty_query
    (process_query_fn : pystr -> option loc -> M (pystr * loc)) (previous_messages : loc)
    (w : world) (line : pystr) (x : Ext) :
  terminal_input (ext w) = (Return line, x) ->
  forallb is_space line = true ->
  chat_turn_body process_query_fn previous_messages w
  = (r <- process_query_fn [] (Some previous_messages) ;;
     let '(response, messages) := r in
     ret (Rebound messages (10 :: codes "Response: " ++ response)))
      {| heap := heap w; ext := x; trace := trace w ++ [EvInput] |}.
Proof.
  intros Hinput Hblank. unfold chat_turn_body, bind at 1.
  rewrite input_run, Hinput. cbn [fst snd]. rewrite (str_strip_blank line Hblank).
  change (str_lower []) with (@nil N).
  now rewrite !bool_decide_eq_false_2 by (vm_compute; discriminate).
Qed.

(** ** What the transcript holds *)

(** X11.  With the Anthropic and the Gemini service the replies of the
    model are never recorded: when the transcript holds user messages
    only, so does the transcript the loop goes on with after a turn,
    whether the turn answered a query, started afresh or failed, before
    or after the assignment. *)
Theorem replies_are_not_recorded
    (self : MCPClient) (previous_messages messages : loc) (w w' : world) :
  llm_service self <> OpenAIService ->
  (previous_messages < length (heap w))%nat ->
  Forall (fun m => exists query, m = user_message query) (list_at (heap w) previous_messages) ->
  chat_turn (MCPClient_process_query self) previous_messages w
  = (Return (Continue messages), w') ->
  (messages < length (heap w'))%nat
  /\ Forall (fun m => exists query, m = user_message query) (list_at (heap w') messages).
Proof.
  intros Hservice Hvalid Husers. unfold chat_turn.
  destruct (chat_turn_body _ _ w) as [[[|messages0 text]|e] w1] eqn:Hbody.
  - discriminate.
  - intros Hrest. apply print_and_go_on_run in Hrest as [-> Hcontrol].
    specialize (Hcontrol _ eq_refl). injection Hcontrol as ->.
    revert Hbody. unfold chat_turn_body, bind at 1.
    rewrite input_run. destruct (fst (terminal_input (ext w))) as [line|e]; [|discriminate].
    destruct (bool_decide _); [discriminate|]. destruct (bool_decide _).
    + unfold bind, new_list, ret. cbn. intros [= <- _ <-]. cbn.
      rewrite length_app. cbn. split; [lia|]. rewrite list_at_new. constructor.
    + unfold bind at 1.
      match goal with
      | |- context [MCPClient_process_query self ?q ?p ?w0] =>
          destruct (MCPClient_process_query self q p w0)
            as [[[response messages']|e] w2] eqn:Hquery; [|discriminate]
      end.
      unfold ret. intros [= <- _ <-].
      apply MCPClient_process_query_returns in Hquery
        as (tools & w0 & adapter_text & w3 & Htools & Hllm & Hmediate).
      rewrite list_tools_run in Htools. injection Htools as _ <-.
      apply mediate_run in Hmediate as [-> _].
      apply adapter_effect in Hllm as Heffect; [|exact Hvalid].
      destruct Heffect as [_ [[_ [e He]]|(extension & -> & Hloc & Hext)]]; [discriminate|].
      specialize (Hloc _ _ eq_refl). cbn [heap] in *. subst messages'.
      destruct Hext as [->|[Hopenai _]]; [|contradiction].
      rewrite length_app, list_at_new. cbn. split; [lia|].
      apply Forall_app. split; [exact Husers|]. constructor; [eauto|constructor].
  - destruct (is_Exception e); [|discriminate].
    intros Hrest. apply chat_turn_handler_run in Hrest as [-> Hcontrol].
    specialize (Hcontrol _ eq_refl). injection Hcontrol as ->.
    apply chat_turn_body_frame in Hbody as [[added ->] _]; [|exact Hvalid].
    rewrite length_app, list_at_old by exact Hvalid. split; [lia|exact Husers].
Qed.


(** ** What the pattern finds *)

(** X7.  Every match of the tool-call pattern has a name of one or more
    word characters and hyphens, and arguments that are not empty, stay on
    one line, and hold no closing bracket after their first character: the
    arguments of a marker are cut at the first closing bracket. *)
Theorem matches_are_well_shaped (s : pystr) :
  Forall well_shaped (findall s).
Proof.
  unfold findall. generalize (length s) as fuel. intros fuel. revert s.
  induction fuel as [|fuel IH]; intros s; cbn [findall_from]; [constructor|].
  destruct s as [|c r]; [constructor|].
  destruct (match_here (c :: r)) as [[groups rest]|] eqn:Hmatch; [|apply IH].
  constructor; [|apply IH]. now apply match_here_shape in Hmatch.
Qed.

(** *** Text without an opening bracket *)

Lemma match_here_quiet (c : N) (s : pystr) : (c =? chr "[") = false -> match_here (c :: s) = None.
Proof.
  intros Hc. unfold match_here.
  change (codes "[Tool call: ") with (chr "[" :: codes "Tool call: ").
  cbn [strip_prefix]. now rewrite N.eqb_sym, Hc.
Qed.

Lemma findall_app_quiet (text rest : pystr) :
  quiet text = true -> findall (text ++ rest) = findall rest.
Proof.
  unfold quiet. induction text as [|c text IH]; [reflexivity|]. cbn [forallb app].
  intros H. apply andb_prop in H as [Hc H]. apply negb_true_iff in Hc.
  unfold findall at 1. cbn [length findall_from]. rewrite match_here_quiet by exact Hc.
  now apply IH.
Qed.

Lemma findall_app_marker (name a rest : pystr) (c0 : N) :
  name <> [] -> forallb name_char name = true ->
  forallb (fun c => negb (c =? chr "]") && negb (c =? 10)) a = true ->
  (c0 =? 10) = false ->
  findall (marker_text name (c0 :: a) ++ rest) = (name, c0 :: a) :: findall rest.
Proof.
  intros Hne Hname Ha Hc0.
  pose proof (match_here_marker name [] a rest c0 Hne Hname Ha Hc0) as Hmatch.
  unfold findall at 1.
  destruct (marker_text name (c0 :: a) ++ rest) as [|m ms] eqn:Htext; [discriminate|].
  cbn [length findall_from]. rewrite Hmatch. f_equal.
  apply findall_fuel_is_enough. apply match_here_consumes in Hmatch. cbn in Hmatch. lia.
Qed.

(** ** From the adapter's pieces to the tool calls *)

Lemma findall_join_quiet (text : pystr) (pieces : list pystr) :
  quiet text = true ->
  findall (str_join [10] (text :: pieces)) = findall (str_join [10] pieces).
Proof.
  intros Hquiet. destruct pieces as [|piece pieces].
  - cbn [str_join]. rewrite <- (app_nil_r text). now apply findall_app_quiet.
  - rewrite str_join_cons, app_assoc. apply findall_app_quiet.
    unfold quiet in *. rewrite forallb_app, Hquiet. reflexivity.
Qed.

Lemma findall_join_marker (name : pystr) (arguments : pydict) (pieces : list pystr) :
  name <> [] -> forallb name_char name = true -> forallb safe_item arguments = true ->
  findall (str_join [10] (tool_call_marker name (PDict arguments) :: pieces))
  = (name, py_repr (PDict arguments)) :: findall (str_join [10] pieces).
Proof.
  intros Hne Hname Hsafe. apply read_back_plain in Hsafe as [Hflat _].
  change (tool_call_marker name (PDict arguments))
    with (marker_text name (py_repr (PDict arguments))).
  rewrite py_repr_mapping.
  assert (forallb (fun c => negb (c =? chr "]") && negb (c =? 10))
            (str_join (codes ", ") (map repr_item arguments) ++ codes "}") = true) as Hclean.
  { destruct (repr_items_normalized arguments Hflat) as [_ Hclean].
    rewrite forallb_app, Hclean. reflexivity. }
  destruct pieces as [|piece pieces].
  - cbn [str_join]. now apply findall_marker.
  - rewrite str_join_cons, findall_app_marker by (assumption || reflexivity).
    now rewrite (findall_app_quiet [10]).
Qed.

Lemma renders_calls (pieces : list pystr) (calls : list (pystr * pyval)) :
  (1 <= client_recursion_room)%nat ->
  renders pieces calls ->
  map invocation_of (findall (str_join [10] pieces)) = calls.
Proof.
  intros Hroom. induction 1 as [|text pieces calls Hquiet _ IH
                                 |name arguments pieces calls Hne Hname Hplain _ IH].
  - reflexivity.
  - now rewrite findall_join_quiet.
  - rewrite findall_join_marker; try assumption; [|apply Hplain].
    cbn [map]. rewrite IH. f_equal. unfold invocation_of, tool_args_of. cbn [fst snd].
    destruct Hplain as [Hnodup Hsafe]. destruct (read_back_plain _ Hsafe) as [Hflat Hsame].
    rewrite repr_normalized by exact Hflat.
    rewrite json_loads_object by (try split; assumption). now rewrite Hsame.
Qed.

(** [repr] writes every plain mapping. *)
Lemma plain_mapping_writable (d : pydict) : plain_mapping d -> repr_returns (PDict d) = true.
Proof. intros [_ Hsafe]. apply flat_mapping_writable. now apply read_back_plain. Qed.

(** *** Anthropic *)

Lemma anthropic_renders (response_content : list content_block) :
  Forall plain_block response_content ->
  anthropic_final_text response_content = Return (anthropic_pieces response_content)
  /\ renders (anthropic_pieces response_content) (tool_uses response_content).
Proof.
  intros Hplain. split.
  - rewrite anthropic_final_text_pieces.
    assert (forallb writable_block response_content = true) as ->; [|reflexivity].
    induction Hplain as [|[text|name input|] blocks Hblock _ IH];
      cbn [forallb writable_block andb]; try assumption; [reflexivity|].
    destruct Hblock as (_ & _ & Hinput). now rewrite (plain_mapping_writable _ Hinput).
  - induction Hplain as [|[text|name input|] blocks Hblock _ IH]; cbn.
    + constructor.
    + now constructor.
    + destruct Hblock as (Hne & Hname & Hinput). now constructor.
    + exact IH.
Qed.

(** X12.  From Anthropic's reply to the tool server: when the text blocks
    of the reply have no opening bracket and its tool uses have proper
    names and plain mappings as input, a query that returns has called
    exactly the tools the reply uses, in the order of the blocks, each
    under its name with its input. *)
Theorem anthropic_tool_uses_become_tool_calls
    (self : MCPClient) (query : pystr) (previous_messages : option loc)
    (w w' : world) (text : pystr) (messages : loc) :
  llm_service self = AnthropicService ->
  valid_ref w previous_messages ->
  (1 <= client_recursion_room)%nat ->
  MCPClient_process_query self query previous_messages w = (Return (text, messages), w') ->
  exists response w0 response_content x,
    list_tools w = (Return response, w0)
    /\ anthropic_messages_create
         (prior_messages w previous_messages ++ [user_message query])
         (available_tools_of response) (ext w0)
       = (Return response_content, x)
    /\ (Forall plain_block response_content ->
        tool_calls_in (trace w') = tool_calls_in (trace w) ++ tool_uses response_content).
Proof.
  intros Hservice Hvalid Hroom Hquery.
  apply MCPClient_process_query_returns in Hquery
    as (response & w0 & adapter_text & w1 & Htools & Hllm & Hmediate).
  exists response, w0. pose proof Htools as Hw0. rewrite list_tools_run in Hw0.
  injection Hw0 as _ Hw0.
  assert (valid_ref w0 previous_messages) as Hvalid0 by now subst w0.
  assert (prior_messages w0 previous_messages = prior_messages w previous_messages)
    as Hprior by now subst w0.
  rewrite Hservice in Hllm. cbn [llm_process_query] in Hllm.
  rewrite AnthropicService_run in Hllm by exact Hvalid0. cbv zeta in Hllm.
  rewrite Hprior in Hllm.
  destruct (anthropic_messages_create _ _ (ext w0)) as [[response_content|e] x];
    [|discriminate].
  exists response_content, x. repeat split; try assumption.
  intros Hplain. destruct (anthropic_renders _ Hplain) as [Hpieces Hrenders].
  rewrite Hpieces in Hllm. injection Hllm as <- _ <-.
  apply mediate_run in Hmediate as [_ (_ & _ & ->)]. cbn [trace].
  rewrite !tool_calls_in_app, tool_calls_in_calls.
  rewrite (renders_calls _ _ Hroom Hrenders).
  subst w0. cbn [trace]. rewrite tool_calls_in_app. cbn. now rewrite !app_nil_r.
Qed.

(** *** OpenAI *)

Lemma openai_markers_cons (tc : tool_call) (calls : list tool_call) :
  openai_markers (tc :: calls)
  = match json_loads adapter_recursion_room (tc_arguments tc) with
    | Raise e => Raise e
    | Return function_args =>
        match write_marker (tc_name tc) function_args with
        | Raise e => Raise e
        | Return marker =>
            match openai_markers calls with
            | Raise e => Raise e
            | Return ms => Return (marker :: ms)
            end
        end
    end.
Proof. reflexivity. Qed.

Lemma openai_renders (calls : list tool_call) :
  Forall plain_call calls ->
  exists markers,
    openai_markers calls = Return markers /\ renders markers (map requested calls).
Proof.
  induction 1 as [|tc calls (Hne & Hname & d & Hd & Hplain) _ (markers & Hmarkers & IH)].
  - exists []. split; [reflexivity|constructor].
  - cbn [map]. rewrite openai_markers_cons, Hd. unfold write_marker.
    rewrite (plain_mapping_writable _ Hplain), Hmarkers. eexists. split; [reflexivity|].
    unfold requested at 1. rewrite Hd. now constructor.
Qed.

Lemma OpenAIService_returns (query : pystr) (available_tools : list tool)
    (previous_messages : option loc) (w w' : world) (text : pystr) (messages : loc) :
  valid_ref w previous_messages ->
  OpenAIService_process_query query available_tools previous_messages w
  = (Return (text, messages), w') ->
  exists response_message choices x,
    openai_chat_completions_create
      (prior_messages w previous_messages ++ [user_message query])
      (openai_tools_of available_tools) (ext w)
    = (Return (response_message :: choices), x)
    /\ trace w' = trace w ++ [EvVendor (codes "openai")]
    /\ match om_tool_calls response_message with
       | Some (tc :: tcs) =>
           exists markers,
             openai_markers (tc :: tcs) = Return markers
             /\ text = str_join [10] (default [] (om_content response_message) :: markers)
       | _ => om_content response_message = Some text
       end.
Proof.
  intros Hvalid. unfold OpenAIService_process_query. cbv zeta.
  rewrite fresh_transcript by exact Hvalid. unfold bind at 1. rewrite external_run.
  cbn [ext heap trace].
  destruct (openai_chat_completions_create _ _ (ext w)) as [[choices|e] x] eqn:Hcreate;
    cbn [fst snd]; [|discriminate].
  destruct choices as [|response_message choices]; [discriminate|].
  intros Hrun. exists response_message, choices, x. split; [reflexivity|]. revert Hrun.
  destruct (om_tool_calls response_message) as [[|tc tcs]|].
  - unfold ret, raise. destruct (om_content response_message); [|discriminate].
    cbn [str_join]. now intros [= <- _ <-].
  - unfold bind, list_append, list_extend, lift, ret. cbv beta iota zeta.
    destruct (openai_markers (tc :: tcs)) as [markers|e] eqn:Hmarkers; [|discriminate].
    intros [= <- _ <-]. cbn [trace]. split; [reflexivity|]. now exists markers.
  - unfold ret, raise. destruct (om_content response_message); [|discriminate].
    cbn [str_join]. now intros [= <- _ <-].
Qed.

(** X13.  From OpenAI's reply to the tool server: when the content of the
    first choice has no opening bracket, and every tool call of it has a
    proper name, one or more word characters and hyphens, and arguments
    that decode to a plain mapping, a query that returns has called
    exactly the functions the reply names, in their order, each with its
    decoded arguments.  [json.loads] must be allowed to enter one
    container where the client calls it. *)
Theorem openai_tool_calls_become_tool_calls
    (self : MCPClient) (query : pystr) (previous_messages : option loc)
    (w w' : world) (text : pystr) (messages : loc) :
  llm_service self = OpenAIService ->
  valid_ref w previous_messages ->
  (1 <= client_recursion_room)%nat ->
  MCPClient_process_query self query previous_messages w = (Return (text, messages), w') ->
  exists response w0 response_message choices x,
    list_tools w = (Return response, w0)
    /\ openai_chat_completions_create
         (prior_messages w previous_messages ++ [user_message query])
         (openai_tools_of (available_tools_of response)) (ext w0)
       = (Return (response_message :: choices), x)
    /\ (quiet (default [] (om_content response_message)) = true ->
        Forall plain_call (default [] (om_tool_calls response_message)) ->
        tool_calls_in (trace w')
        = tool_calls_in (trace w)
          ++ map requested (default [] (om_tool_calls response_message))).
Proof.
  intros Hservice Hvalid Hroom Hquery.
  apply MCPClient_process_query_returns in Hquery
    as (response & w0 & adapter_text & w1 & Htools & Hllm & Hmediate).
  exists response, w0. pose proof Htools as Hw0. rewrite list_tools_run in Hw0.
  injection Hw0 as _ Hw0.
  assert (valid_ref w0 previous_messages) as Hvalid0 by now subst w0.
  assert (prior_messages w0 previous_messages = prior_messages w previous_messages)
    as Hprior by now subst w0.
  rewrite Hservice in Hllm. cbn [llm_process_query] in Hllm.
  apply OpenAIService_returns in Hllm
    as (response_message & choices & x & Hcreate & Htrace & Htext); [|exact Hvalid0].
  rewrite Hprior in Hcreate. exists response_message, choices, x.
  repeat split; try assumption. intros Hquiet Hcalls.
  apply mediate_run in Hmediate as [_ (_ & _ & Hcalled)].
  rewrite Hcalled, Htrace. subst w0. cbn [trace].
  rewrite !tool_calls_in_app, tool_calls_in_calls. cbn. rewrite !app_nil_r. f_equal.
  destruct (om_tool_calls response_message) as [[|tc tcs]|];
    cbn [default from_option id] in *.
  - change adapter_text with (str_join [10] [adapter_text]).
    apply (renders_calls _ _ Hroom). rewrite Htext in Hquiet.
    constructor; [exact Hquiet|constructor].
  - destruct Htext as (markers & Hmarkers & ->).
    apply openai_renders in Hcalls as (markers' & Hmarkers' & Hrenders).
    assert (markers' = markers) as -> by congruence.
    apply (renders_calls _ _ Hroom). now constructor.
  - change adapter_text with (str_join [10] [adapter_text]).
    apply (renders_calls _ _ Hroom). rewrite Htext in Hquiet.
    constructor; [exact Hquiet|constructor].
Qed.

(** *** Gemini *)

Lemma json_loads_None (depth : nat) : json_loads depth (codes "None") = Raise JSONDecodeError.
Proof. unfold json_loads. now destruct depth. Qed.

(** X16.  [_parse_gemini_function_args] never raises and always gives a
    mapping: the empty one when the call has no arguments ([str(None)] is
    no JSON, and the exception is swallowed), and the items themselves
    when the arguments are a mapping. *)
Theorem gemini_function_args_are_a_mapping (function_call : gemini_function_call) :
  (fc_args function_call = None ->
   _parse_gemini_function_args function_call = PDict [])
  /\ (forall items,
        fc_args function_call = Some items -> NoDup (map fst items) ->
        _parse_gemini_function_args function_call = PDict items)
  /\ exists d, _parse_gemini_function_args function_call = PDict d.
Proof.
  pose proof (json_loads_None adapter_recursion_room) as Hnone.
  unfold _parse_gemini_function_args. destruct (fc_args function_call) as [items|].
  - split; [discriminate|]. split; [|eauto].
    intros items' [= <-] Hnodup. now rewrite dict_of_pairs_distinct.
  - rewrite Hnone. split; [reflexivity|]. split; [discriminate|eauto].
Qed.

Lemma renders_app (pieces1 pieces2 : list pystr) (calls1 calls2 : list (pystr * pyval)) :
  renders pieces1 calls1 -> renders pieces2 calls2 ->
  renders (pieces1 ++ pieces2) (calls1 ++ calls2).
Proof.
  intros Hfirst Hsecond. induction Hfirst; cbn; [exact Hsecond|now constructor..].
Qed.

Lemma gemini_renders (parts : list gemini_part) :
  Forall plain_part parts ->
  renders (gemini_pieces parts) (function_calls parts).
Proof.
  unfold gemini_pieces.
  induction 1 as [|part parts [Htext Hcall] _ IH]; cbn [flat_map function_calls];
    [constructor|].
  apply renders_app; [|exact IH].
  apply (renders_app _ _ []).
  - destruct (part_text part) as [[|c text]|]; try constructor; [exact Htext|constructor].
  - destruct (part_function_call part) as [function_call|]; [|constructor].
    destruct Hcall as (Hne & Hname & Hplain).
    assert (_parse_gemini_function_args function_call
            = PDict (default [] (fc_args function_call))) as ->.
    { unfold _parse_gemini_function_args.
      destruct (fc_args function_call) as [items|]; cbn [default from_option id] in *.
      - rewrite dict_of_pairs_distinct; [reflexivity|apply Hplain].
      - now rewrite json_loads_None. }
    constructor; [assumption..|constructor].
Qed.

Lemma read_optional_run (previous_messages : option loc) (w : world) :
  read_optional previous_messages w = (Return (prior_messages w previous_messages), w).
Proof. now destruct previous_messages. Qed.

Lemma GeminiService_returns (query : pystr) (available_tools : list tool)
    (previous_messages : option loc) (w w' : world) (text : pystr) (messages : loc) :
  GeminiService_process_query query available_tools previous_messages w
  = (Return (text, messages), w') ->
  exists gemini_tools chat x1 response x2 final_text,
    _convert_tools_to_gemini_format available_tools = Return gemini_tools
    /\ gemini_chats_create
         (_prepare_gemini_chat_history (prior_messages w previous_messages))
         gemini_tools (ext w)
       = (Return chat, x1)
    /\ gemini_send_message chat query x1 = (Return response, x2)
    /\ gemini_final_text response = Return final_text
    /\ text = str_join [10] final_text
    /\ trace w' = trace w ++ [EvVendor (codes "gemini"); EvVendor (codes "gemini")].
Proof.
  unfold GeminiService_process_query. unfold bind at 1, lift at 1.
  destruct (_convert_tools_to_gemini_format available_tools) as [gemini_tools|e];
    [|discriminate].
  unfold bind at 1. rewrite read_optional_run. unfold bind at 1. rewrite external_run.
  destruct (gemini_chats_create _ _ (ext w)) as [[chat|e] x1] eqn:Hcreate;
    cbn [fst snd]; [|discriminate].
  unfold bind at 1. rewrite read_optional_run. cbn [prior_messages heap].
  unfold bind at 1, new_list at 1. unfold bind at 1, list_append, list_extend.
  unfold bind at 1. rewrite external_run. cbn [ext heap trace].
  destruct (gemini_send_message chat query x1) as [[response|e] x2] eqn:Hsend;
    cbn [fst snd]; [|discriminate].
  unfold bind, lift, ret.
  destruct (gemini_final_text response) as [final_text|e] eqn:Hfinal; [|discriminate].
  intros [= <- _ <-]. cbn [trace]. rewrite <- app_assoc.
  now exists gemini_tools, chat, x1, response, x2, final_text.
Qed.

Lemma gemini_final_text_parts (response : gemini_response) (final_text : list pystr) :
  gemini_final_text response = Return final_text ->
  final_text = gemini_pieces (reply_parts response).
Proof.
  unfold gemini_final_text, reply_parts.
  destruct (candidates response) as [[|candidate rest]|]; try now intros [= <-].
  destruct (cand_parts candidate) as [[parts|]|]; [|discriminate|now intros [= <-]].
  rewrite gemini_parts_text_pieces. destruct (forallb writable_part parts); [|discriminate].
  now intros [= <-].
Qed.

(** X15.  From Gemini's reply to the tool server: when the texts of the
    parts of the first candidate have no opening bracket and its function
    calls have proper names and plain mappings as arguments, a query that
    returns has called exactly those functions, in the order of the
    parts; a call without arguments is made with the empty mapping. *)
Theorem gemini_function_calls_become_tool_calls
    (self : MCPClient) (query : pystr) (previous_messages : option loc)
    (w w' : world) (text : pystr) (messages : loc) :
  llm_service self = GeminiService ->
  (1 <= client_recursion_room)%nat ->
  MCPClient_process_query self query previous_messages w = (Return (text, messages), w') ->
  exists response w0 gemini_tools chat x1 reply x2,
    list_tools w = (Return response, w0)
    /\ _convert_tools_to_gemini_format (available_tools_of response) = Return gemini_tools
    /\ gemini_chats_create
         (_prepare_gemini_chat_history (prior_messages w previous_messages))
         gemini_tools (ext w0)
       = (Return chat, x1)
    /\ gemini_send_message chat query x1 = (Return reply, x2)
    /\ (Forall plain_part (reply_parts reply) ->
        tool_calls_in (trace w')
        = tool_calls_in (trace w) ++ function_calls (reply_parts reply)).
Proof.
  intros Hservice Hroom Hquery.
  apply MCPClient_process_query_returns in Hquery
    as (response & w0 & adapter_text & w1 & Htools & Hllm & Hmediate).
  exists response, w0. pose proof Htools as Hw0. rewrite list_tools_run in Hw0.
  injection Hw0 as _ Hw0.
  assert (prior_messages w0 previous_messages = prior_messages w previous_messages)
    as Hprior by now subst w0.
  rewrite Hservice in Hllm. cbn [llm_process_query] in Hllm.
  apply GeminiService_returns in Hllm
    as (gemini_tools & chat & x1 & reply & x2 & final_text
        & Hconvert & Hcreate & Hsend & Hfinal & -> & Htrace).
  rewrite Hprior in Hcreate. exists gemini_tools, chat, x1, reply, x2.
  repeat split; try assumption. intros Hplain.
  apply mediate_run in Hmediate as [_ (_ & _ & Hcalled)].
  rewrite Hcalled, Htrace. subst w0. cbn [trace].
  rewrite !tool_calls_in_app, tool_calls_in_calls. cbn. rewrite !app_nil_r. f_equal.
  apply (renders_calls _ _ Hroom).
  apply gemini_final_text_parts in Hfinal as ->. now apply gemini_renders.
Qed.


(** ** The Gemini catalog projector on a whole catalog *)

(** X17.  The Gemini projector returns exactly for the catalogs it can
    read, those in which the properties of every schema, when there are
    any, are a mapping of mappings whose type, when there is one, is a
    string; it gives one declaration per tool, in the order of the
    catalog, with the tool's name and description.  On any other catalog
    it raises [AttributeError]. *)
Theorem projector_fails_only_on_unreadable_schemas (available_tools : list tool) :
  (Forall (fun t => readable_schema (input_schema t)) available_tools ->
   exists gemini_tools,
     _convert_tools_to_gemini_format available_tools = Return gemini_tools
     /\ map fd_name gemini_tools = map tool_name available_tools
     /\ map fd_description gemini_tools = map tool_description available_tools)
  /\ (~ Forall (fun t => readable_schema (input_schema t)) available_tools ->
      _convert_tools_to_gemini_format available_tools = Raise AttributeError).
Proof.
  pose proof (convert_tools_readable available_tools) as H.
  destruct (_convert_tools_to_gemini_format available_tools) as [gemini_tools|e].
  - destruct H as (Hschemas & Hnames & Hdescriptions). split.
    + intros _. now exists gemini_tools.
    + intros Hbad. now destruct Hbad.
  - destruct H as [-> Hbad]. split.
    + intros Hschemas. now destruct Hbad.
    + reflexivity.
Qed.

(** X18.  With a catalog the projector cannot read, the Gemini adapter
    raises [AttributeError] before it does anything else: the vendor is
    not contacted, no list is made, the world is as it was. *)
Theorem gemini_adapter_refuses_an_unreadable_catalog
    (query : pystr) (available_tools : list tool) (previous_messages : option loc)
    (w : world) :
  ~ Forall (fun t => readable_schema (input_schema t)) available_tools ->
  GeminiService_process_query query available_tools previous_messages w
  = (Raise AttributeError, w).
Proof.
  intros Hbad. pose proof (convert_tools_readable available_tools) as H.
  unfold GeminiService_process_query, bind at 1, lift at 1.
  destruct (_convert_tools_to_gemini_format available_tools) as [gemini_tools|e].
  - destruct H as [Hschemas _]. now destruct Hbad.
  - now destruct H as [-> _].
Qed.

(** ** Arguments the OpenAI adapter cannot decode *)



(** ** The history handed to Gemini *)

(** X19.  The history handed to Gemini has at most one turn for each
    previous message and holds the roles [user] and [model] only; a
    transcript of user messages is handed over whole and in order, each
    as a user turn; and a message whose content is not a string, such as
    the assistant message OpenAI's adapter records for tool calls without
    content, is left out. *)
Theorem gemini_history_keeps_what_was_said (previous_messages : list message) :
  (length (_prepare_gemini_chat_history previous_messages) <= length previous_messages)%nat
  /\ Forall (fun turn => gt_role turn = codes "user" \/ gt_role turn = codes "model")
       (_prepare_gemini_chat_history previous_messages)
  /\ (forall queries,
        previous_messages = map user_message queries ->
        _prepare_gemini_chat_history previous_messages
        = map (fun query => {| gt_role := codes "user"; gt_text := query |}) queries)
  /\ (forall before m after,
        previous_messages = before ++ m :: after ->
        (forall text, content m <> PStr text) ->
        _prepare_gemini_chat_history previous_messages
        = _prepare_gemini_chat_history (before ++ after)).
Proof.
  unfold _prepare_gemini_chat_history. repeat split.
  - induction previous_messages as [|m l IH]; [reflexivity|]. cbn [flat_map].
    rewrite length_app. cbn [length].
    destruct (content m); cbn [length]; try lia.
    destruct (bool_decide (role m = codes "user")); [cbn [length]; lia|].
    destruct (bool_decide (role m = codes "assistant")); cbn [length]; lia.
  - induction previous_messages as [|m l IH]; [constructor|]. cbn [flat_map].
    apply Forall_app. split; [|exact IH].
    destruct (content m); try constructor.
    destruct (bool_decide (role m = codes "user"));
      [constructor; [now left|constructor]|].
    destruct (bool_decide (role m = codes "assistant"));
      [constructor; [now right|constructor]|constructor].
  - intros queries ->. induction queries as [|query queries IH]; [reflexivity|].
    cbn [map flat_map]. now rewrite IH.
  - intros before m after -> Hcontent. rewrite !flat_map_app. cbn [flat_map].
    destruct (content m) as [| | | |text| |]; try reflexivity. now destruct (Hcontent text).
Qed.


(** ** The database chat agent *)

Lemma startswith_spec (s p : pystr) : startswith s p = true <-> exists post, s = p ++ post.
Proof.
  unfold startswith. split.
  - destruct (strip_prefix p s) as [r|] eqn:H; [|discriminate].
    intros _. exists r. now apply strip_prefix_Some.
  - intros [post ->]. now rewrite strip_prefix_app.
Qed.

Lemma contains_spec (needle hay : pystr) :
  contains needle hay = true <-> exists pre post, hay = pre ++ needle ++ post.
Proof.
  split.
  - induction hay as [|c hay IH]; cbn [contains]; intros H; apply orb_prop in H as [H|H].
    + apply startswith_spec in H as [post ->]. now exists [], post.
    + discriminate.
    + apply startswith_spec in H as [post ->]. now exists [], post.
    + destruct (IH H) as (pre & post & ->). now exists (c :: pre), post.
  - intros (pre & post & ->). induction pre as [|c pre IH].
    + cbn [app]. destruct (needle ++ post) eqn:Heq; cbn [contains];
        rewrite <- ?Heq; apply orb_true_intro; left; apply startswith_spec; eauto.
    + cbn [app contains]. rewrite IH. apply orb_true_r.
Qed.

(** X20.  A message is taken for a database request exactly when its
    lower-case form has one of the keywords somewhere in it, be it inside
    a longer word. *)
Theorem database_intent_is_a_substring_test (message : pystr) :
  detect_database_intent message = true
  <-> exists keyword before after,
        keyword ∈ database_keywords
        /\ str_lower message = before ++ keyword ++ after.
Proof.
  unfold detect_database_intent. cbv zeta. rewrite existsb_exists. split.
  - intros (keyword & Hin & Hcontains). apply contains_spec in Hcontains as (pre & post & H).
    exists keyword, pre, post. split; [now apply list_elem_of_In|exact H].
  - intros (keyword & pre & post & Hin & H). exists keyword.
    split; [now apply list_elem_of_In|]. apply contains_spec. eauto.
Qed.

End Properties.

Section AgentProperties.

Context {py : Interpreter} {out : Outside} {agent : AgentOutside}.

(** ** The transcript of the agent *)

(** C7.  A turn of [chat] that returns has appended the user message and
    the reply to the history and kept the last 20 entries of the result:
    the new history is the appended one without its first [length - 20]
    entries; when more than 20 were there it has exactly 20; and it is a
    suffix of the appended history, so what stays is unchanged and in its
    original order, the oldest entries being the ones dropped. *)
Theorem chat_keeps_most_recent_window
    (self self' : DatabaseChatAgent) (message : pystr) (response : option pystr)
    (w w' : world) :
  DatabaseChatAgent_chat self message w = (Return (response, self'), w') ->
  let appended :=
    conversation_history self ++ [user_message message; assistant_reply response] in
  conversation_history self' = drop (length appended - 20) appended
  /\ ((20 < length appended)%nat -> length (conversation_history self') = 20%nat)
  /\ exists dropped, appended = dropped ++ conversation_history self'.
Proof.
  intros H appended. unfold DatabaseChatAgent_chat, bind in H.
  destruct (_ w) as [[r|e] w1] in H; [|discriminate].
  unfold ret in H. injection H as <- <- <-. cbn [conversation_history].
  rewrite <- app_assoc. cbn [app]. fold appended.
  destruct (bool_decide_reflect (20 < length appended)%nat) as [Hlt|Hge].
  - split; [reflexivity|]. split; [intros _; apply last_n_length; lia|apply last_n_suffix].
  - replace (length appended - 20)%nat with 0%nat by lia.
    split; [reflexivity|]. split; [lia|now exists []].
Qed.

(** ** A database request of the agent *)

Lemma llm_chat_run (self : DatabaseChatAgent) (message : pystr) (system_prompt : option pystr)
    (w : world) :
  exists messages,
    llm_chat self message system_prompt w
    = (fst (agent_chat_completions_create messages (ext w)),
       {| heap := heap w; ext := snd (agent_chat_completions_create messages (ext w));
          trace := trace w ++ [EvVendor (codes "openai")] |}).
Proof. unfold llm_chat. cbv zeta. eexists. apply external_run. Qed.

Lemma tool_round_handler (e : exn) (w : world) :
  exists answer,
    match e with
    | JSONDecodeError => ret (Some rephrase_message)
    | _ => ret (Some (error_message e))
    end w = (Return answer, w)
    /\ apology answer.
Proof.
  destruct e; eexists; (split; [reflexivity|]); unfold apology; eauto.
Qed.

Lemma subscript_Return (value : pyval) (key : pystr) (v : pyval) :
  subscript value key = Return v -> exists d, value = PDict d /\ dict_get key d = Some v.
Proof.
  unfold subscript. destruct value as [| | | | | |d]; try discriminate.
  destruct (dict_get key d) eqn:Hget; [|discriminate]. intros [= <-]. eauto.
Qed.

(** The handlers of the tool round answer every [Exception] with an
    apology and leave the world as the [try] block left it. *)
Lemma tool_round_handlers (body : M (option pystr)) (w w' : world)
    (r : outcome (option pystr)) :
  try_except body
    (fun e =>
       match e with
       | JSONDecodeError => ret (Some rephrase_message)
       | _ => ret (Some (error_message e))
       end) w = (r, w') ->
  exists rb,
    body w = (rb, w')
    /\ match rb with
       | Return answer => r = Return answer
       | Raise e =>
           if is_Exception e then exists answer, r = Return answer /\ apology answer
           else r = Raise e
       end.
Proof.
  unfold try_except. destruct (body w) as [[answer|e] w1].
  - intros [= <- <-]. now exists (Return answer).
  - destruct (is_Exception e) eqn:He.
    + destruct (tool_round_handler e w1) as (answer & -> & Hanswer). intros [= <- <-].
      exists (Raise e). rewrite He. eauto.
    + intros [= <- <-]. exists (Raise e). now rewrite He.
Qed.

Lemma subscript_raises (value : pyval) (key : pystr) (e : exn) :
  subscript value key = Raise e ->
  is_Exception e = true /\ forall d v, value = PDict d -> dict_get key d <> Some v.
Proof.
  unfold subscript. destruct value as [| | | | | |d]; try (intros [= <-]; now split).
  destruct (dict_get key d) eqn:Hget; [discriminate|]. intros [= <-].
  split; [reflexivity|]. intros d' v [= <-]. congruence.
Qed.

(** The [try] block of the tool round: it stops before the tool call,
    having changed nothing, exactly when the selection does not name a
    tool and arguments; otherwise it calls the tool and may go on to ask
    the model. *)
Lemma tool_round_body (self : DatabaseChatAgent) (query tool_selection : pystr)
    (w w' : world) (rb : outcome (option pystr)) :
  (tool_call <- lift (json_loads agent_recursion_room tool_selection) ;;
   tool <- lift (subscript tool_call (codes "tool")) ;;
   arguments <- lift (subscript tool_call (codes "arguments")) ;;
   result <- external (EvCallTool (py_str tool) arguments)
               (agent_call_tool tool arguments) ;;
   tool_response <- lift (first_text result) ;;
   answer <- process_tool_response self query tool_response ;;
   ret (Some answer)) w = (rb, w') ->
  heap w' = heap w
  /\ ((w' = w /\ (forall tool arguments, ~ selects tool_selection tool arguments)
       /\ exists e, rb = Raise e /\ is_Exception e = true)
      \/ exists tool arguments k,
           selects tool_selection tool arguments
           /\ (1 <= k)%nat
           /\ trace w' = trace w ++ take k [EvCallTool (py_str tool) arguments;
                                            EvVendor (codes "openai")]).
Proof.
  unfold bind at 1, lift at 1.
  destruct (json_loads agent_recursion_room tool_selection) as [tool_call|e] eqn:Hsel.
  2: { intros [= <- <-]. split; [reflexivity|]. left. split; [reflexivity|].
       split; [|apply json_loads_raises_Exception in Hsel; eauto].
       intros tool arguments (d & Hd & _). congruence. }
  unfold bind at 1, lift at 1.
  destruct (subscript tool_call (codes "tool")) as [tool|e] eqn:Htool.
  2: { intros [= <- <-]. apply subscript_raises in Htool as [He Hmissing].
       split; [reflexivity|]. left. split; [reflexivity|]. split; [|eauto].
       intros tool arguments (d & Hd & Hget & _). rewrite Hsel in Hd. injection Hd as ->.
       now apply (Hmissing d tool). }
  unfold bind at 1, lift at 1.
  destruct (subscript tool_call (codes "arguments")) as [arguments|e] eqn:Harguments.
  2: { intros [= <- <-]. apply subscript_raises in Harguments as [He Hmissing].
       split; [reflexivity|]. left. split; [reflexivity|]. split; [|eauto].
       intros tool' arguments (d & Hd & _ & Hget). rewrite Hsel in Hd. injection Hd as ->.
       now apply (Hmissing d arguments). }
  assert (selects tool_selection tool arguments) as Hselects.
  { apply subscript_Return in Htool as (d & -> & Htool).
    apply subscript_Return in Harguments as (d' & [= <-] & Harguments).
    now exists d. }
  intros Hrest. assert (heap w' = heap w
                        /\ exists k, (1 <= k)%nat
                             /\ trace w' = trace w ++ take k [EvCallTool (py_str tool) arguments;
                                                              EvVendor (codes "openai")])
    as [Hheap (k & Hk & Htrace)]; [|split; [exact Hheap|right; eauto 10]].
  revert Hrest. unfold bind at 1. rewrite external_run.
  destruct (fst (agent_call_tool tool arguments (ext w))) as [result|e];
    [|intros [= _ <-]; split; [reflexivity|now exists 1%nat]].
  unfold bind at 1, lift at 1.
  destruct (first_text result) as [tool_response|e];
    [|intros [= _ <-]; split; [reflexivity|now exists 1%nat]].
  unfold bind at 1, process_tool_response. cbv zeta.
  match goal with
  | |- context [llm_chat self ?m ?p ?w0] =>
      destruct (llm_chat_run self m p w0) as (messages & ->)
  end.
  cbn [ext heap trace].
  destruct (fst (agent_chat_completions_create messages _)); unfold ret;
    intros [= _ <-]; (split; [reflexivity|]); exists 2%nat; cbn [trace take];
    rewrite <- app_assoc; (split; [lia|reflexivity]).
Qed.

Lemma run_selected_tool_run (self : DatabaseChatAgent) (query tool_selection : pystr)
    (w w' : world) (r : outcome (option pystr)) :
  run_selected_tool self query tool_selection w = (r, w') ->
  heap w' = heap w
  /\ (forall e, r = Raise e -> is_Exception e = false)
  /\ ((w' = w /\ (forall tool arguments, ~ selects tool_selection tool arguments)
       /\ exists answer, r = Return answer /\ apology answer)
      \/ exists tool arguments k,
           selects tool_selection tool arguments
           /\ (1 <= k)%nat
           /\ trace w' = trace w ++ take k [EvCallTool (py_str tool) arguments;
                                            EvVendor (codes "openai")]).
Proof.
  intros Hrun. apply tool_round_handlers in Hrun as (rb & Hbody & Hr).
  apply tool_round_body in Hbody as [Hheap Hbody]. split; [exact Hheap|]. split.
  - intros e ->. destruct rb as [answer|e']; [discriminate|].
    destruct (is_Exception e') eqn:He; [now destruct Hr as (answer & [=] & _)|].
    now injection Hr as ->.
  - destruct Hbody as [(-> & Hselects & e & -> & He)|Hcalled]; [left|now right].
    rewrite He in Hr. now repeat split.
Qed.

(** X21.  When the model's selection is not a JSON object with a [tool]
    and its [arguments], the tool round calls no tool and asks nothing
    more of the model: it changes nothing and answers with one of its two
    apologies. *)
Theorem selection_must_name_tool_and_arguments
    (self : DatabaseChatAgent) (query tool_selection : pystr)
    (w w' : world) (r : outcome (option pystr)) :
  run_selected_tool self query tool_selection w = (r, w') ->
  (forall tool arguments, ~ selects tool_selection tool arguments) ->
  w' = w /\ exists answer, r = Return answer /\ apology answer.
Proof.
  intros Hrun Hselects. apply run_selected_tool_run in Hrun as (_ & _ & [Hquiet|Hcalled]).
  - destruct Hquiet as (-> & _ & Hanswer). now split.
  - destruct Hcalled as (tool & arguments & k & Hyes & _). now destruct (Hselects tool arguments).
Qed.

Lemma consult_run {A : Type} (f : Ext -> outcome A * Ext) (w : world) :
  consult f w
  = (fst (f (ext w)), {| heap := heap w; ext := snd (f (ext w)); trace := trace w |}).
Proof. unfold consult. now destruct (f (ext w)). Qed.

Lemma request_body_trace (self : DatabaseChatAgent) (query : pystr)
    (w w' : world) (r : outcome (option pystr)) :
  (consult session_initialize ;;;
   tools <- list_tools ;;
   let tool_prompt := get_tool_selection_prompt query tools in
   tool_selection <- llm_chat self tool_prompt None ;;
   run_selected_tool self query tool_selection) w = (r, w') ->
  exists tool arguments k,
    trace w' = trace w ++ take k (request_events tool arguments).
Proof.
  unfold bind at 1. rewrite consult_run.
  destruct (fst (session_initialize (ext w))) as [[]|e].
  2: { intros [= <- <-]. exists [], PNone, 0%nat. cbn. now rewrite app_nil_r. }
  unfold bind at 1. rewrite list_tools_run. cbn [ext heap trace].
  destruct (fst (session_list_tools _)) as [tools|e].
  2: { intros [= <- <-]. now exists [], PNone, 1%nat. }
  cbv zeta. unfold bind at 1.
  match goal with
  | |- context [llm_chat self ?m ?p ?w0] =>
      destruct (llm_chat_run self m p w0) as (messages & ->)
  end.
  cbn [ext heap trace].
  destruct (fst (agent_chat_completions_create messages _)) as [tool_selection|e].
  2: { intros [= <- <-]. exists [], PNone, 2%nat. cbn. now rewrite <- app_assoc. }
  intros Hrun. apply run_selected_tool_run in Hrun as (_ & _ & [Hquiet|Hcalled]).
  - destruct Hquiet as (-> & _). exists [], PNone, 2%nat. cbn. now rewrite <- app_assoc.
  - destruct Hcalled as (tool & arguments & k & _ & Hk & ->).
    exists (py_str tool), arguments, (2 + k)%nat. cbn [trace]. rewrite <- !app_assoc.
    reflexivity.
Qed.

(** X22.  A database request never raises an [Exception].  It enters one
    session; when that fails nothing else happens, and otherwise it lists
    the tools, asks the model, calls at most one tool and asks the model
    once more, as far as it gets, and in every case leaves the session
    last. *)
Theorem database_request_enters_and_leaves_one_session
    (self : DatabaseChatAgent) (query : pystr) (w w' : world) (r : outcome (option pystr)) :
  DatabaseChatAgent_handle_database_operation self query w = (r, w') ->
  (forall e, r = Raise e -> is_Exception e = false)
  /\ (trace w' = trace w ++ [EvOpenSession (SSE sse_url)]
      \/ exists tool arguments k,
           trace w' = trace w ++ EvOpenSession (SSE sse_url)
                                 :: take k (request_events tool arguments) ++ [EvCleanup]).
Proof.
  unfold DatabaseChatAgent_handle_database_operation, try_except.
  match goal with
  | |- context [async_with ?enter ?leave ?body w] =>
      destruct (async_with enter leave body w) as [rb wb] eqn:Hbody;
      assert (trace wb = trace w ++ [EvOpenSession (SSE sse_url)]
              \/ exists tool arguments k,
                   trace wb = trace w ++ EvOpenSession (SSE sse_url)
                                         :: take k (request_events tool arguments)
                                         ++ [EvCleanup]) as Hshape
  end.
  { revert Hbody. unfold async_with, bind at 1. rewrite external_run.
    destruct (fst (agent_session_enter sse_url (ext w))) as [[]|e];
      [|intros [= <- <-]; now left].
    match goal with
    | |- context [match ?body ?w1 with _ => _ end] =>
        destruct (body w1) as [ri wi] eqn:Hinner
    end.
    apply request_body_trace in Hinner as (tool & arguments & k & Hinner).
    cbn [trace] in Hinner. intros Hleave. right. exists tool, arguments, k.
    assert (trace wb = trace wi ++ [EvCleanup]) as ->.
    { revert Hleave. destruct ri as [v|e]; rewrite external_run;
        destruct (fst (agent_session_exit _ _)) as [[]|e']; now intros [= _ <-]. }
    rewrite Hinner, <- !app_assoc. reflexivity. }
  destruct rb as [v|e].
  - intros [= <- <-]. split; [discriminate|exact Hshape].
  - destruct (is_Exception e) eqn:He.
    + unfold ret. intros [= <- <-]. split; [discriminate|exact Hshape].
    + intros [= <- <-]. split; [now intros e' [= <-]|exact Hshape].
Qed.

(** ** The loop of the agent *)

Lemma chat_bounds_history (self self' : DatabaseChatAgent) (message : pystr)
    (response : option pystr) (w w' : world) :
  DatabaseChatAgent_chat self message w = (Return (response, self'), w') ->
  (length (conversation_history self') <= 20)%nat.
Proof.
  unfold DatabaseChatAgent_chat, bind.
  destruct (_ w) as [[r|e] w1]; [|discriminate]. unfold ret. intros [= _ <- _].
  cbn [conversation_history]. destruct (bool_decide_reflect (20 < length
    ((conversation_history self ++ [user_message message]) ++ [assistant_reply r]))%nat)
    as [Hlt|Hge]; [|lia].
  rewrite last_n_length; lia.
Qed.

Lemma print_run (text : pystr) (w : world) :
  print text w
  = (fst (terminal_print text (ext w)),
     {| heap := heap w; ext := snd (terminal_print text (ext w));
        trace := trace w ++ [EvPrint text] |}).
Proof. unfold print. apply external_run. Qed.

(** What a print raises is the terminal's, and the print is then the last
    thing that happened. *)
Lemma print_raises (text : pystr) (w w' : world) (e : exn) :
  print text w = (Raise e, w') ->
  fst (terminal_print text (ext w)) = Raise e /\ trace w' = trace w ++ [EvPrint text].
Proof. rewrite print_run. now intros [= -> <-]. Qed.

(** The handlers of the loop: they stop, go on with the agent they were
    given, or raise what they do not catch or what one of their prints
    raised. *)
Lemma agent_turn_handlers_run (self : DatabaseChatAgent) (e0 : exn) (w w' : world)
    (r : outcome agent_control) :
  agent_turn_handlers self e0 w = (r, w') ->
  match r with
  | Return Stop => True
  | Return (Again self') => self' = self
  | Raise e =>
      (is_Exception e = false /\ is_KeyboardInterrupt e = false)
      \/ raised_by_handler_print e w'
  end.
Proof.
  unfold agent_turn_handlers. destruct (is_KeyboardInterrupt e0) eqn:Hkey.
  - unfold bind. destruct (print _ w) as [[[]|e] w1] eqn:Hprint.
    + unfold ret. now intros [= <- <-].
    + intros [= <- <-]. right. apply print_raises in Hprint as [Hraise Hlast].
      exists (10 :: 10 :: goodbye), (ext w), (trace w). split; [now left|now split].
  - destruct (is_Exception e0) eqn:Hexc; [|intros [= <- <-]; now left].
    unfold bind at 1. destruct (print _ w) as [[[]|e] w1] eqn:Hprint.
    + unfold bind. destruct (print _ w1) as [[[]|e] w2] eqn:Hagain.
      * unfold ret. now intros [= <- <-].
      * intros [= <- <-]. right. apply print_raises in Hagain as [Hraise Hlast].
        exists (codes "Let's try again..."), (ext w1), (trace w1). split; [now right; right|now split].
    + intros [= <- <-]. right. apply print_raises in Hprint as [Hraise Hlast].
      exists (10 :: cross ++ codes " Error: " ++ exn_str e0), (ext w), (trace w).
      split; [right; left; now exists e0|now split].
Qed.

Lemma agent_turn_body_run (self self' : DatabaseChatAgent) (response : option pystr)
    (w w' : world) :
  agent_turn_body self w = (Return (Answered self' response), w') ->
  (length (conversation_history self') <= 20)%nat.
Proof.
  unfold agent_turn_body, bind at 1. rewrite external_run.
  destruct (fst (terminal_input (ext w))) as [line|e]; [|discriminate].
  destruct (str_strip line) as [|c user_input]; [discriminate|].
  destruct (bool_decide _).
  - unfold bind. destruct (print _ _) as [[[]|e] w1]; discriminate.
  - unfold bind at 1. destruct (print _ _) as [[[]|e] w1]; [|discriminate].
    unfold bind.
    destruct (DatabaseChatAgent_chat self (c :: user_input) w1)
      as [[[response1 self1]|e] w2] eqn:Hchat; [|discriminate].
    unfold ret. intros [= <- _ _]. now apply chat_bounds_history in Hchat.
Qed.

Lemma agent_turn_body_ended (self self' : DatabaseChatAgent) (w w' : world) :
  agent_turn_body self w = (Return (Ended (Again self')), w') -> self' = self.
Proof.
  unfold agent_turn_body, bind at 1. rewrite external_run.
  destruct (fst (terminal_input (ext w))) as [line|e]; [|discriminate].
  destruct (str_strip line) as [|c user_input]; [unfold ret; now intros [= <- _]|].
  destruct (bool_decide _).
  - unfold bind. destruct (print _ _) as [[[]|e] w1]; discriminate.
  - unfold bind at 1. destruct (print _ _) as [[[]|e] w1]; [|discriminate].
    unfold bind. destruct (DatabaseChatAgent_chat _ _ _) as [[[response1 self1]|e] w2];
      discriminate.
Qed.

Lemma agent_turn_run (self : DatabaseChatAgent) (w w' : world) (r : outcome agent_control) :
  agent_turn self w = (r, w') ->
  match r with
  | Return Stop => True
  | Return (Again self') =>
      self' = self \/ (length (conversation_history self') <= 20)%nat
  | Raise e =>
      (is_Exception e = false /\ is_KeyboardInterrupt e = false)
      \/ raised_by_handler_print e w'
  end.
Proof.
  unfold agent_turn.
  destruct (agent_turn_body self w) as [[[control|self1 response]|e] w1] eqn:Hbody.
  - intros [= <- <-]. destruct control as [|self']; [exact I|].
    left. now apply agent_turn_body_ended in Hbody.
  - apply agent_turn_body_run in Hbody.
    destruct (print _ w1) as [[[]|e] w2]; [intros [= <- <-]; now right|].
    intros Hhandler. apply agent_turn_handlers_run in Hhandler.
    destruct r as [[|self']|e']; [exact I|right; now subst self'|exact Hhandler].
  - intros Hhandler. apply agent_turn_handlers_run in Hhandler.
    destruct r as [[|self']|e']; [exact I|now left|exact Hhandler].
Qed.

(** X23.  The loop of the agent survives every [Exception] of a pass and
    ends, not fails, on [KeyboardInterrupt], unless a print inside the
    handler itself fails: whatever the loop raises is neither of the two,
    or it came out of the handler's print of the goodbye, of the error
    line or of the invitation to try again, the last thing the loop
    did. *)
Theorem agent_loop_fails_only_past_its_handlers
    (turns : nat) (self : DatabaseChatAgent) (w w' : world) (r : outcome DatabaseChatAgent) :
  agent_turns turns self w = (r, w') ->
  forall e, r = Raise e ->
    (is_Exception e = false /\ is_KeyboardInterrupt e = false)
    \/ raised_by_handler_print e w'.
Proof.
  revert self w. induction turns as [|turns IH]; intros self w; cbn [agent_turns].
  - intros [= <- _]. discriminate.
  - unfold bind. destruct (agent_turn self w) as [[control|e0] w1] eqn:Hturn.
    + destruct control as [|self1]; [intros [= <- _]; discriminate|]. apply IH.
    + intros [= <- <-] e [= <-]. now apply agent_turn_run in Hturn.
Qed.

(** X24.  Throughout a session of the agent the conversation history
    stays within its window: starting with at most 20 entries, the loop
    ends with at most 20, however many turns it ran. *)
Theorem agent_history_stays_within_the_window
    (turns : nat) (self self' : DatabaseChatAgent) (w w' : world) :
  (length (conversation_history self) <= 20)%nat ->
  agent_turns turns self w = (Return self', w') ->
  (length (conversation_history self') <= 20)%nat.
Proof.
  revert self w. induction turns as [|turns IH]; intros self w Hbound; cbn [agent_turns].
  - now intros [= <- _].
  - unfold bind. destruct (agent_turn self w) as [[control|e0] w1] eqn:Hturn;
      [|discriminate].
    destruct control as [|self1]; [now intros [= <- _]|].
    apply IH. apply agent_turn_run in Hturn as [->|Hturn]; assumption.
Qed.

(** X25.  The agent skips a blank line: a line of white space costs
    nothing but reading it, the agent is asked nothing and stays as it
    is, and the loop goes on. *)
Theorem agent_skips_a_blank_line
    (self : DatabaseChatAgent) (w : world) (line : pystr) (x : Ext) :
  terminal_input (ext w) = (Return line, x) ->
  forallb is_space line = true ->
  agent_turn self w
  = (Return (Again self), {| heap := heap w; ext := x; trace := trace w ++ [EvInput] |}).
Proof.
  intros Hinput Hblank. unfold agent_turn, agent_turn_body, bind at 1.
  rewrite external_run, Hinput. cbn [fst snd]. now rewrite (str_strip_blank line Hblank).
Qed.

End AgentProperties.

Section ServerProperties.

Context {py : Interpreter} {database : Database}.

(** ** The tool of the server *)

Lemma driver_run {A : Type} (ev : db_event) (f : Db -> outcome A * Db) (w : server_world) :
  driver ev f w
  = (fst (f (db w)), {| db := snd (f (db w)); journal := journal w ++ [ev] |}).
Proof. unfold driver. now destruct (f (db w)). Qed.

(** The journal of the [try] block: its steps as far as it gets, all four
    when it returns; it gets past the cursor and the statement when these
    return. *)
Lemma run_query_journal (conn : Connection) (query : pystr)
    (w w' : server_world) (r : outcome query_result) :
  run_query conn query w = (r, w') ->
  exists k,
    journal w' = journal w ++ take k (query_steps query)
    /\ (forall cursor d,
          conn_cursor conn (db w) = (Return cursor, d) ->
          (2 <= k)%nat /\ (fst (cursor_execute cursor query d) = Return tt -> (3 <= k)%nat))
    /\ match r with
       | Return (Rows data row_count) =>
           k = 4%nat /\ is_select query = true /\ row_count = length data
       | Return (Executed message affected_rows) =>
           k = 4%nat /\ is_select query = false
           /\ message = codes "Query executed successfully. " ++ repr_int affected_rows
                        ++ codes " rows affected."
       | Return (Failure _) => False
       | Raise e =>
           (k < 4)%nat \/ (exists d, fst (conn_close conn d) = Raise e)
           \/ (k = 4%nat /\ e = ValueError)
       end.
Proof.
  unfold run_query, query_steps, db_bind at 1. rewrite driver_run.
  destruct (conn_cursor conn (db w)) as [[cursor|e] d1] eqn:Hcursor; cbn [fst snd].
  2: { intros [= <- <-]. exists 1%nat. cbn. repeat split; try discriminate. left. lia. }
  unfold db_bind at 1. rewrite driver_run. cbn [db journal].
  destruct (fst (cursor_execute cursor query d1)) as [[]|e] eqn:Hexecute.
  2: { intros [= <- <-]. exists 2%nat. cbn. rewrite <- app_assoc.
       split; [reflexivity|]. split; [|left; lia].
       intros cursor' d [= <- <-]. split; [lia|]. rewrite Hexecute. discriminate. }
  assert (forall k, (3 <= k)%nat ->
            forall cursor' d, (Return cursor, d1) = (Return cursor', d) ->
              (2 <= k)%nat
              /\ (fst (cursor_execute cursor' query d) = Return tt -> (3 <= k)%nat)) as Hpast.
  { intros k Hk cursor' d _. split; [lia|intros _; exact Hk]. }
  destruct (is_select query).
  - unfold db_bind at 1. rewrite driver_run. cbn [db journal].
    destruct (fst (cursor_fetchall cursor _)) as [results|e].
    2: { intros [= <- <-]. exists 3%nat. cbn. rewrite <- !app_assoc.
         split; [reflexivity|]. split; [apply Hpast; lia|left; lia]. }
    unfold db_bind. rewrite driver_run. cbn [db journal].
    destruct (fst (conn_close conn _)) as [[]|e] eqn:Hclose; unfold db_ret; intros [= <- <-];
      exists 4%nat; cbn; rewrite <- !app_assoc;
      (split; [reflexivity|]); (split; [apply Hpast; lia|]); eauto.
  - unfold db_bind at 1. rewrite driver_run. cbn [db journal].
    destruct (fst (conn_commit conn _)) as [[]|e].
    2: { intros [= <- <-]. exists 3%nat. cbn. rewrite <- !app_assoc.
         split; [reflexivity|]. split; [apply Hpast; lia|left; lia]. }
    unfold db_bind. rewrite driver_run. cbn [db journal].
    destruct (fst (conn_close conn _)) as [[]|e] eqn:Hclose;
      [destruct (repr_returns _)|]; unfold db_ret; intros [= <- <-];
      exists 4%nat; cbn; rewrite <- !app_assoc;
      (split; [reflexivity|]); (split; [apply Hpast; lia|]); eauto.
Qed.

(** What the handler adds: a close when the connection is there. *)
Lemma report_failure_run (conn : option Connection) (e : exn)
    (w w' : server_world) (r : outcome query_result) :
  report_failure conn e w = (r, w') ->
  journal w' = journal w ++ match conn with Some _ => [DbClose] | None => [] end
  /\ (r = Return (Failure (error_text e))
      \/ exists c d e', conn = Some c /\ fst (conn_close c d) = Raise e' /\ r = Raise e').
Proof.
  unfold report_failure, db_bind. destruct conn as [c|].
  - rewrite driver_run. destruct (fst (conn_close c (db w))) as [[]|e'] eqn:Hclose;
      unfold db_ret; intros [= <- <-]; cbn; eauto 10.
  - unfold db_ret. intros [= <- <-]. rewrite app_nil_r. auto.
Qed.

(** X26.  [execute_sql_query] sends every statement to the database as it
    is, before it looks at it: once the connection and the cursor are
    there, the statement is executed whatever it is, and when it is no
    [SELECT] and ran, it is committed next. *)
Theorem every_statement_is_sent_to_the_database
    (query : pystr) (w w' : server_world) (r : outcome query_result)
    (conn : Connection) (cursor : Cursor) (d1 d2 : Db) :
  execute_sql_query query w = (r, w') ->
  mysql_connect (db w) = (Return conn, d1) ->
  conn_cursor conn d1 = (Return cursor, d2) ->
  exists rest,
    journal w' = journal w ++ DbConnect :: DbCursor :: DbExecute query :: rest
    /\ (is_select query = false ->
        fst (cursor_execute cursor query d2) = Return tt ->
        exists rest', rest = DbCommit :: rest').
Proof.
  intros Hrun Hconnect Hcursor. revert Hrun. unfold execute_sql_query.
  rewrite driver_run, Hconnect. cbn [fst snd].
  destruct (run_query conn query _) as [r1 w1] eqn:Hquery. intros Hrun.
  apply run_query_journal in Hquery as (k & Hjournal & Hpast & _).
  cbn [db journal] in *. destruct (Hpast cursor d2 Hcursor) as [Hk Hexecuted].
  assert (exists tail, journal w' = journal w1 ++ tail) as [tail Htail].
  { destruct r1 as [result|e]; [injection Hrun as _ <-; exists []; now rewrite app_nil_r|].
    destruct (is_Exception e).
    - apply report_failure_run in Hrun as [-> _]. eauto.
    - injection Hrun as _ <-. exists []. now rewrite app_nil_r. }
  rewrite Htail, Hjournal, <- !app_assoc. unfold query_steps.
  destruct k as [|[|k]]; try lia. cbn [take app].
  eexists. split; [reflexivity|]. intros Hselect Hreturns.
  specialize (Hexecuted Hreturns). destruct k as [|k]; [lia|].
  rewrite Hselect. cbn [take app]. eauto.
Qed.

(** X27.  What the tool returns tells what was run: rows with their exact
    count only for a statement that begins with [SELECT] in some letter
    case after leading white space, the number of affected rows only for
    any other statement, and an error only with the text of an
    [Exception] that was raised. *)
Theorem query_result_tells_what_was_run
    (query : pystr) (w w' : server_world) (result : query_result) :
  execute_sql_query query w = (Return result, w') ->
  match result with
  | Rows data row_count => is_select query = true /\ row_count = length data
  | Executed message affected_rows =>
      is_select query = false
      /\ message = codes "Query executed successfully. " ++ repr_int affected_rows
                   ++ codes " rows affected."
  | Failure error => exists e, is_Exception e = true /\ error = error_text e
  end.
Proof.
  unfold execute_sql_query. rewrite driver_run.
  destruct (fst (mysql_connect (db w))) as [conn|e].
  - destruct (run_query conn query _) as [[result'|e] w1] eqn:Hquery.
    + intros [= <- <-]. apply run_query_journal in Hquery as (k & _ & _ & Hresult).
      destruct result'; [| |contradiction]; tauto.
    + destruct (is_Exception e) eqn:He; [|discriminate]. intros Hreport.
      apply report_failure_run in Hreport as [_ [[= ->]|(c & d & e' & _ & _ & [=])]]. eauto.
  - destruct (is_Exception e) eqn:He; [|discriminate]. intros Hreport.
    apply report_failure_run in Hreport as [_ [[= ->]|(c & d & e' & _ & _ & [=])]]. eauto.
Qed.

(** X28.  The tool reports failures instead of raising them: the only
    [Exception] that leaves it is one raised by closing the connection.
    And whenever the connection was made and the tool returned or raised
    an [Exception], the last thing it did was to close the connection. *)
Theorem query_failures_are_reported_and_the_connection_closed
    (query : pystr) (w w' : server_world) (r : outcome query_result) :
  execute_sql_query query w = (r, w') ->
  (forall e, r = Raise e -> is_Exception e = true ->
             exists conn d, fst (conn_close conn d) = Raise e)
  /\ (forall conn d, mysql_connect (db w) = (Return conn, d) ->
        (forall e, r = Raise e -> is_Exception e = true) ->
        exists before, journal w' = before ++ [DbClose]).
Proof.
  unfold execute_sql_query. rewrite driver_run.
  destruct (mysql_connect (db w)) as [[conn|e] d0] eqn:Hconnect; cbn [fst snd].
  - destruct (run_query conn query _) as [[result|e] w1] eqn:Hquery.
    + intros [= <- <-]. split; [discriminate|]. intros conn' d _ _.
      apply run_query_journal in Hquery as (k & Hjournal & _ & Hresult).
      assert (k = 4%nat) as -> by (destruct result; [| |contradiction]; tauto).
      rewrite Hjournal. unfold query_steps. cbn [take].
      eexists (_ ++ [_; _; _]). now rewrite <- app_assoc.
    + destruct (is_Exception e) eqn:He.
      * intros Hreport. apply report_failure_run in Hreport as [Hjournal Hr]. split.
        -- intros e' -> _. destruct Hr as [[=]|(c & d & e'' & _ & Hclose & [= ->])]. eauto.
        -- intros conn' d _ _. eauto.
      * intros [= <- <-]. split; [intros e' [= <-]; congruence|].
        intros conn' d _ Hexc. specialize (Hexc e eq_refl). congruence.
  - destruct (is_Exception e) eqn:He.
    + intros Hreport. apply report_failure_run in Hreport as [_ Hr]. split.
      * intros e' -> _. destruct Hr as [[=]|(c & d & e'' & [=] & _)].
      * discriminate.
    + intros [= <- <-]. split; [intros e' [= <-]; congruence|discriminate].
Qed.

End ServerProperties.

(** * The properties at concrete inputs *)

#[local] Existing Instance ascii_interpreter.
#[local] Existing Instance scripted.
#[local] Existing Instance scripted_agent.
#[local] Existing Instance scripted_database.

Lemma chat_keeps_most_recent_window_witness :
  let self := {| conversation_history := long_history |} in
  let appended :=
    long_history ++ [user_message (codes "Hello!"); assistant_message (codes "Hi")] in
  exists self' w',
    DatabaseChatAgent_chat self (codes "Hello!") (start (asks_for_tables [] true))
    = (Return (Some (codes "Hi"), self'), w')
    /\ conversation_history self' = drop 6 appended
    /\ length (conversation_history self') = 20%nat.
Proof.
  eexists _, _. split; [run|].
  pose proof (chat_keeps_most_recent_window
                {| conversation_history := long_history |} _ (codes "Hello!")
                (Some (codes "Hi")) (start (asks_for_tables [] true)) _ eq_refl)
    as [H1 [H2 _]].
  split; [exact H1|]. apply H2. vm_compute. lia.
Defined.

#[local] Ltac not_in :=
  unfold type_mapping; cbn [map fst];
  rewrite ?not_elem_of_cons; repeat split;
  try (vm_compute; discriminate); try apply not_elem_of_nil.

(** C8 as written fails: [Number] is none of the five lower-case names,
    and the projector gives it [NUMBER], not [STRING]. *)
Lemma capitalised_type_name_is_not_STRING :
  (codes "Number" ∉ map fst type_mapping)
  /\ convert_property
       (PDict [(codes "type", PStr (codes "Number"));
               (codes "description", PStr (codes "How many"))])
     = Return {| ps_type := codes "NUMBER";
                 ps_description := Some (PStr (codes "How many")) |}
  /\ codes "NUMBER" <> codes "STRING".
Proof. split; [not_in|]. split; [run|vm_compute; discriminate]. Qed.

Lemma gemini_projection_folds_case_witness :
  convert_property
    (PDict [(codes "description", PStr (codes "Row limit")); (codes "type", PStr (codes "Integer"))])
  = Return {| ps_type := codes "INTEGER";
              ps_description := Some (PStr (codes "Row limit")) |}.
Proof.
  exact (proj1 (gemini_projection_folds_case
                  [(codes "description", PStr (codes "Row limit"));
                   (codes "type", PStr (codes "Integer"))]
                  (codes "Integer") eq_refl eq_refl)).
Defined.

(** C2 as written fails: started with the provider name [foo], [main]
    builds the Anthropic client, opens the session to the tool server and
    runs the chat loop to its end. *)
Lemma unknown_provider_is_not_fatal :
  (codes "foo" ∉ [codes "anthropic"; codes "openai"; codes "gemini"])
  /\ exists w',
       main 1 [codes "client.py"; codes "./weather.py"; codes "foo"]
         (start (asks_for_tables [codes "quit"] true))
       = (Return tt, w')
       /\ take 3 (trace w')
          = [EvNewClient (codes "anthropic");
             EvOpenSession (Stdio (codes "python") [codes "./weather.py"]);
             EvListTools].
Proof. split; [not_in|]. eexists. split; [run|reflexivity]. Qed.

Lemma unknown_provider_falls_back_witness :
  main 1 [codes "client.py"; codes "./weather.py"; codes "foo"]
  = main 1 [codes "client.py"; codes "./weather.py"]
  /\ MCPClient_init (codes "foo") (start (asks_for_tables [] true))
     = (Raise ValueError, start (asks_for_tables [] true)).
Proof.
  apply (unknown_provider_falls_back 1 (codes "client.py") (codes "./weather.py")
           (codes "foo") [] (codes "foo") (start (asks_for_tables [] true))); not_in.
Defined.

(** C1 as written fails: the mapping [{'on': True}] is flat and JSON can
    carry it, but its marker is parsed back as the empty mapping, for
    [True] is no JSON literal. *)
Lemma boolean_argument_does_not_round_trip :
  let tool_args := PDict [(codes "on", PBool true)] in
  let marker := tool_call_marker (codes "set_flag") tool_args in
  write_marker (codes "set_flag") tool_args = Return marker
  /\ marker = codes "[Tool call: set_flag with args {'on': True}]"
  /\ findall marker = [(codes "set_flag", codes "{'on': True}")]
  /\ parse_tool_args (codes "{'on': True}") (start (asks_for_tables [] true))
     = (Return (PDict []), start (asks_for_tables [] true))
  /\ PDict [] <> tool_args.
Proof. repeat split; try run. discriminate. Qed.

(** A mapping with a line break, a backslash, an integer and a float. *)
Lemma marker_round_trip_for_flat_mappings_witness :
  let marker := tool_call_marker (codes "run-query") (PDict query_arguments) in
  py_repr (PDict query_arguments)
  = codes "{'sql': 'SELECT 1\nFROM t', 'path': 'C:\\tmp', 'limit': 10, 'ratio': 1.5}"
  /\ write_marker (codes "run-query") (PDict query_arguments) = Return marker
  /\ findall marker = [(codes "run-query", py_repr (PDict query_arguments))]
  /\ parse_tool_args (py_repr (PDict query_arguments)) = ret (PDict query_arguments)
  /\ forall w,
       mediate (findall marker) marker w
       = bind (call_tool (codes "run-query") (PDict query_arguments))
           (fun result => ret (marker ++ result_segment result)) w.
Proof.
  split; [run|].
  assert (flat_mapping query_arguments) as Hflat.
  { split; [|reflexivity]. refine (bool_decide_unpack _ _). vm_compute. exact I. }
  destruct (marker_round_trip_for_flat_mappings (codes "run-query") query_arguments)
    as (Hwrite & Hfind & Hparse & _ & Hmediate).
  - vm_compute. discriminate.
  - reflexivity.
  - exact Hflat.
  - vm_compute. lia.
  - split; [exact Hwrite|]. split; [exact Hfind|]. split; [exact Hparse|]. exact Hmediate.
Defined.


(** End-to-end scenario 2: the adapter's text holds one marker; the tool
    is called once, with the empty mapping, and its result is appended. *)
Lemma process_query_appends_one_segment_per_marker_witness :
  let w := start (asks_for_tables [] true) in
  let self := connected AnthropicService (codes "anthropic") in
  exists messages w',
    MCPClient_process_query self (codes "Which tables?") None w
    = (Return (codes "Let me check." ++ 10 :: codes "[Tool call: list_tables with args {}]"
               ++ 10 :: codes "[tool results: rows of list_tables]", messages), w')
    /\ tool_calls_in (trace w') = [(codes "list_tables", PDict [])]
    /\ exists response w0 adapter_text w1 matches,
         list_tools w = (Return response, w0)
         /\ llm_process_query AnthropicService (codes "Which tables?")
              (available_tools_of response) None w0 = (Return (adapter_text, messages), w1)
         /\ adapter_text
            = codes "Let me check." ++ 10 :: codes "[Tool call: list_tables with args {}]"
         /\ matches_of adapter_text matches
         /\ matches = [(codes "list_tables", codes "{}")]
         /\ results_of matches (ext w1) = [codes "rows of list_tables"].
Proof.
  eexists _, _.
  match goal with
  | |- ?ran = ?result /\ _ => assert (ran = result) as Hrun by run
  end.
  split; [exact Hrun|]. split; [run|].
  destruct (process_query_appends_one_segment_per_marker
              (connected AnthropicService (codes "anthropic")) (codes "Which tables?") None
              (start (asks_for_tables [] true)) _ _ _ I Hrun)
    as (response & w0 & adapter_text & w1 & matches & Hlist & Hllm & Hmatches & _).
  exists response, w0, adapter_text, w1, matches.
  split; [exact Hlist|]. split; [exact Hllm|].
  vm_compute in Hlist. injection Hlist as <- <-.
  vm_compute in Hllm. injection Hllm as <- <-.
  split; [reflexivity|]. split; [exact Hmatches|].
  apply matches_of_findall in Hmatches as <-. split; reflexivity.
Defined.



(** Each of the three adapters, called without previous messages, returns
    its list: the user message, and with OpenAI the assistant message of
    the tool call. *)
Lemma fresh_transcript_has_one_message_plus_extension_witness :
  let w := start (asks_for_tables [] true) in
  let query := codes "Which tables?" in
  (exists text w',
     llm_process_query AnthropicService query [] None w = (Return (text, 0%nat), w')
     /\ list_at (heap w') 0%nat = [user_message query])
  /\ (exists text w',
        llm_process_query OpenAIService query [] None w = (Return (text, 0%nat), w')
        /\ length (list_at (heap w') 0%nat) = 2%nat)
  /\ (exists text w',
        llm_process_query GeminiService query [] None w = (Return (text, 0%nat), w')
        /\ list_at (heap w') 0%nat = [user_message query]).
Proof.
  split; [|split].
  - refine (proj2 (fresh_transcript_has_one_message_plus_extension AnthropicService
                     (codes "Which tables?") [] None (start (asks_for_tables [] true))
                     I eq_refl) _ _ eq_refl eq_refl).
  - refine (proj2 (fresh_transcript_has_one_message_plus_extension OpenAIService
                     (codes "Which tables?") [] None (start (asks_for_tables [] true))
                     I eq_refl) _ _ _ eq_refl _).
    repeat constructor. exists (PDict []). split; reflexivity.
  - refine (proj2 (fresh_transcript_has_one_message_plus_extension GeminiService
                     (codes "Which tables?") [] None (start (asks_for_tables [] true))
                     I eq_refl) tt (asks_for_tables [] true)
                     (gemini_reply (asks_for_tables [] true)) (asks_for_tables [] true)
                     _ _ eq_refl _ eq_refl).
    + constructor.
    + intros gemini_tools _. reflexivity.
    + intros candidate rest [= <- <-]. discriminate.
Defined.

(** C9 as written fails: the vendor answers, the query returns, and the
    turn fails when it prints the response, for the terminal cannot
    encode the accented letter.  By then [previous_messages] is the list
    the query returned: the loop goes on with the query of the failed turn
    in its transcript. *)
Lemma failed_print_leaves_the_query_in_the_transcript :
  let w := resumed (answers_beyond_ascii [codes "Hello"]) in
  let self := connected AnthropicService (codes "anthropic") in
  let text := 10 :: codes "Response: Voil" ++ [224] in
  exists w1 w2 w',
    chat_turn_body (MCPClient_process_query self) 0%nat w = (Return (Rebound 1%nat text), w1)
    /\ print text w1 = (Raise ValueError, w2)
    /\ is_Exception ValueError = true
    /\ chat_turn (MCPClient_process_query self) 0%nat w = (Return (Continue 1%nat), w')
    /\ list_at (heap w) 0%nat = [user_message (codes "earlier")]
    /\ list_at (heap w') 1%nat
       = [user_message (codes "earlier"); user_message (codes "Hello")]
    /\ forall turns,
         chat_turns (S turns) (MCPClient_process_query self) 0%nat w
         = chat_turns turns (MCPClient_process_query self) 1%nat w'.
Proof.
  eexists _, _, _. split; [run|]. split; [run|]. split; [reflexivity|].
  match goal with
  | |- ?ran = ?result /\ _ => assert (ran = result) as Hrun by run
  end.
  split; [exact Hrun|]. split; [reflexivity|]. split; [reflexivity|].
  intros turns. cbn [chat_turns]. unfold bind at 1. now rewrite Hrun.
Qed.

(** The call of the tool fails inside the turn: the loop goes on with the
    list it had.  And the print of the response fails: the loop goes on
    with the list the query returned. *)
Lemma failed_turn_goes_on_with_the_transcript_it_has_witness :
  let self := connected AnthropicService (codes "anthropic") in
  (let w := resumed (tables_unavailable [codes "Hello"]) in
   exists w1 w',
     chat_turn_body (MCPClient_process_query self) 0%nat w = (Raise (External 0), w1)
     /\ tool_calls_in (trace w1) = [(codes "list_tables", PDict [])]
     /\ chat_turn (MCPClient_process_query self) 0%nat w = (Return (Continue 0%nat), w')
     /\ list_at (heap w') 0%nat = [user_message (codes "earlier")]
     /\ forall turns,
          chat_turns (S turns) (MCPClient_process_query self) 0%nat w
          = chat_turns turns (MCPClient_process_query self) 0%nat w')
  /\ (let w := resumed (answers_beyond_ascii [codes "Hello"]) in
      exists w',
        chat_turn (MCPClient_process_query self) 0%nat w = (Return (Continue 1%nat), w')
        /\ 1%nat <> 0%nat
        /\ forall turns,
             chat_turns (S turns) (MCPClient_process_query self) 0%nat w
             = chat_turns turns (MCPClient_process_query self) 1%nat w').
Proof.
  split.
  - eexists _, _.
    match goal with
    | |- ?ran = ?result /\ _ => assert (ran = result) as Hbody by run
    end.
    split; [exact Hbody|]. split; [run|].
    destruct (proj1 (failed_turn_goes_on_with_the_transcript_it_has
                       (connected AnthropicService (codes "anthropic")) 0%nat
                       (resumed (tables_unavailable [codes "Hello"])) ltac:(cbn; lia))
                (External 0) _ Hbody eq_refl) as (_ & _ & Hgoes & _).
    destruct (Hgoes _ ltac:(run)) as (Hturn & Hlist & Hturns).
    split; [exact Hturn|]. split; [exact Hlist|exact Hturns].
  - eexists.
    assert (chat_turn_body
              (MCPClient_process_query (connected AnthropicService (codes "anthropic")))
              0%nat (resumed (answers_beyond_ascii [codes "Hello"]))
            = (Return (Rebound 1%nat (10 :: codes "Response: Voil" ++ [224])),
               {| heap := [[user_message (codes "earlier")];
                           [user_message (codes "earlier"); user_message (codes "Hello")]];
                  ext := answers_beyond_ascii [];
                  trace := [EvInput; EvListTools; EvVendor (codes "anthropic")] |}))
      as Hbody by run.
    destruct (proj2 (failed_turn_goes_on_with_the_transcript_it_has
                       (connected AnthropicService (codes "anthropic")) 0%nat
                       (resumed (answers_beyond_ascii [codes "Hello"])) ltac:(cbn; lia))
                _ _ _ ValueError _ Hbody ltac:(run) eq_refl) as (Hnew & _ & _ & Hgoes).
    destruct (Hgoes _ ltac:(run)) as (Hturn & Hturns).
    split; [exact Hturn|]. split; [exact Hnew|exact Hturns].
Defined.
(** ** The further properties at concrete inputs *)

Lemma connect_returns_with_one_session_and_its_tools_witness :
  let self := {| llm_provider := codes "anthropic"; llm_service := AnthropicService;
                 session := false |} in
  let w := start (asks_for_tables [] true) in
  exists client w',
    connect_to_server self (codes "http://localhost:3000/mcp") w = (Return client, w')
    /\ session client = true
    /\ llm_service client = AnthropicService
    /\ exists t, trace w' = trace w ++ [EvOpenSession t; EvListTools]
                 /\ t = SSE (codes "http://localhost:3000/mcp").
Proof.
  eexists _, _. split; [run|].
  destruct (connect_returns_with_one_session_and_its_tools
              {| llm_provider := codes "anthropic"; llm_service := AnthropicService;
                 session := false |}
              (codes "http://localhost:3000/mcp") (start (asks_for_tables [] true)) _ _
              eq_refl) as (Hsession & _ & Hservice & _ & t & Htrace & Ht).
  split; [exact Hsession|]. split; [exact Hservice|]. exists t. split; [exact Htrace|exact Ht].
Defined.

Lemma unsupported_target_is_refused_before_anything_opens_witness :
  let self := {| llm_provider := codes "anthropic"; llm_service := AnthropicService;
                 session := false |} in
  let w := start (asks_for_tables [] true) in
  unsupported_target (codes "tools/server.rb") = true
  /\ exists r w',
       connect_to_server self (codes "tools/server.rb") w = (r, w')
       /\ r = Raise ValueError /\ w' = w.
Proof.
  split; [reflexivity|]. eexists _, _. split; [run|].
  exact (proj1 (unsupported_target_is_refused_before_anything_opens
                  {| llm_provider := codes "anthropic"; llm_service := AnthropicService;
                     session := false |}
                  (codes "tools/server.rb") (start (asks_for_tables [] true)) _ _ eq_refl)
           eq_refl).
Defined.

Lemma query_before_connect_raises_RuntimeError_witness :
  let w := start (asks_for_tables [] true) in
  exists client w1,
    MCPClient_init (codes "openai") w = (Return client, w1)
    /\ MCPClient_process_query client (codes "Which tables?") None w1
       = (Raise RuntimeError, w1).
Proof.
  eexists _, _. split; [run|].
  exact (proj1 (query_before_connect_raises_RuntimeError (codes "openai")
                  (codes "Which tables?") None (start (asks_for_tables [] true)) _ _ eq_refl)).
Defined.

(** The call of the tool fails: the query stops at the fourth stage, the
    tool listed, the vendor asked and this one call made. *)
Lemma failed_query_stops_at_its_stage_witness :
  let w := start (tables_unavailable []) in
  let self := connected AnthropicService (codes "anthropic") in
  exists w',
    MCPClient_process_query self (codes "Which tables?") None w = (Raise (External 0), w')
    /\ trace w'
       = [EvListTools; EvVendor (codes "anthropic"); EvCallTool (codes "list_tables") (PDict [])]
    /\ exists response w0 adapter_text messages w1 k m x,
         list_tools w = (Return response, w0)
         /\ llm_process_query AnthropicService (codes "Which tables?")
              (available_tools_of response) None w0 = (Return (adapter_text, messages), w1)
         /\ findall adapter_text !! k = Some m
         /\ tool_calls_in (trace w')
            = tool_calls_in (trace w) ++ map invocation_of (take (S k) (findall adapter_text))
         /\ session_call_tool (fst m) (tool_args_of (snd m)) x = (Raise (External 0), ext w').
Proof.
  eexists.
  match goal with
  | |- ?ran = ?result /\ _ => assert (ran = result) as Hrun by run
  end.
  split; [exact Hrun|]. split; [reflexivity|].
  destruct (failed_query_stops_at_its_stage (connected AnthropicService (codes "anthropic"))
              (codes "Which tables?") None (start (tables_unavailable [])) _ (External 0) Hrun)
    as [(Hsession & _)|(_ & [Hlist|[Hadapter|Htool]])].
  - discriminate.
  - vm_compute in Hlist. discriminate.
  - destruct Hadapter as (response & w0 & Hlist & Hllm & _).
    vm_compute in Hlist. injection Hlist as <- <-. vm_compute in Hllm. discriminate.
  - exact Htool.
Defined.

Lemma main_closes_the_session_it_opened_witness :
  let w := start (asks_for_tables [codes "quit"] true) in
  exists w' events,
    main 1 [codes "client.py"; codes "http://localhost:3000/mcp"] w = (Return tt, w')
    /\ trace w' = trace w ++ events
    /\ forall before t after,
         events = before ++ EvOpenSession t :: after -> EvCleanup ∈ after.
Proof.
  eexists.
  match goal with
  | |- exists events, ?ran = ?result /\ _ => assert (ran = result) as Hrun by run
  end.
  destruct (main_closes_the_session_it_opened 1
              [codes "client.py"; codes "http://localhost:3000/mcp"]
              (start (asks_for_tables [codes "quit"] true)) _ _ Hrun)
    as (events & Htrace & Hclosed).
  exists events. split; [exact Hrun|]. split; [exact Htrace|exact Hclosed].
Defined.

Lemma provider_name_is_read_without_case_witness :
  main 1 [codes "client.py"; codes "./weather.py"; codes "OpenAI"; codes "--verbose"]
  = main 1 [codes "client.py"; codes "./weather.py"; codes "openai"].
Proof.
  exact (provider_name_is_read_without_case 1 (codes "client.py") (codes "./weather.py")
           (codes "OpenAI") [codes "--verbose"] eq_refl).
Defined.

(** [  QUIT  ] is the word [quit]. *)
Lemma quit_ends_the_loop_witness :
  let w := start (asks_for_tables [codes "  QUIT  "; codes "never read"] true) in
  let self := connected AnthropicService (codes "anthropic") in
  typed (codes "quit") (codes "  QUIT  ")
  /\ chat_turns 5 (MCPClient_process_query self) 0%nat w
     = (Return tt, {| heap := heap w;
                      ext := asks_for_tables [codes "never read"] true;
                      trace := trace w ++ [EvInput] |}).
Proof.
  assert (typed (codes "quit") (codes "  QUIT  ")) as Htyped.
  { exists (codes "  "), (codes "QUIT"), (codes "  "). repeat split. }
  split; [exact Htyped|].
  exact (quit_ends_the_loop
           (MCPClient_process_query (connected AnthropicService (codes "anthropic")))
           0%nat 4 (start (asks_for_tables [codes "  QUIT  "; codes "never read"] true))
           (codes "  QUIT  ") (asks_for_tables [codes "never read"] true) eq_refl Htyped).
Defined.

Lemma refresh_starts_a_new_transcript_witness :
  let w := resumed (asks_for_tables [codes "Refresh"] true) in
  let self := connected AnthropicService (codes "anthropic") in
  typed (codes "refresh") (codes "Refresh")
  /\ exists w',
       chat_turn (MCPClient_process_query self) 0%nat w = (Return (Continue 1%nat), w')
       /\ trace w' = [EvInput; EvPrint (codes "Conversation history cleared.")]
       /\ list_at (heap w') 1%nat = []
       /\ list_at (heap w') 0%nat = [user_message (codes "earlier")].
Proof.
  assert (typed (codes "refresh") (codes "Refresh")) as Htyped.
  { exists [], (codes "Refresh"), []. repeat split. }
  split; [exact Htyped|]. eexists. split.
  - exact (proj2 (proj2 (refresh_starts_a_new_transcript
                           (MCPClient_process_query
                              (connected AnthropicService (codes "anthropic")))
                           0%nat (resumed (asks_for_tables [codes "Refresh"] true))
                           (codes "Refresh") (asks_for_tables [] true) eq_refl Htyped))
             (asks_for_tables [] true) eq_refl).
  - repeat split; reflexivity.
Defined.

Lemma blank_line_is_sent_as_the_empty_query_witness :
  let w := resumed (asks_for_tables [codes "   "] true) in
  let self := connected AnthropicService (codes "anthropic") in
  exists w',
    chat_turn_body (MCPClient_process_query self) 0%nat w
    = (Return (Rebound 1%nat
                 (10 :: codes "Response: Let me check."
                  ++ 10 :: codes "[Tool call: list_tables with args {}]"
                  ++ 10 :: codes "[tool results: rows of list_tables]")), w')
    /\ list_at (heap w') 1%nat = [user_message (codes "earlier"); user_message []].
Proof.
  eexists. split.
  - rewrite (blank_line_is_sent_as_the_empty_query
               (MCPClient_process_query (connected AnthropicService (codes "anthropic")))
               0%nat (resumed (asks_for_tables [codes "   "] true))
               (codes "   ") (asks_for_tables [] true) eq_refl eq_refl).
    run.
  - reflexivity.
Defined.

(** A turn with Anthropic: the reply asks for a tool, the tool answers,
    and the transcript has gained the query and nothing else. *)
Lemma replies_are_not_recorded_witness :
  let w := resumed (asks_for_tables [codes "Which tables?"] true) in
  let self := connected AnthropicService (codes "anthropic") in
  exists w',
    chat_turn (MCPClient_process_query self) 0%nat w = (Return (Continue 1%nat), w')
    /\ (1 < length (heap w'))%nat
    /\ Forall (fun m => exists query, m = user_message query) (list_at (heap w') 1%nat).
Proof.
  eexists. split; [run|].
  apply (replies_are_not_recorded (connected AnthropicService (codes "anthropic")) 0%nat 1%nat
           (resumed (asks_for_tables [codes "Which tables?"] true))).
  - discriminate.
  - cbn. lia.
  - repeat constructor. now exists (codes "earlier").
  - run.
Defined.

(** End-to-end scenario 3 with Anthropic: two tool uses, two calls. *)
Lemma anthropic_tool_uses_become_tool_calls_witness :
  let w := start asks_twice in
  let self := connected AnthropicService (codes "anthropic") in
  Forall plain_block (anthropic_reply asks_twice)
  /\ exists text messages w',
       MCPClient_process_query self (codes "Describe users") None w
       = (Return (text, messages), w')
       /\ tool_calls_in (trace w')
          = [(codes "list_tables", PDict []);
             (codes "describe_table", PDict [(codes "table", PStr (codes "users"))])].
Proof.
  assert (Forall plain_block (anthropic_reply asks_twice)) as Hplain.
  { repeat constructor; try discriminate.
    refine (bool_decide_unpack _ _). vm_compute. exact I. }
  split; [exact Hplain|]. eexists _, _, _. split; [run|].
  assert (1 <= client_recursion_room)%nat as Hroom by (vm_compute; lia).
  destruct (anthropic_tool_uses_become_tool_calls
              (connected AnthropicService (codes "anthropic")) (codes "Describe users") None
              (start asks_twice) _ _ _ eq_refl I Hroom eq_refl)
    as (response & w0 & response_content & x & Hlist & Hcreate & Hcalls).
  vm_compute in Hlist. injection Hlist as <- <-.
  vm_compute in Hcreate. injection Hcreate as <- <-.
  exact (Hcalls Hplain).
Defined.

Lemma openai_tool_calls_become_tool_calls_witness :
  let w := start (asks_for_tables [] true) in
  let self := connected OpenAIService (codes "openai") in
  exists text messages w',
    MCPClient_process_query self (codes "Which tables?") None w
    = (Return (text, messages), w')
    /\ tool_calls_in (trace w') = [(codes "list_tables", PDict [])].
Proof.
  eexists _, _, _. split; [run|].
  assert (1 <= client_recursion_room)%nat as Hroom by (vm_compute; lia).
  destruct (openai_tool_calls_become_tool_calls
              (connected OpenAIService (codes "openai")) (codes "Which tables?") None
              (start (asks_for_tables [] true)) _ _ _ eq_refl I Hroom eq_refl)
    as (response & w0 & response_message & choices & x & Hlist & Hcreate & Hcalls).
  vm_compute in Hlist. injection Hlist as <- <-.
  vm_compute in Hcreate. injection Hcreate as <- <- <-.
  apply Hcalls; [reflexivity|].
  repeat constructor; try discriminate. exists []. repeat constructor.
Defined.

Lemma gemini_function_calls_become_tool_calls_witness :
  let w := start (asks_for_tables [] true) in
  let self := connected GeminiService (codes "gemini") in
  exists text messages w',
    MCPClient_process_query self (codes "Which tables?") None w
    = (Return (text, messages), w')
    /\ tool_calls_in (trace w') = [(codes "list_tables", PDict [])].
Proof.
  eexists _, _, _. split; [run|].
  assert (1 <= client_recursion_room)%nat as Hroom by (vm_compute; lia).
  destruct (gemini_function_calls_become_tool_calls
              (connected GeminiService (codes "gemini")) (codes "Which tables?") None
              (start (asks_for_tables [] true)) _ _ _ eq_refl Hroom eq_refl)
    as (response & w0 & gemini_tools & chat & x1 & reply & x2
        & Hlist & Hconvert & Hcreate & Hsend & Hcalls).
  vm_compute in Hlist. injection Hlist as <- <-.
  vm_compute in Hconvert. injection Hconvert as <-.
  vm_compute in Hcreate. injection Hcreate as <- <-.
  vm_compute in Hsend. injection Hsend as <- <-.
  apply Hcalls. repeat constructor; discriminate.
Defined.

Lemma gemini_adapter_refuses_an_unreadable_catalog_witness :
  let w := start (asks_for_tables [] true) in
  ~ Forall (fun t => readable_schema (input_schema t)) unreadable_catalog
  /\ GeminiService_process_query (codes "Which tables?") unreadable_catalog None w
     = (Raise AttributeError, w).
Proof.
  assert (~ Forall (fun t => readable_schema (input_schema t)) unreadable_catalog) as Hbad.
  { intros H. inversion H as [|t l Hhead _]. exact Hhead. }
  split; [exact Hbad|].
  exact (gemini_adapter_refuses_an_unreadable_catalog (codes "Which tables?")
           unreadable_catalog None (start (asks_for_tables [] true)) Hbad).
Defined.


(** The model answers [Hi], which is no JSON: the tool round apologises
    and calls nothing. *)
Lemma selection_must_name_tool_and_arguments_witness :
  let w := start (asks_for_tables [] true) in
  let self := {| conversation_history := [] |} in
  (forall tool arguments, ~ selects (codes "Hi") tool arguments)
  /\ exists r w',
       run_selected_tool self (codes "List the tables") (codes "Hi") w = (r, w')
       /\ w' = w
       /\ exists answer, r = Return answer /\ apology answer.
Proof.
  assert (forall tool arguments, ~ selects (codes "Hi") tool arguments) as Hnone.
  { intros tool arguments (tool_call & Hdecoded & _). vm_compute in Hdecoded. discriminate. }
  split; [exact Hnone|]. eexists _, _. split; [run|].
  exact (selection_must_name_tool_and_arguments {| conversation_history := [] |}
           (codes "List the tables") (codes "Hi") (start (asks_for_tables [] true)) _ _
           eq_refl Hnone).
Defined.

Lemma database_request_enters_and_leaves_one_session_witness :
  let w := start (asks_for_tables [] true) in
  let self := {| conversation_history := [] |} in
  exists r w',
    DatabaseChatAgent_handle_database_operation self (codes "List the tables") w = (r, w')
    /\ r = Return (Some rephrase_message)
    /\ (forall e, r = Raise e -> is_Exception e = false)
    /\ (trace w' = trace w ++ [EvOpenSession (SSE sse_url)]
        \/ exists tool arguments k,
             trace w' = trace w ++ EvOpenSession (SSE sse_url)
                                   :: take k (request_events tool arguments) ++ [EvCleanup]).
Proof.
  eexists _, _. split; [run|]. split; [reflexivity|].
  exact (database_request_enters_and_leaves_one_session {| conversation_history := [] |}
           (codes "List the tables") (start (asks_for_tables [] true)) _ _ eq_refl).
Defined.

(** Three lines and then the end of the input, which the handler reports
    twice: the loop goes on to its last pass.  And a terminal that takes
    ASCII only: the first print of the loop fails, the handler's print of
    the error fails too, and that leaves the loop. *)
Lemma agent_loop_fails_only_past_its_handlers_witness :
  (let w := start (asks_for_tables [codes "Hello"; codes "  "; codes "Thanks"] true) in
   exists self' w',
     agent_turns 5 {| conversation_history := [] |} w = (Return self', w')
     /\ forall e, Return self' = Raise e ->
                  (is_Exception e = false /\ is_KeyboardInterrupt e = false)
                  \/ raised_by_handler_print e w')
  /\ (let w := start (answers_beyond_ascii [codes "Hello"]) in
      exists w',
        agent_turns 5 {| conversation_history := [] |} w = (Raise ValueError, w')
        /\ trace w'
           = [EvInput; EvPrint (10 :: robot ++ codes " Assistant: ");
              EvPrint (10 :: cross ++ codes " Error: failed")]
        /\ raised_by_handler_print ValueError w').
Proof.
  split.
  - eexists _, _. split; [run|].
    refine (agent_loop_fails_only_past_its_handlers 5 {| conversation_history := [] |}
              (start (asks_for_tables [codes "Hello"; codes "  "; codes "Thanks"] true))
              _ _ _).
    run.
  - eexists.
    match goal with
    | |- ?ran = ?result /\ _ => assert (ran = result) as Hrun by run
    end.
    split; [exact Hrun|]. split; [reflexivity|].
    destruct (agent_loop_fails_only_past_its_handlers 5 {| conversation_history := [] |}
                (start (answers_beyond_ascii [codes "Hello"])) _ _ Hrun ValueError eq_refl)
      as [[Hexc _]|Hprint]; [discriminate|exact Hprint].
Defined.

Lemma agent_history_stays_within_the_window_witness :
  let w := start (asks_for_tables [codes "Hello"; codes "Thanks"; codes "bye"] true) in
  let self := {| conversation_history := drop 6 long_history |} in
  length (conversation_history self) = 18%nat
  /\ exists self' w',
       agent_turns 5 self w = (Return self', w')
       /\ (length (conversation_history self') <= 20)%nat.
Proof.
  split; [reflexivity|]. eexists _, _. split; [run|].
  refine (agent_history_stays_within_the_window 5
            {| conversation_history := drop 6 long_history |} _
            (start (asks_for_tables [codes "Hello"; codes "Thanks"; codes "bye"] true)) _
            _ _).
  - vm_compute. lia.
  - run.
Defined.

Lemma agent_skips_a_blank_line_witness :
  let w := start (asks_for_tables [codes "   "; codes "Hello"] true) in
  let self := {| conversation_history := long_history |} in
  agent_turn self w
  = (Return (Again self),
     {| heap := heap w; ext := asks_for_tables [codes "Hello"] true;
        trace := trace w ++ [EvInput] |}).
Proof.
  exact (agent_skips_a_blank_line {| conversation_history := long_history |}
           (start (asks_for_tables [codes "   "; codes "Hello"] true))
           (codes "   ") (asks_for_tables [codes "Hello"] true) eq_refl eq_refl).
Defined.

(** A statement that deletes: it is executed and committed. *)
Lemma every_statement_is_sent_to_the_database_witness :
  let query := codes "DELETE FROM users" in
  exists r w',
    execute_sql_query query server_start = (r, w')
    /\ journal w' = [DbConnect; DbCursor; DbExecute query; DbCommit; DbClose]
    /\ exists rest,
         journal w' = journal server_start ++ DbConnect :: DbCursor :: DbExecute query :: rest
         /\ (is_select query = false ->
             fst (cursor_execute tt query []) = Return tt ->
             exists rest', rest = DbCommit :: rest').
Proof.
  eexists _, _. split; [run|]. split; [reflexivity|].
  exact (every_statement_is_sent_to_the_database (codes "DELETE FROM users") server_start
           _ _ tt tt [] [] eq_refl eq_refl eq_refl).
Defined.

Lemma query_result_tells_what_was_run_witness :
  let query := codes "  select name from users" in
  exists result w',
    execute_sql_query query server_start = (Return result, w')
    /\ result = Rows [codes "alice"; codes "bob"] 2
    /\ match result with
       | Rows data row_count => is_select query = true /\ row_count = length data
       | Executed message affected_rows =>
           is_select query = false
           /\ message = codes "Query executed successfully. " ++ repr_int affected_rows
                        ++ codes " rows affected."
       | Failure error => exists e, is_Exception e = true /\ error = error_text e
       end.
Proof.
  eexists _, _. split; [run|]. split; [reflexivity|].
  exact (query_result_tells_what_was_run (codes "  select name from users") server_start
           _ _ eq_refl).
Defined.

Lemma query_failures_are_reported_and_the_connection_closed_witness :
  let query := codes "SHOW TABLES" in
  exists r w',
    execute_sql_query query server_start = (r, w')
    /\ r = Return (Executed (codes "Query executed successfully. 1 rows affected.") 1)
    /\ exists before, journal w' = before ++ [DbClose].
Proof.
  eexists _, _. split; [run|]. split; [reflexivity|].
  refine (proj2 (query_failures_are_reported_and_the_connection_closed (codes "SHOW TABLES")
                   server_start _ _ eq_refl) tt [] eq_refl _).
  discriminate.
Defined.
